(** * SoftwareRasterizer (src/main.cpp): a shallow embedding

    The program rasterizes one triangle into a [Frame] by casting, for every
    pixel, a ray along +z, and then writes the frame as a plain PPM (P3) text.

    Modelling choices, all taken from the source:
    - [float] is IEEE 754 binary32 with round-to-nearest-even, every
      operation rounded on its own (no excess precision, no fused
      multiply-add): [SpecFloat] at precision 24, [emax] 128.
    - [uint32_t]/[int32_t] are [N]/[Z] with the wrap-around and the signed
      overflow written out; conversions between them are two's complement.
    - [std::vector::operator[]] out of range, a float-to-int cast that does
      not fit and a signed overflow are undefined behaviour: the run stops
      with [None].
    - every float division, every [setPixel]/[getPixel] call and every
      string sent to the output stream is recorded in a log of events; the
      stream is taken to be open and writable. *)

From Stdlib Require Import ZArith NArith List Bool Lia QArith Qabs Qpower Lqa Ascii String.
From Stdlib Require Import Floats.SpecFloat.
From stdpp Require Import base option list strings pretty.

Open Scope Z_scope.

(** ** binary32 arithmetic *)

Module F32.

Definition prec : Z := 24.
Definition emax : Z := 128.

Definition float : Type := spec_float.

Definition add : float -> float -> float := SFadd prec emax.
Definition sub : float -> float -> float := SFsub prec emax.
Definition mul : float -> float -> float := SFmul prec emax.
Definition div : float -> float -> float := SFdiv prec emax.
Definition neg : float -> float := SFopp.
Definition ltb : float -> float -> bool := SFltb.
Definition leb : float -> float -> bool := SFleb.

(** Conversion of an integer to [float] (round to nearest even), as in
    [(float)x] and in the implicit conversion of an [int] operand. *)
Definition of_Z (z : Z) : float := binary_normalize prec emax z 0 false.

(** A [double] (binary64) constant and its conversion to [float]. *)
Definition dprec : Z := 53.
Definition demax : Z := 1024.
Definition double_of_Z (z : Z) : spec_float := binary_normalize dprec demax z 0 false.
Definition of_double (x : spec_float) : float :=
  match x with
  | S754_finite s m e => binary_normalize prec emax (cond_Zopp s (Zpos m)) e s
  | _ => x
  end.

(** Decimal literals [p/q] with [p], [q] exactly representable: the
    correctly rounded quotient is the nearest float (resp. double). *)
Definition lit_f (p q : Z) : float := div (of_Z p) (of_Z q).
Definition lit_d (p q : Z) : float :=
  of_double (SFdiv dprec demax (double_of_Z p) (double_of_Z q)).

Definition zero : float := S754_zero false.              (* 0.0f *)
Definition one : float := Eval vm_compute in of_Z 1.     (* 1.0f *)

Definition is_nan (x : float) : bool :=
  match x with S754_nan => true | _ => false end.

Definition is_finite (x : float) : bool :=
  match x with S754_zero _ | S754_finite _ _ _ => true | _ => false end.

Definition is_zero (x : float) : bool :=
  match x with S754_zero _ => true | _ => false end.

(** A well-formed binary32 datum. *)
Definition valid (x : float) : bool := valid_binary prec emax x.

(** [(int)x]: truncation toward zero; undefined when the truncated value
    is not an [int] (and for infinities and NaN). *)
Definition trunc (x : float) : option Z :=
  match x with
  | S754_zero _ => Some 0
  | S754_finite s m e => Some (cond_Zopp s (Z.shiftl (Zpos m) e))
  | _ => None
  end.

Definition to_int (x : float) : option Z :=
  match trunc x with
  | Some z => if (- 2 ^ 31 <=? z) && (z <? 2 ^ 31) then Some z else None
  | None => None
  end.

(** The exact rational value of a finite float: [(-1)^s * m * 2^e]. *)
Definition Qval (s : bool) (m e : Z) : Q := (inject_Z (cond_Zopp s m) * Qpower 2 e)%Q.
Definition to_Q (x : float) : option Q :=
  match x with
  | S754_zero _ => Some 0%Q
  | S754_finite s m e => Some (Qval s (Zpos m) e)
  | _ => None
  end.

(** The unit roundoff of binary32, [2^-24], and half the smallest positive
    binary32 number, [2^-150]. *)
Definition unit_roundoff : Q := Qpower 2 (-24).
Definition half_min : Q := Qpower 2 (-150).

End F32.

Import F32.

(** ** 32-bit integers *)

Definition u32 (n : N) : N := (n mod 2 ^ 32)%N.

(** Conversion [uint32_t -> int32_t] (two's complement) and back. *)
Definition to_i32 (n : N) : Z :=
  if (Z.of_N n <? 2 ^ 31) then Z.of_N n else Z.of_N n - 2 ^ 32.
Definition of_i32 (z : Z) : N := Z.to_N (z mod 2 ^ 32).

Definition INT_MAX : Z := 2 ^ 31 - 1.

(** ** std::array<T, 3> and the vec3 operations

    [vadd], [vsub], [vdiv], [vmul] are the componentwise operators,
    [vdivs] and [vscale] the operators with a scalar on the right. *)

Record arr3 (A : Type) : Type := Arr3 { at0 : A; at1 : A; at2 : A }.
Arguments Arr3 {A} _ _ _.
Arguments at0 {A} _.
Arguments at1 {A} _.
Arguments at2 {A} _.

Definition vec3 : Type := arr3 float.

Definition vadd (lhs rhs : vec3) : vec3 :=
  Arr3 (add (at0 lhs) (at0 rhs)) (add (at1 lhs) (at1 rhs)) (add (at2 lhs) (at2 rhs)).
Definition vsub (lhs rhs : vec3) : vec3 :=
  Arr3 (sub (at0 lhs) (at0 rhs)) (sub (at1 lhs) (at1 rhs)) (sub (at2 lhs) (at2 rhs)).
Definition vdiv (lhs rhs : vec3) : vec3 :=
  Arr3 (div (at0 lhs) (at0 rhs)) (div (at1 lhs) (at1 rhs)) (div (at2 lhs) (at2 rhs)).
Definition vmul (lhs rhs : vec3) : vec3 :=
  Arr3 (mul (at0 lhs) (at0 rhs)) (mul (at1 lhs) (at1 rhs)) (mul (at2 lhs) (at2 rhs)).
Definition vdivs (lhs : vec3) (rhs : float) : vec3 :=
  Arr3 (div (at0 lhs) rhs) (div (at1 lhs) rhs) (div (at2 lhs) rhs).
Definition vscale (lhs : vec3) (rhs : float) : vec3 :=
  Arr3 (mul (at0 lhs) rhs) (mul (at1 lhs) rhs) (mul (at2 lhs) rhs).
Definition cross (lhs rhs : vec3) : vec3 :=
  Arr3 (sub (mul (at1 lhs) (at2 rhs)) (mul (at2 lhs) (at1 rhs)))
       (sub (mul (at2 lhs) (at0 rhs)) (mul (at0 lhs) (at2 rhs)))
       (sub (mul (at0 lhs) (at1 rhs)) (mul (at1 lhs) (at0 rhs))).
Definition dot (lhs rhs : vec3) : float :=
  add (add (mul (at0 lhs) (at0 rhs)) (mul (at1 lhs) (at1 rhs))) (mul (at2 lhs) (at2 rhs)).

(** ** The file-scope thresholds *)

Definition eps1 : float := Eval vm_compute in lit_f 1 10000000.      (* 1e-7f *)
Definition eps2 : float := Eval vm_compute in lit_d 1 10000000000.   (* 1e-10 *)
Definition tenth : float := Eval vm_compute in lit_f 1 10.           (* 0.1f *)

(** ** Events, the frame and the monad of the program *)

Inductive event : Type :=
| EvDiv (num den : float)          (* a float division [num / den] was evaluated *)
| EvSet (x y : N) (colour : vec3)  (* [setPixel (x, y, colour)] was called *)
| EvGet (x y : N)                  (* [getPixel (x, y)] was called *)
| EvOut (s : string).              (* [out << s] *)

Record Frame : Type := MkFrame {
  WIDTH : N;
  HEIGHT : N;
  buffer : list vec3
}.

(** [Frame (width, height, fill)]: the size [WIDTH * HEIGHT] is a 32-bit
    product. *)
Definition Frame_new (width height : N) (fill : vec3) : Frame :=
  {| WIDTH := width; HEIGHT := height;
     buffer := replicate (N.to_nat (u32 (width * height))) fill |}.

(** A computation reads and updates the frame, appends to the log, and
    either returns or runs into undefined behaviour ([None]). *)
Definition M (A : Type) : Type := Frame -> list event * option (A * Frame).

#[global] Instance M_ret : MRet M := fun A a f => ([], Some (a, f)).
#[global] Instance M_bind : MBind M := fun A B k m f =>
  match m f with
  | (l1, Some (a, f1)) => let '(l2, r) := k a f1 in (l1 ++ l2, r)
  | (l1, None) => (l1, None)
  end.

Definition get_frame : M Frame := fun f => ([], Some (f, f)).
Definition put_buffer (b : list vec3) : M unit :=
  fun f => ([], Some (tt, {| WIDTH := WIDTH f; HEIGHT := HEIGHT f; buffer := b |})).
Definition emit (e : event) : M unit := fun f => ([e], Some (tt, f)).
Definition undefined {A : Type} : M A := fun f => ([], None).
Definition of_option {A : Type} (o : option A) : M A :=
  match o with Some a => mret a | None => undefined end.

(** Arithmetic that only logs: a value with the events of its evaluation. *)
Definition Tr (A : Type) : Type := (A * list event)%type.
#[global] Instance Tr_ret : MRet Tr := fun A a => (a, []).
#[global] Instance Tr_bind : MBind Tr := fun A B k m =>
  let '(a, l1) := m in let '(b, l2) := k a in (b, l1 ++ l2).
Definition lift {A : Type} (t : Tr A) : M A := fun f => (snd t, Some (fst t, f)).

Definition fdiv (num den : float) : Tr float := (div num den, [EvDiv num den]).

(** ** Frame :: setPixel, getPixel *)

Definition flat_index (width x y : N) : N := u32 (x + u32 (y * width)).

Definition setPixel (x y : N) (colour : vec3) : M unit :=
  emit (EvSet x y colour);;
  f ← get_frame;
  let i := flat_index (WIDTH f) x y in
  if (i <? N.of_nat (length (buffer f)))%N
  then put_buffer (<[N.to_nat i := colour]> (buffer f))
  else undefined.

Definition getPixel (x y : N) : M vec3 :=
  emit (EvGet x y);;
  f ← get_frame;
  let i := flat_index (WIDTH f) x y in
  if (i <? N.of_nat (length (buffer f)))%N
  then of_option (buffer f !! N.to_nat i)
  else undefined.

(** ** Loops *)

(** [for (uint32_t i = start; i < start + n; ++i) body] *)
Fixpoint for_up (n : nat) (i : N) (body : N -> M unit) : M unit :=
  match n with
  | O => mret tt
  | S k => body i;; for_up k (N.succ i) body
  end.

(** [for (uint32_t i = 0; i < bound; ++i) body] *)
Definition for_u32 (bound : N) (body : N -> M unit) : M unit :=
  for_up (N.to_nat bound) 0%N body.

(** [++x] on an [int32_t]. *)
Definition incr_i32 (x : Z) : M Z :=
  if x <? INT_MAX then mret (x + 1) else undefined.

(** [for (int32_t x = start; x < bound; ++x) body], with [bound] a
    [uint32_t] (the comparison is unsigned) and [n] iterations left. *)
Fixpoint for_i32_up (n : nat) (x : Z) (body : Z -> M unit) : M unit :=
  match n with
  | O => mret tt
  | S k => body x;; x' ← incr_i32 x; for_i32_up k x' body
  end.

(** [for (int32_t y = n - 1; y >= 0; --y) body] *)
Fixpoint for_i32_down (n : nat) (body : Z -> M unit) : M unit :=
  match n with
  | O => mret tt
  | S k => body (Z.of_nat k);; for_i32_down k body
  end.

(** ** Frame :: writeBuffer *)

Definition endl : string := String (ascii_of_nat 10) EmptyString.

Definition out (s : string) : M unit := emit (EvOut s).

(** [out << (int)(getPixel(x, y)[k] * 255) << sep] *)
Definition out_channel (x y : Z) (k : vec3 -> float) (sep : string) : M unit :=
  c ← getPixel (of_i32 x) (of_i32 y);
  v ← of_option (to_int (mul (k c) (of_Z 255)));
  out (pretty v);;
  out sep.

(** [int32_t y = HEIGHT - 1]: the 32-bit difference, converted to signed. *)
Definition top_row (height : N) : Z := to_i32 (u32 (height + (2 ^ 32 - 1))).

Definition writeBuffer : M unit :=
  f ← get_frame;
  out "P3 ";; out (pretty (WIDTH f));; out " ";; out (pretty (HEIGHT f));;
  out " 255";; out endl;;
  for_i32_down (Z.to_nat (top_row (HEIGHT f) + 1)) (fun y =>
    for_i32_up (N.to_nat (WIDTH f)) 0 (fun x =>
      out_channel x y at0 " ";;
      out_channel x y at1 " ";;
      out_channel x y at2 endl)).

(** The text the stream received. *)
Fixpoint emitted (l : list event) : string :=
  match l with
  | [] => ""
  | EvOut s :: l' => s +:+ emitted l'
  | _ :: l' => emitted l'
  end.

(** ** main: the triangle, the per-pixel intersection and the raster loop *)

Record Triangle : Type := MkTriangle {
  vertices : arr3 vec3;
  colors : arr3 vec3
}.

(** The values one iteration of the pixel loop computes (lines 118-126). *)
Record Hit : Type := MkHit {
  hit_a : float;
  hit_d : float;
  barycentrics : arr3 float
}.

Definition dir : vec3 := Arr3 zero zero one.

(** Lines 107-126 of the loop body. *)
Definition intersect (tri : Triangle) (x y : N) : Tr Hit :=
  let pix : vec3 := Arr3 (of_Z (Z.of_N x)) (of_Z (Z.of_N y)) zero in
  let u := vsub (at1 (vertices tri)) (at0 (vertices tri)) in
  let v := vsub (at2 (vertices tri)) (at0 (vertices tri)) in
  let n := cross dir v in
  let a := dot u n in
  let s := vsub pix (at0 (vertices tri)) in
  let r := cross s u in
  d ← fdiv (dot v r) a;
  b1 ← fdiv (dot s n) a;
  b2 ← fdiv (dot dir r) a;
  let b0 := sub one (add b1 b2) in
  mret {| hit_a := a; hit_d := d; barycentrics := Arr3 b0 b1 b2 |}.

Definition hit (tri : Triangle) (x y : N) : Hit := fst (intersect tri x y).

(** Lines 130-135: the four flags and the test of the [if]. *)
Definition offAlpha (h : Hit) : bool := ltb (at0 (barycentrics h)) (neg eps2).
Definition offBeta (h : Hit) : bool := ltb (at1 (barycentrics h)) (neg eps2).
Definition offGamma (h : Hit) : bool := ltb (at2 (barycentrics h)) (neg eps2).
Definition zeroArea (h : Hit) : bool := leb (hit_a h) eps1.

Definition covered (h : Hit) : bool :=
  negb (zeroArea h || offAlpha h || offBeta h || offGamma h || leb (hit_d h) tenth).

(** Lines 138-140: the colour handed to [setPixel]. *)
Definition shade (tri : Triangle) (h : Hit) : vec3 :=
  vadd (vadd (vscale (at0 (colors tri)) (at0 (barycentrics h)))
             (vscale (at1 (colors tri)) (at1 (barycentrics h))))
       (vscale (at2 (colors tri)) (at2 (barycentrics h))).

(** The body of the pixel loop. *)
Definition pixel_step (tri : Triangle) (x y : N) : M unit :=
  h ← lift (intersect tri x y);
  if covered h then setPixel x y (shade tri h) else mret tt.

(** Lines 102-143. *)
Definition raster (tri : Triangle) : M unit :=
  f ← get_frame;
  for_u32 (HEIGHT f) (fun y =>
    for_u32 (WIDTH f) (fun x => pixel_step tri x y)).

(** [main], with the hard-coded frame size, fill colour and triangle as
    parameters: the frame is created, rasterized and written. *)
Definition run (width height : N) (fill : vec3) (tri : Triangle)
  : list event * option (unit * Frame) :=
  (raster tri;; writeBuffer) (Frame_new width height fill).

Definition rasterize (width height : N) (fill : vec3) (tri : Triangle)
  : list event * option (unit * Frame) :=
  raster tri (Frame_new width height fill).

(** The scene of the source. *)
Definition c032 : float := Eval vm_compute in lit_d 32 100.   (* 0.32 *)
Definition c084 : float := Eval vm_compute in lit_d 84 100.   (* 0.84 *)

Definition main_fill : vec3 := Arr3 c032 c032 c032.
Definition main_tri : Triangle :=
  {| vertices := Arr3 (Arr3 (of_Z 80) (of_Z 80) (of_Z 100))
                      (Arr3 (of_Z 160) (of_Z 800) (of_Z 100))
                      (Arr3 (of_Z 480) (of_Z 320) (of_Z 100));
     colors := Arr3 (Arr3 c084 c084 zero) (Arr3 zero c084 c084) (Arr3 c084 zero c084) |}.

Definition main : list event * option (unit * Frame) :=
  run 1024 1024 main_fill main_tri.

(** ** Specification-side definitions *)

(** [i, i+1, ..., i+n-1] *)
Fixpoint Nseq (i : N) (n : nat) : list N :=
  match n with
  | O => []
  | S k => i :: Nseq (N.succ i) k
  end.

(** The events and the frame update of one pixel, as pure functions. *)
Definition set_cell (f : Frame) (i : nat) (c : vec3) : Frame :=
  {| WIDTH := WIDTH f; HEIGHT := HEIGHT f; buffer := <[i := c]> (buffer f) |}.

Definition cell (width x y : N) : nat := N.to_nat (flat_index width x y).

Definition step_events (tri : Triangle) (x y : N) : list event :=
  snd (intersect tri x y) ++
  (if covered (hit tri x y) then [EvSet x y (shade tri (hit tri x y))] else []).

Definition step_frame (tri : Triangle) (x y : N) (f : Frame) : Frame :=
  if covered (hit tri x y)
  then set_cell f (cell (WIDTH f) x y) (shade tri (hit tri x y))
  else f.

(** The pixels in the order of the raster loop: rows upward, each row left
    to right. *)
Definition row_pixels (width : N) (y : N) : list (N * N) :=
  map (fun x => (x, y)) (Nseq 0 (N.to_nat width)).
Definition pixels (width height : N) : list (N * N) :=
  flat_map (row_pixels width) (Nseq 0 (N.to_nat height)).

Definition raster_events (tri : Triangle) (width height : N) : list event :=
  flat_map (fun p => step_events tri (fst p) (snd p)) (pixels width height).

Definition raster_frame (tri : Triangle) (f : Frame) : Frame :=
  foldl (fun g p => step_frame tri (fst p) (snd p) g) f (pixels (WIDTH f) (HEIGHT f)).

(** A frame that is a [width] x [height] grid: the dimensions, and one
    stored cell per pixel. *)
Definition frame_inv (width height : N) (g : Frame) : Prop :=
  WIDTH g = width /\ HEIGHT g = height
  /\ length (buffer g) = N.to_nat (width * height).

(** A pixel access that stays inside the frame and inside its storage. *)
Definition in_frame (width height : N) (e : event) : Prop :=
  match e with
  | EvSet x y _ | EvGet x y => (x < width)%N /\ (y < height)%N
  | _ => True
  end.

Definition access_in_bounds (f : Frame) (e : event) : Prop :=
  match e with
  | EvSet x y _ | EvGet x y =>
      (x < WIDTH f)%N /\ (y < HEIGHT f)%N
      /\ flat_index (WIDTH f) x y = (x + y * WIDTH f)%N
      /\ (cell (WIDTH f) x y < length (buffer f))%nat
  | _ => True
  end.

(** What holds of the result and of the frame whenever a computation
    returns. *)
Definition returns {A : Type} (m : M A) (f : Frame) (Q : A -> Frame -> Prop) : Prop :=
  match snd (m f) with
  | Some (a, g) => Q a g
  | None => True
  end.

(** The events of reading and of output, and those of the raster loop. *)
Definition read_or_out (e : event) : Prop :=
  match e with EvGet _ _ | EvOut _ => True | _ => False end.
Definition div_or_set (e : event) : Prop :=
  match e with EvDiv _ _ | EvSet _ _ _ => True | _ => False end.

(** The coordinates of the [setPixel] calls and of the [getPixel] calls of
    a log, in order, and the number of its divisions. *)
Fixpoint writes (l : list event) : list (N * N) :=
  match l with
  | [] => []
  | EvSet x y _ :: l' => (x, y) :: writes l'
  | _ :: l' => writes l'
  end.
Fixpoint reads (l : list event) : list (N * N) :=
  match l with
  | [] => []
  | EvGet x y :: l' => (x, y) :: reads l'
  | _ :: l' => reads l'
  end.
Fixpoint divisions (l : list event) : nat :=
  match l with
  | [] => 0
  | EvDiv _ _ :: l' => S (divisions l')
  | _ :: l' => divisions l'
  end.

(** The coverage test in the words of the specification: the determinant
    above the threshold, every weight at least [-eps2], the ray parameter
    above [0.1]. *)
Definition spec_covered (h : Hit) : bool :=
  ltb eps1 (hit_a h)
  && leb (neg eps2) (at0 (barycentrics h))
  && leb (neg eps2) (at1 (barycentrics h))
  && leb (neg eps2) (at2 (barycentrics h))
  && ltb tenth (hit_d h).

Definition hit_has_nan (h : Hit) : bool :=
  is_nan (hit_a h) || is_nan (hit_d h) || is_nan (at0 (barycentrics h))
  || is_nan (at1 (barycentrics h)) || is_nan (at2 (barycentrics h)).

(** The image text in the words of the specification: a header line, then
    one line per pixel, rows from [height - 1] down to [0], each row left to
    right, every channel the stored component times 255 truncated toward
    zero. *)
Definition channel (c : float) : Z := default 0 (trunc (mul c (of_Z 255))).

Definition ppm_pixel (c : vec3) : string :=
  pretty (channel (at0 c)) +:+ " " +:+ pretty (channel (at1 c)) +:+ " "
  +:+ pretty (channel (at2 c)) +:+ endl.

Definition ppm_header (width height : N) : string :=
  "P3 " +:+ pretty width +:+ " " +:+ pretty height +:+ " 255" +:+ endl.

Definition scan_order (width height : N) : list (N * N) :=
  flat_map (row_pixels width) (rev (Nseq 0 (N.to_nat height))).

Definition pixel_at (f : Frame) (p : N * N) : vec3 :=
  match buffer f !! cell (WIDTH f) (fst p) (snd p) with
  | Some c => c
  | None => Arr3 zero zero zero
  end.

Definition join (l : list string) : string := foldr String.append "" l.

Definition ppm_text (f : Frame) : string :=
  ppm_header (WIDTH f) (HEIGHT f)
  +:+ join (map (fun p => ppm_pixel (pixel_at f p)) (scan_order (WIDTH f) (HEIGHT f))).

(** The colour of pixel [p] in the image the program writes: the shade of
    a covered pixel, the fill colour elsewhere. *)
Definition image_pixel (fill : vec3) (tri : Triangle) (p : N * N) : vec3 :=
  if covered (hit tri (fst p) (snd p)) then shade tri (hit tri (fst p) (snd p)) else fill.

(** The events of the export: those of the header and those of one pixel. *)
Definition header_events (width height : N) : list event :=
  [EvOut "P3 "; EvOut (pretty width); EvOut " "; EvOut (pretty height);
   EvOut " 255"; EvOut endl].
Definition channel_events (x y : N) (c : float) (sep : string) : list event :=
  [EvGet x y; EvOut (pretty (channel c)); EvOut sep].
Definition pixel_events (x y : N) (c : vec3) : list event :=
  channel_events x y (at0 c) " " ++ channel_events x y (at1 c) " "
  ++ channel_events x y (at2 c) endl.

(** A colour whose three channels can be cast to [int]. *)
Definition castable (c : float) : bool :=
  match to_int (mul c (of_Z 255)) with Some _ => true | None => false end.
Definition exportable (c : vec3) : bool :=
  castable (at0 c) && castable (at1 c) && castable (at2 c).

(** Two floats that denote the same number: equal, or zeros of either
    sign. *)
Definition same_number (x y : float) : bool :=
  match x, y with
  | S754_zero _, S754_zero _ => true
  | S754_infinity s, S754_infinity s' => Bool.eqb s s'
  | S754_nan, S754_nan => true
  | S754_finite s m e, S754_finite s' m' e' =>
      Bool.eqb s s' && (m =? m')%positive && (e =? e')
  | _, _ => false
  end.

(** Two vectors that denote the same numbers. *)
Definition vsame (a b : vec3) : bool :=
  same_number (at0 a) (at0 b) && same_number (at1 a) (at1 b)
  && same_number (at2 a) (at2 b).

(** A vector of well-formed binary32 data, and a finite float other than
    zero. *)
Definition vvalid (v : vec3) : bool := valid (at0 v) && valid (at1 v) && valid (at2 v).
Definition finite_nonzero (x : float) : bool :=
  match x with S754_finite _ _ _ => true | _ => false end.

(** The two edge vectors of the triangle (lines 111-112). *)
Definition edge_u (tri : Triangle) : vec3 :=
  vsub (at1 (vertices tri)) (at0 (vertices tri)).
Definition edge_v (tri : Triangle) : vec3 :=
  vsub (at2 (vertices tri)) (at0 (vertices tri)).

(** The same triangle with the opposite winding: vertices 1 and 2 (and
    their colours) exchanged. *)
Definition swap_winding (tri : Triangle) : Triangle :=
  {| vertices := Arr3 (at0 (vertices tri)) (at2 (vertices tri)) (at1 (vertices tri));
     colors := Arr3 (at0 (colors tri)) (at2 (colors tri)) (at1 (colors tri)) |}.

(** A finite binary32 number, and a vector of such. *)
Definition fin32 (x : float) : bool := is_finite x && valid x.
Definition vfinite (v : vec3) : bool := fin32 (at0 v) && fin32 (at1 v) && fin32 (at2 v).

(** The edge vectors did not overflow, and neither did the two products of
    the determinant. *)
Definition edges_regular (tri : Triangle) : bool :=
  vfinite (edge_u tri) && vfinite (edge_v tri)
  && is_finite (mul (at0 (edge_u tri)) (at1 (edge_v tri)))
  && is_finite (mul (at1 (edge_u tri)) (at0 (edge_v tri))).

(** Twice the area of the projection of the triangle on the view plane,
    computed exactly; [None] when a coordinate is not finite. *)
Definition projected_area2 (tri : Triangle) : option Q :=
  x0 ← to_Q (at0 (at0 (vertices tri)));
  y0 ← to_Q (at1 (at0 (vertices tri)));
  x1 ← to_Q (at0 (at1 (vertices tri)));
  y1 ← to_Q (at1 (at1 (vertices tri)));
  x2 ← to_Q (at0 (at2 (vertices tri)));
  y2 ← to_Q (at1 (at2 (vertices tri)));
  Some ((x1 - x0) * (y2 - y0) - (x2 - x0) * (y1 - y0))%Q.



(** The arithmetic is evaluated on concrete inputs only, never by [simpl]. *)
Arguments F32.add : simpl never.
Arguments F32.sub : simpl never.
Arguments F32.mul : simpl never.
Arguments F32.div : simpl never.
Arguments F32.ltb : simpl never.
Arguments F32.leb : simpl never.
Arguments F32.of_Z : simpl never.
Arguments intersect : simpl never.
Arguments hit : simpl never.
Arguments covered : simpl never.
Arguments shade : simpl never.
Arguments step_events : simpl never.
Arguments step_frame : simpl never.
Arguments flat_index : simpl never.
Arguments cell : simpl never.

(** ** Concrete inputs used by the examples below *)

Definition vec_of_Z (a b c : Z) : vec3 := Arr3 (of_Z a) (of_Z b) (of_Z c).

Definition black : vec3 := Arr3 zero zero zero.
Definition red : vec3 := Arr3 one zero zero.
Definition green : vec3 := Arr3 zero one zero.
Definition blue : vec3 := Arr3 zero zero one.

(** The largest finite float, [FLT_MAX]. *)
Definition flt_max : float := S754_finite false 16777215 104.

(** A counter-clockwise triangle in the plane [z = 1] covering the pixels
    [(0,0)], [(1,0)], [(0,1)], [(1,1)], [(2,0)] ... of its lower-left half. *)
Definition tri_front : Triangle :=
  {| vertices := Arr3 (vec_of_Z 0 0 1) (vec_of_Z 0 3 1) (vec_of_Z 3 0 1);
     colors := Arr3 red green blue |}.

(** The scenario of the specification: [(0,0,0)], [(3,0,0)], [(0,3,0)]. *)
Definition tri_spec : Triangle :=
  {| vertices := Arr3 (vec_of_Z 0 0 0) (vec_of_Z 3 0 0) (vec_of_Z 0 3 0);
     colors := Arr3 red green blue |}.

(** All three vertices equal. *)
Definition tri_point : Triangle :=
  {| vertices := Arr3 (vec_of_Z 1 1 1) (vec_of_Z 1 1 1) (vec_of_Z 1 1 1);
     colors := Arr3 red green blue |}.

(** Finite vertices whose edge [vertex1 - vertex0] overflows. *)
Definition tri_overflow : Triangle :=
  {| vertices := Arr3 (Arr3 (neg flt_max) zero zero) (Arr3 flt_max zero zero)
                      (vec_of_Z 0 0 1);
     colors := Arr3 red green blue |}.

(** A vertex with a NaN coordinate. *)
Definition tri_nan : Triangle :=
  {| vertices := Arr3 (Arr3 S754_nan zero one) (vec_of_Z 0 3 1) (vec_of_Z 3 0 1);
     colors := Arr3 red green blue |}.

(** A frame taller than [INT_MAX] rows, one pixel wide. *)
Definition tall_frame : Frame := Frame_new 1 2147483649 black.

(** A colour with components just outside and far outside [0,1]:
    [-0.001f], [1.001f] and [2.0f]. *)
Definition off_colour : vec3 := Arr3 (neg (lit_f 1 1000)) (lit_f 1001 1000) (of_Z 2).

(** Three distinct collinear points, [(1,0)], [(2^24+2, 1)] and
    [(3*2^24+4, 3)], in the plane [z = 100]. *)
Definition tri_collinear : Triangle :=
  {| vertices := Arr3 (vec_of_Z 1 0 100) (vec_of_Z 16777218 1 100)
                      (vec_of_Z 50331652 3 100);
     colors := Arr3 red green blue |}.

(** Two identical vertices, and an edge to the third that overflows. *)
Definition tri_twin_overflow : Triangle :=
  {| vertices := Arr3 (Arr3 (neg flt_max) zero one) (Arr3 (neg flt_max) zero one)
                      (Arr3 flt_max zero (of_Z 2));
     colors := Arr3 red green blue |}.

(** Two identical vertices in a small triangle. *)
Definition tri_twin : Triangle :=
  {| vertices := Arr3 (vec_of_Z 0 0 1) (vec_of_Z 3 1 1) (vec_of_Z 3 1 1);
     colors := Arr3 red green blue |}.

(** [tri_front] with its left edge moved from [x = 0] to [x = 2^-40]. *)
Definition tiny : float := S754_finite false 8388608 (-63).   (* 2^-40 *)
(** ** The monad: running a computation *)

Lemma run_bind {A B : Type} (m : M A) (k : A -> M B) (f : Frame) :
  (m ≫= k) f =
  match m f with
  | (l1, Some (a, f1)) => let '(l2, r) := k a f1 in (l1 ++ l2, r)
  | (l1, None) => (l1, None)
  end.
Proof. reflexivity. Qed.

Lemma run_bind_ok {A B : Type} (m : M A) (k : A -> M B) f l1 a f1 :
  m f = (l1, Some (a, f1)) ->
  (m ≫= k) f = (l1 ++ fst (k a f1), snd (k a f1)).
Proof. intros E. rewrite run_bind, E. destruct (k a f1); reflexivity. Qed.

Lemma run_bind_log {A B : Type} (P : event -> Prop) (m : M A) (k : A -> M B) f :
  Forall P (fst (m f)) ->
  (forall a f1, Forall P (fst (k a f1))) ->
  Forall P (fst ((m ≫= k) f)).
Proof.
  intros Hm Hk. rewrite run_bind.
  destruct (m f) as [l1 [[a f1]|]]; simpl in *; [|exact Hm].
  specialize (Hk a f1). destruct (k a f1) as [l2 r]; simpl in *.
  apply Forall_app; split; assumption.
Qed.

(** ** Loops *)

Lemma Nseq_In i n j : In j (Nseq i n) <-> (i <= j < i + N.of_nat n)%N.
Proof.
  revert i; induction n as [|n IH]; intros i; simpl.
  - lia.
  - rewrite IH. lia.
Qed.

Lemma Nseq_NoDup i n : List.NoDup (Nseq i n).
Proof.
  revert i; induction n as [|n IH]; intros i; simpl; constructor.
  - rewrite Nseq_In. lia.
  - apply IH.
Qed.

Lemma Nseq_snoc i n : Nseq i (S n) = Nseq i n ++ [(i + N.of_nat n)%N].
Proof.
  revert i; induction n as [|n IH]; intros i.
  - simpl. f_equal. lia.
  - change (Nseq i (S (S n))) with (i :: Nseq (N.succ i) (S n)).
    rewrite IH. simpl. do 3 f_equal. lia.
Qed.

(** Every event of a loop is an event of one of its iterations. *)
Lemma for_up_log (P : event -> Prop) n i body f :
  (forall j g, (i <= j < i + N.of_nat n)%N -> Forall P (fst (body j g))) ->
  Forall P (fst (for_up n i body f)).
Proof.
  revert i f; induction n as [|n IH]; intros i f Hb; simpl.
  - constructor.
  - apply run_bind_log.
    + apply Hb. lia.
    + intros _ f1. apply IH. intros j g Hj. apply Hb. lia.
Qed.

(** A loop whose iterations all return runs them in order. *)
Lemma for_up_run (I : Frame -> Prop) (ev : N -> list event) (upd : N -> Frame -> Frame)
      n i body f :
  I f ->
  (forall j g, (i <= j < i + N.of_nat n)%N -> I g ->
               body j g = (ev j, Some (tt, upd j g)) /\ I (upd j g)) ->
  for_up n i body f =
    (flat_map ev (Nseq i n), Some (tt, foldl (fun g j => upd j g) f (Nseq i n)))
  /\ I (foldl (fun g j => upd j g) f (Nseq i n)).
Proof.
  revert i f; induction n as [|n IH]; intros i f Hf Hb; simpl.
  - split; [reflexivity|assumption].
  - destruct (Hb i f) as [E HI]; [lia|assumption|].
    destruct (IH (N.succ i) (upd i f)) as [E' HI']; [assumption| |].
    + intros j g Hj. apply Hb. lia.
    + split; [|exact HI'].
      rewrite (run_bind_ok _ _ _ _ _ _ E), E'. reflexivity.
Qed.

(** ** Comparisons of floats *)

Lemma SFcompare_nan x y :
  SFcompare x y = None <-> is_nan x = true \/ is_nan y = true.
Proof.
  destruct x as [sx|sx| |sx mx ex], y as [sy|sy| |sy my ey]; simpl;
    try destruct sx; try destruct sy; simpl; intuition discriminate.
Qed.

Lemma SFcompare_antisym x y c :
  SFcompare x y = Some c -> SFcompare y x = Some (CompOpp c).
Proof.
  destruct x as [sx|sx| |sx mx ex], y as [sy|sy| |sy my ey]; simpl;
    try discriminate;
    try (destruct sx; try destruct sy; intros [= <-]; reflexivity);
    try (destruct sy; intros [= <-]; reflexivity).
  intros [= <-]. f_equal.
  rewrite (Z.compare_antisym ex ey).
  change (Pos.compare_cont Eq my mx) with (Pos.compare my mx).
  change (Pos.compare_cont Eq mx my) with (Pos.compare mx my).
  rewrite (Pos.compare_antisym mx my).
  destruct sx, sy; try reflexivity;
    destruct (ex ?= ey); simpl; try reflexivity;
    destruct (mx ?= my)%positive; reflexivity.
Qed.

(** Without NaN, [x <= y] fails exactly when [y < x] holds. *)
Lemma leb_negb_ltb x y :
  is_nan x = false -> is_nan y = false -> negb (leb x y) = ltb y x.
Proof.
  intros Hx Hy. unfold leb, ltb, SFleb, SFltb.
  destruct (SFcompare x y) as [c|] eqn:E.
  - rewrite (SFcompare_antisym _ _ _ E). now destruct c.
  - apply SFcompare_nan in E as [E|E]; congruence.
Qed.

Lemma ltb_negb_leb x y :
  is_nan x = false -> is_nan y = false -> negb (ltb x y) = leb y x.
Proof.
  intros Hx Hy. unfold leb, ltb, SFleb, SFltb.
  destruct (SFcompare x y) as [c|] eqn:E.
  - rewrite (SFcompare_antisym _ _ _ E). now destruct c.
  - apply SFcompare_nan in E as [E|E]; congruence.
Qed.

Lemma leb_zero_eps1 x : is_zero x = true -> leb x eps1 = true.
Proof. destruct x; try discriminate. reflexivity. Qed.

(** ** Exact cases of the binary32 operations *)

Lemma sub_self x : is_finite (sub x x) = true -> sub x x = zero.
Proof.
  destruct x as [s|s| |s m e]; cbn.
  - destruct s; reflexivity.
  - destruct s; discriminate.
  - discriminate.
  - intros _. unfold sub, SFsub.
    rewrite Z.sub_diag. reflexivity.
Qed.

Lemma mul_zero_l s y : is_finite y = true -> is_zero (mul (S754_zero s) y) = true.
Proof. destruct y; try discriminate; reflexivity. Qed.

Lemma mul_zero_r x s : is_finite x = true -> is_zero (mul x (S754_zero s)) = true.
Proof. destruct x; try discriminate; reflexivity. Qed.

Lemma add_zeros x y : is_zero x = true -> is_zero y = true -> is_zero (add x y) = true.
Proof.
  destruct x as [sx| | |]; try discriminate. destruct y as [sy| | |]; try discriminate.
  destruct sx, sy; reflexivity.
Qed.

Lemma sub_zeros x y : is_zero x = true -> is_zero y = true -> is_zero (sub x y) = true.
Proof.
  destruct x as [sx| | |]; try discriminate. destruct y as [sy| | |]; try discriminate.
  destruct sx, sy; reflexivity.
Qed.

Lemma zero_is_finite x : is_zero x = true -> is_finite x = true.
Proof. destruct x; try discriminate; reflexivity. Qed.

(** A finite float minus a zero, and a zero minus a finite float. *)
Lemma sub_zero_r x y :
  is_finite x = true -> is_zero x = false -> is_zero y = true -> sub x y = x.
Proof.
  destruct x; try discriminate. destruct y; try discriminate. reflexivity.
Qed.

Lemma sub_zero_l x y :
  is_zero x = true -> is_finite y = true -> is_zero y = false -> sub x y = neg y.
Proof.
  destruct x; try discriminate. destruct y; try discriminate. reflexivity.
Qed.

(** The sign of a product. *)
Lemma binary_round_aux_opp s m e l :
  binary_round_aux prec emax (negb s) m e l = SFopp (binary_round_aux prec emax s m e l).
Proof.
  unfold binary_round_aux.
  destruct (shr_fexp prec emax m e l) as [mrs' e'].
  destruct (shr_fexp prec emax _ e' loc_Exact) as [mrs'' e''].
  destruct (shr_m mrs''); try reflexivity.
  destruct (e'' <=? emax - prec); reflexivity.
Qed.

Lemma mul_neg_r x y : mul x (neg y) = neg (mul x y).
Proof.
  destruct x as [sx|sx| |sx mx ex], y as [sy|sy| |sy my ey];
    unfold mul, neg; cbn [SFmul SFopp];
    try reflexivity; try (destruct sx, sy; reflexivity).
  rewrite <- binary_round_aux_opp.
  f_equal. destruct sx, sy; reflexivity.
Qed.

Lemma mul_comm x y : mul x y = mul y x.
Proof.
  destruct x as [sx|sx| |sx mx ex], y as [sy|sy| |sy my ey];
    unfold mul; cbn [SFmul];
    try reflexivity; try (destruct sx, sy; reflexivity).
  now rewrite xorb_comm, Pos.mul_comm, Z.add_comm.
Qed.

Lemma add_neg_self p : is_finite p = true -> is_zero (add (neg p) p) = true.
Proof.
  destruct p as [s|s| |s m e]; try discriminate; intros _.
  - destruct s; reflexivity.
  - unfold add, neg, SFopp, SFadd.
    rewrite Z.min_id. unfold shl_align. rewrite Z.sub_diag. cbn [fst].
    replace (cond_Zopp (negb s) (Z.pos m) + cond_Zopp s (Z.pos m)) with 0
      by (destruct s; cbn; lia).
    reflexivity.
Qed.

(** Multiplication by [1.0f] is exact. *)
Lemma digits2_pos_xO m : Z.pos (digits2_pos m~0) = Z.pos (digits2_pos m) + 1.
Proof. cbn [digits2_pos]. change PosDef.Pos.succ with Pos.succ. lia. Qed.

Lemma digits2_pos_xO23 m :
  Z.pos (digits2_pos (8388608 * m)) = Z.pos (digits2_pos m) + 23.
Proof.
  change (8388608 * m)%positive
    with (m~0~0~0~0~0~0~0~0~0~0~0~0~0~0~0~0~0~0~0~0~0~0~0)%positive.
  rewrite !digits2_pos_xO. lia.
Qed.

Lemma iter_shr_1_xO23 m :
  SpecFloat.iter_pos shr_1 23 {| shr_m := Z.pos (8388608 * m); shr_r := false; shr_s := false |}
  = {| shr_m := Z.pos m; shr_r := false; shr_s := false |}.
Proof. reflexivity. Qed.

Lemma mul_one_l x : is_finite x = true -> valid x = true -> mul one x = x.
Proof.
  destruct x as [s| | |s m e]; try discriminate; intros _ Hv.
  - reflexivity.
  - unfold valid, valid_binary, bounded, canonical_mantissa in Hv.
    apply andb_true_iff in Hv as [Hc He].
    apply Z.eqb_eq in Hc.
    unfold mul, one, SFmul. cbn [xorb].
    unfold binary_round_aux, shr_fexp.
    cbn [Zdigits2]. rewrite digits2_pos_xO23.
    replace (Z.pos (digits2_pos m) + 23 + (-23 + e)) with (Z.pos (digits2_pos m) + e) by lia.
    rewrite Hc.
    replace (e - (-23 + e)) with 23 by lia.
    cbn [shr_record_of_loc shr]. rewrite iter_shr_1_xO23.
    cbn [shr_m loc_of_shr_record round_nearest_even Zdigits2 shr_record_of_loc].
    replace (-23 + e + 23) with e by lia.
    rewrite Hc, Z.sub_diag. cbn [shr shr_m]. rewrite He. reflexivity.
Qed.

Lemma mul_is_zero_l x y :
  is_zero x = true -> is_finite y = true -> is_zero (mul x y) = true.
Proof. destruct x; try discriminate. intros _. apply mul_zero_l. Qed.

Lemma mul_is_zero_r x y :
  is_finite x = true -> is_zero y = true -> is_zero (mul x y) = true.
Proof. intros Hx. destruct y; try discriminate. intros _. now apply mul_zero_r. Qed.

Lemma neg_is_finite x : is_finite (neg x) = is_finite x.
Proof. now destruct x. Qed.

(** ** Rounding to nearest: the error of one rounding

    [binary_round_aux] shifts the mantissa right until the exponent is the
    one of the format, keeping a round bit and a sticky bit, and rounds to
    nearest even.  The lemmas below bound the distance between the integer
    that is shifted and the rounded mantissa. *)

Lemma iter_pos_nat {A : Type} (f : A -> A) (p : positive) (x : A) :
  SpecFloat.iter_pos f p x = Nat.iter (Pos.to_nat p) f x.
Proof.
  revert x; induction p as [p IH|p IH|]; intros x; cbn [SpecFloat.iter_pos].
  - rewrite !IH, Pos2Nat.inj_xI.
    replace (S (2 * Pos.to_nat p)) with (Pos.to_nat p + S (Pos.to_nat p))%nat by lia.
    rewrite Nat.iter_add. f_equal. now rewrite Nat.iter_succ_r.
  - rewrite !IH, Pos2Nat.inj_xO.
    replace (2 * Pos.to_nat p)%nat with (Pos.to_nat p + Pos.to_nat p)%nat by lia.
    now rewrite Nat.iter_add.
  - reflexivity.
Qed.

Lemma shr_1_nonneg m r s :
  0 <= m ->
  shr_1 {| shr_m := m; shr_r := r; shr_s := s |}
  = {| shr_m := m / 2; shr_r := Z.odd m; shr_s := r || s |}.
Proof.
  intros Hm. destruct m as [|p|p]; [reflexivity| |lia].
  destruct p as [p|p|]; cbn [shr_1].
  - f_equal. rewrite Pos2Z.inj_xI.
    apply (Z.div_unique _ _ _ 1); lia.
  - f_equal. rewrite Pos2Z.inj_xO.
    apply (Z.div_unique _ _ _ 0); lia.
  - reflexivity.
Qed.

Lemma mod_pow2_succ m k :
  0 <= k -> m mod 2 ^ (k + 1) = m mod 2 ^ k + 2 ^ k * Z.b2z (Z.testbit m k).
Proof.
  intros Hk. rewrite Z.pow_add_r, Z.pow_1_r by lia.
  rewrite Z.rem_mul_r by lia. do 2 f_equal.
  rewrite Z.testbit_odd, Z.shiftr_div_pow2 by lia.
  rewrite <- Z.bit0_odd. symmetry. apply Z.bit0_mod.
Qed.

(** After [k + 1] shifts: the quotient, the last bit shifted out, and
    whether anything below it was non-zero. *)
Lemma shr_iter m k :
  0 <= m ->
  Nat.iter (S k) shr_1 {| shr_m := m; shr_r := false; shr_s := false |}
  = {| shr_m := m / 2 ^ (Z.of_nat k + 1);
       shr_r := Z.testbit m (Z.of_nat k);
       shr_s := negb (m mod 2 ^ Z.of_nat k =? 0) |}.
Proof.
  intros Hm. induction k as [|k IH].
  - cbn [Nat.iter]. rewrite shr_1_nonneg by assumption.
    cbn [Z.of_nat Z.add Z.pow Z.pow_pos Pos.iter Z.mul Pos.mul orb].
    rewrite Z.mod_1_r. cbn [Z.eqb negb]. f_equal.
  - change (Nat.iter (S (S k)) shr_1 ?x) with (shr_1 (Nat.iter (S k) shr_1 x)).
    rewrite IH. rewrite shr_1_nonneg by (apply Z.div_pos; lia).
    rewrite Nat2Z.inj_succ.
    f_equal.
    + rewrite Z.div_div by lia. f_equal.
      replace (Z.succ (Z.of_nat k) + 1) with (Z.of_nat k + 1 + 1) by lia.
      now rewrite (Z.pow_add_r _ (Z.of_nat k + 1) 1), Z.pow_1_r by lia.
    + rewrite Z.testbit_odd, Z.shiftr_div_pow2 by lia. do 2 f_equal; lia.
    + replace (Z.succ (Z.of_nat k)) with (Z.of_nat k + 1) by lia.
      rewrite mod_pow2_succ by lia.
      pose proof (Z.mod_pos_bound m (2 ^ Z.of_nat k) ltac:(lia)) as Hb.
      assert (0 < 2 ^ Z.of_nat k) by lia.
      destruct (Z.testbit m (Z.of_nat k)); cbn [Z.b2z orb].
      * destruct (Z.eqb_spec (m mod 2 ^ Z.of_nat k + 2 ^ Z.of_nat k * 1) 0); [lia|reflexivity].
      * now rewrite Z.mul_0_r, Z.add_0_r.
Qed.

(** The rounded mantissa after a shift by [n >= 1] bits is within half a
    unit of the exact quotient. *)
Lemma round_shifted m n :
  0 <= m -> 1 <= n ->
  let mrs := Nat.iter (Z.to_nat n) shr_1 {| shr_m := m; shr_r := false; shr_s := false |} in
  let m'' := round_nearest_even (shr_m mrs) (loc_of_shr_record mrs) in
  2 * Z.abs (m'' * 2 ^ n - m) <= 2 ^ n
  /\ m / 2 ^ n <= m'' <= m / 2 ^ n + 1.
Proof.
  intros Hm Hn.
  replace (Z.to_nat n) with (S (Z.to_nat (n - 1))) by lia.
  rewrite shr_iter by assumption.
  rewrite Z2Nat.id by lia.
  replace (n - 1 + 1) with n by lia.
  cbn zeta. cbn [shr_m].
  assert (Hp : 0 < 2 ^ (n - 1)) by (apply Z.pow_pos_nonneg; lia).
  assert (E2 : 2 ^ n = 2 * 2 ^ (n - 1)).
  { replace n with (n - 1 + 1) at 1 by lia. rewrite Z.pow_add_r, Z.pow_1_r by lia. lia. }
  pose proof (mod_pow2_succ m (n - 1) ltac:(lia)) as Em.
  replace (n - 1 + 1) with n in Em by lia.
  pose proof (Z.div_mod m (2 ^ n) ltac:(lia)) as Ed.
  pose proof (Z.mod_pos_bound m (2 ^ (n - 1)) Hp) as Hb.
  set (q := m / 2 ^ n) in *. set (t := m mod 2 ^ (n - 1)) in *.
  set (P := 2 ^ (n - 1)) in *.
  assert (Eq2 : 2 ^ n * q = 2 * (P * q)) by lia.
  destruct (Z.testbit m (n - 1)); destruct (Z.eqb_spec t 0) as [Et|Et];
    cbn [negb loc_of_shr_record round_nearest_even Z.b2z] in *.
  - destruct (Z.even q); split; try lia.
  - split; lia.
  - split; lia.
  - split; lia.
Qed.

(** The number of binary digits. *)
Lemma digits2_pos_bounds p :
  2 ^ (Z.pos (digits2_pos p) - 1) <= Z.pos p < 2 ^ Z.pos (digits2_pos p).
Proof.
  induction p as [p IH|p IH|]; cbn [digits2_pos];
    change PosDef.Pos.succ with Pos.succ; rewrite ?Pos2Z.inj_succ.
  - replace (Z.succ (Z.pos (digits2_pos p)) - 1) with (Z.pos (digits2_pos p) - 1 + 1) by lia.
    rewrite Z.pow_succ_r, Z.pow_add_r, Z.pow_1_r by lia. lia.
  - replace (Z.succ (Z.pos (digits2_pos p)) - 1) with (Z.pos (digits2_pos p) - 1 + 1) by lia.
    rewrite Z.pow_succ_r, Z.pow_add_r, Z.pow_1_r by lia. lia.
  - cbn. lia.
Qed.

Lemma Zdigits2_le m k : 0 <= m < 2 ^ k -> 0 <= k -> Zdigits2 m <= k.
Proof.
  intros [Hm Hlt] Hk. destruct m as [|p|p]; [exact Hk| |lia].
  cbn [Zdigits2]. destruct (digits2_pos_bounds p) as [Hlo _].
  destruct (Z.le_gt_cases (Z.pos (digits2_pos p)) k) as [|Hgt]; [assumption|].
  assert (2 ^ k <= 2 ^ (Z.pos (digits2_pos p) - 1)) by (apply Z.pow_le_mono_r; lia).
  lia.
Qed.

Lemma Zdigits2_gt m k : 2 ^ k <= m -> 0 <= k -> k < Zdigits2 m.
Proof.
  intros Hm Hk. assert (0 < 2 ^ k) by (apply Z.pow_pos_nonneg; lia).
  destruct m as [|p|p]; [lia| |lia].
  cbn [Zdigits2]. destruct (digits2_pos_bounds p) as [_ Hhi].
  destruct (Z.lt_ge_cases k (Z.pos (digits2_pos p))) as [|Hge]; [assumption|].
  assert (2 ^ Z.pos (digits2_pos p) <= 2 ^ k) by (apply Z.pow_le_mono_r; lia).
  lia.
Qed.

Lemma fexp_eq x : fexp prec emax x = Z.max (x - 24) (-149).
Proof. reflexivity. Qed.

(** One call of [shr_fexp] on an exactly known mantissa. *)
Lemma shr_fexp_exact m e :
  0 <= m ->
  shr_fexp prec emax m e loc_Exact
  = if 0 <? fexp prec emax (Zdigits2 m + e) - e
    then (Nat.iter (Z.to_nat (fexp prec emax (Zdigits2 m + e) - e)) shr_1
            {| shr_m := m; shr_r := false; shr_s := false |},
          fexp prec emax (Zdigits2 m + e))
    else ({| shr_m := m; shr_r := false; shr_s := false |}, e).
Proof.
  intros Hm. unfold shr_fexp, shr. cbn [shr_record_of_loc].
  destruct (fexp prec emax (Zdigits2 m + e) - e) as [|p|p] eqn:En; try reflexivity.
  change (0 <? Z.pos p) with true. cbn iota.
  rewrite iter_pos_nat. f_equal. lia.
Qed.

(** What [binary_round_aux] returns on an exact positive mantissa [mz] at
    exponent [ez], when the result is finite: a mantissa [m''] at the
    exponent [E] of the format -- either nothing was shifted out, or [m'']
    is within half a unit of the exact quotient -- stored as a zero or as a
    finite float of the same value. *)
Lemma binary_round_aux_spec s mz ez :
  let r := binary_round_aux prec emax s (Z.pos mz) ez loc_Exact in
  is_finite r = true ->
  exists m'' E,
    0 <= m''
    /\ ((E = ez /\ m'' = Z.pos mz)
        \/ (ez < E /\ E = fexp prec emax (Z.pos (digits2_pos mz) + ez)
            /\ 2 * Z.abs (m'' * 2 ^ (E - ez) - Z.pos mz) <= 2 ^ (E - ez)))
    /\ ((m'' = 0 /\ r = S754_zero s)
        \/ exists mf ef, r = S754_finite s mf ef /\ E <= ef
                         /\ Z.pos mf * 2 ^ (ef - E) = m'').
Proof.
  cbn zeta. unfold binary_round_aux.
  rewrite shr_fexp_exact by lia. cbn [Zdigits2].
  set (d := Z.pos (digits2_pos mz)).
  destruct (digits2_pos_bounds mz) as [Hlo Hhi]. fold d in Hlo, Hhi.
  assert (Hd : 1 <= d) by (unfold d; lia).
  destruct (Z.ltb_spec 0 (fexp prec emax (d + ez) - ez)) as [Hn|Hn].
  - (* something is shifted out *)
    set (E := fexp prec emax (d + ez)) in *.
    set (n := E - ez) in *.
    destruct (round_shifted (Z.pos mz) n ltac:(lia) ltac:(lia)) as [Herr Hq].
    cbn zeta in Herr, Hq.
    set (mrs := Nat.iter (Z.to_nat n) shr_1
                  {| shr_m := Z.pos mz; shr_r := false; shr_s := false |}) in *.
    set (m'' := round_nearest_even (shr_m mrs) (loc_of_shr_record mrs)) in *.
    assert (Hq0 : 0 <= Z.pos mz / 2 ^ n) by (apply Z.div_pos; lia).
    assert (Hm'' : 0 <= m'') by lia.
    assert (Hpn : 0 < 2 ^ n) by (apply Z.pow_pos_nonneg; lia).
    rewrite shr_fexp_exact by assumption.
    assert (HE : E = Z.max (d + ez - 24) (-149)) by (unfold E; apply fexp_eq).
    destruct (Z.le_gt_cases (-149) (d + ez - 24)) as [Hnorm|Hsub].
    + (* the result is in the normal range *)
      assert (En : n = d - 24) by lia.
      assert (Hq23 : 2 ^ 23 <= Z.pos mz / 2 ^ n).
      { apply Z.div_le_lower_bound; [lia|].
        rewrite <- Z.pow_add_r by lia. replace (n + 23) with (d - 1) by lia. exact Hlo. }
      assert (Hq24 : Z.pos mz / 2 ^ n < 2 ^ 24).
      { apply Z.div_lt_upper_bound; [lia|].
        rewrite <- Z.pow_add_r by lia. replace (n + 24) with d by lia. exact Hhi. }
      destruct (Z.eq_dec m'' (2 ^ 24)) as [Ecarry|Hnc].
      * (* the rounding carried into a new digit *)
        rewrite Ecarry. change (Zdigits2 (2 ^ 24)) with 25.
        rewrite fexp_eq.
        destruct (Z.ltb_spec 0 (Z.max (25 + E - 24) (-149) - E)) as [_|Hc]; [|lia].
        replace (Z.max (25 + E - 24) (-149) - E) with 1 by lia.
        replace (Z.max (25 + E - 24) (-149)) with (E + 1) by lia.
        cbn [Z.to_nat Pos.to_nat Pos.iter_op Nat.iter Nat.add].
        change (shr_m (shr_1 {| shr_m := 2 ^ 24; shr_r := false; shr_s := false |}))
          with (Z.pos 8388608).
        cbn iota.
        destruct (E + 1 <=? emax - prec); [|discriminate].
        intros _. exists m'', E. split; [exact Hm''|]. split.
        -- right. fold n. repeat split; [lia|exact Herr].
        -- right. exists 8388608%positive, (E + 1). split; [reflexivity|]. split; [lia|].
           replace (E + 1 - E) with 1 by lia. rewrite Ecarry. reflexivity.
      * assert (Hd24 : Zdigits2 m'' = 24).
        { pose proof (Zdigits2_le m'' 24 ltac:(lia) ltac:(lia)).
          pose proof (Zdigits2_gt m'' 23 ltac:(lia) ltac:(lia)). lia. }
        rewrite Hd24, fexp_eq.
        destruct (Z.ltb_spec 0 (Z.max (24 + E - 24) (-149) - E)) as [Hc|_]; [lia|].
        cbn [shr_m].
        destruct m'' as [|mf|mf] eqn:Em; [lia| |lia].
        destruct (E <=? emax - prec); [|discriminate].
        intros _. exists (Z.pos mf), E. split; [lia|]. split.
        -- right. fold n. repeat split; [lia|exact Herr].
        -- right. exists mf, E. split; [reflexivity|]. split; [lia|].
           rewrite Z.sub_diag. cbn. lia.
    + (* the result is subnormal *)
      assert (EE : E = -149) by lia.
      assert (Hq23 : Z.pos mz / 2 ^ n < 2 ^ 23).
      { apply Z.div_lt_upper_bound; [lia|].
        rewrite <- Z.pow_add_r by lia.
        apply Z.lt_le_trans with (1 := Hhi). apply Z.pow_le_mono_r; lia. }
      pose proof (Zdigits2_le m'' 24 ltac:(lia) ltac:(lia)) as Hd24.
      assert (Hd0 : 0 <= Zdigits2 m'') by (destruct m''; cbn; lia).
      rewrite fexp_eq.
      destruct (Z.ltb_spec 0 (Z.max (Zdigits2 m'' + E - 24) (-149) - E)) as [Hc|_]; [lia|].
      cbn [shr_m].
      destruct m'' as [|mf|mf] eqn:Em; [| |lia].
      * intros _. exists 0, E. split; [lia|]. split.
        -- right. fold n. repeat split; [lia|exact Herr].
        -- left. split; reflexivity.
      * destruct (E <=? emax - prec); [|discriminate].
        intros _. exists (Z.pos mf), E. split; [lia|]. split.
        -- right. fold n. repeat split; [lia|exact Herr].
        -- right. exists mf, E. split; [reflexivity|]. split; [lia|].
           rewrite Z.sub_diag. cbn. lia.
  - (* nothing is shifted out *)
    cbn [shr_m loc_of_shr_record round_nearest_even].
    rewrite shr_fexp_exact by lia. cbn [Zdigits2]. fold d.
    destruct (Z.ltb_spec 0 (fexp prec emax (d + ez) - ez)) as [Hc|_]; [lia|].
    cbn [shr_m].
    destruct (ez <=? emax - prec); [|discriminate].
    intros _. exists (Z.pos mz), ez. split; [lia|]. split.
    + left. split; reflexivity.
    + right. exists mz, ez. split; [reflexivity|]. split; [lia|].
      rewrite Z.sub_diag. cbn. lia.
Qed.

(** ** The value of a rounded result *)

Section RoundValue.

Local Open Scope Q_scope.

Lemma pow2_pos e : 0 < 2 ^ e.
Proof. apply Qpower_0_lt. reflexivity. Qed.

Lemma pow2_add a b : 2 ^ (a + b) == 2 ^ a * 2 ^ b.
Proof. apply Qpower_plus. discriminate. Qed.

Lemma pow2_Z k : (0 <= k)%Z -> 2 ^ k == inject_Z (2 ^ k).
Proof. intros H. symmetry. now apply (Zpower_Qpower 2 k). Qed.

Lemma cond_Zopp_mul s a b : cond_Zopp s (a * b) = (cond_Zopp s a * b)%Z.
Proof. destruct s; cbn; lia. Qed.

Lemma Qval_shift s m k e :
  (0 <= k)%Z -> Qval s (m * 2 ^ k) e == Qval s m (e + k).
Proof.
  intros Hk. unfold Qval. rewrite cond_Zopp_mul, inject_Z_mult.
  rewrite <- pow2_Z by assumption. rewrite (Z.add_comm e k), pow2_add. ring.
Qed.

Lemma Qabs_Qval s m e : Qabs (Qval s m e) == inject_Z (Z.abs m) * 2 ^ e.
Proof.
  unfold Qval. rewrite Qabs_Qmult.
  rewrite (Qabs_pos (2 ^ e)) by (apply Qlt_le_weak, pow2_pos).
  apply Qmult_comp; [|reflexivity].
  destruct s; cbn [cond_Zopp].
  - rewrite inject_Z_opp, Qabs_opp. unfold Qabs, inject_Z. reflexivity.
  - unfold Qabs, inject_Z. reflexivity.
Qed.

Lemma Qval_minus s a b e : Qval s a e - Qval s b e == Qval s (a - b) e.
Proof.
  unfold Qval. replace (a - b)%Z with (a + - b)%Z by lia.
  destruct s; cbn [cond_Zopp].
  - rewrite !inject_Z_opp, inject_Z_plus, inject_Z_opp. ring.
  - rewrite inject_Z_plus, inject_Z_opp. ring.
Qed.

(** The distance between a mantissa [m''] at exponent [E] and the exact
    [mz] at exponent [ez <= E], from the distance of the mantissas. *)
Lemma Qval_distance s m'' mz ez E :
  (ez < E)%Z ->
  (2 * Z.abs (m'' * 2 ^ (E - ez) - mz) <= 2 ^ (E - ez))%Z ->
  Qabs (Qval s m'' E - Qval s mz ez) <= 2 ^ (E - 1).
Proof.
  intros HE Herr.
  assert (E1 : Qval s m'' E == Qval s (m'' * 2 ^ (E - ez)) ez).
  { rewrite Qval_shift by lia. replace (ez + (E - ez))%Z with E by lia. reflexivity. }
  rewrite E1, Qval_minus, Qabs_Qval.
  assert (E2 : 2 ^ (E - 1) == inject_Z (2 ^ (E - ez - 1)) * 2 ^ ez).
  { rewrite <- pow2_Z by lia. rewrite <- pow2_add. now replace (E - ez - 1 + ez)%Z with (E - 1)%Z by lia. }
  rewrite E2. apply Qmult_le_compat_r; [|apply Qlt_le_weak, pow2_pos].
  rewrite <- Zle_Qle.
  assert (2 ^ (E - ez) = 2 * 2 ^ (E - ez - 1))%Z.
  { replace (E - ez)%Z with (E - ez - 1 + 1)%Z at 1 by lia.
    rewrite Z.pow_add_r, Z.pow_1_r by lia. lia. }
  lia.
Qed.

Lemma Qval_zero s e : Qval s 0 e == 0.
Proof. unfold Qval. destruct s; apply Qmult_0_l. Qed.

Lemma roundoff_nonneg q : 0 <= unit_roundoff * Qabs q + half_min.
Proof.
  pose proof (Qabs_nonneg q). pose proof (pow2_pos (-24)). pose proof (pow2_pos (-150)).
  unfold unit_roundoff, half_min. nra.
Qed.

(** Half a unit in the last place is at most the relative roundoff of the
    exact value, or half the smallest positive number. *)
Lemma half_ulp_bound s mz ez :
  let E := fexp prec emax (Z.pos (digits2_pos mz) + ez) in
  2 ^ (E - 1) <= unit_roundoff * Qabs (Qval s (Z.pos mz) ez) + half_min.
Proof.
  cbn zeta. rewrite fexp_eq, Qabs_Qval.
  set (d := Z.pos (digits2_pos mz)).
  destruct (digits2_pos_bounds mz) as [Hlo _]. fold d in Hlo.
  assert (Hd : (1 <= d)%Z) by (unfold d; lia).
  pose proof (pow2_pos (-24)) as H24. pose proof (pow2_pos (-150)) as H150.
  pose proof (pow2_pos ez) as Hez.
  assert (Hm : 2 ^ (d - 1) <= inject_Z (Z.abs (Z.pos mz))).
  { rewrite pow2_Z by lia. rewrite <- Zle_Qle. cbn [Z.abs]. exact Hlo. }
  pose proof (pow2_pos (d - 1)) as Hd1.
  unfold unit_roundoff, half_min.
  destruct (Z.le_gt_cases (-149) (d + ez - 24)) as [Hnorm|Hsub].
  - replace (Z.max (d + ez - 24) (-149) - 1)%Z with ((-24) + ((d - 1) + ez))%Z by lia.
    rewrite !pow2_add.
    assert (2 ^ (d - 1) * 2 ^ ez <= inject_Z (Z.abs (Z.pos mz)) * 2 ^ ez).
    { apply Qmult_le_compat_r; [exact Hm|now apply Qlt_le_weak]. }
    nra.
  - replace (Z.max (d + ez - 24) (-149) - 1)%Z with (-150)%Z by lia.
    assert (0 <= inject_Z (Z.abs (Z.pos mz)) * 2 ^ ez) by nra.
    nra.
Qed.

Lemma round_aux_error s mz ez :
  let r := binary_round_aux prec emax s (Z.pos mz) ez loc_Exact in
  is_finite r = true ->
  exists q, to_Q r = Some q
            /\ Qabs (q - Qval s (Z.pos mz) ez)
               <= unit_roundoff * Qabs (Qval s (Z.pos mz) ez) + half_min.
Proof.
  cbn zeta. intros Hfin.
  destruct (binary_round_aux_spec s mz ez Hfin) as (m'' & E & Hm'' & Hcase & Hres).
  assert (Hq : exists q, to_Q (binary_round_aux prec emax s (Z.pos mz) ez loc_Exact) = Some q
                         /\ q == Qval s m'' E).
  { destruct Hres as [[-> ->]|(mf & ef & -> & Hle & <-)].
    - exists 0. split; [reflexivity|]. now rewrite Qval_zero.
    - eexists. split; [reflexivity|].
      rewrite Qval_shift by lia. now replace (E + (ef - E))%Z with ef by lia. }
  destruct Hq as (q & Eq & Hq). exists q. split; [exact Eq|]. rewrite Hq.
  destruct Hcase as [[-> ->]|(Hlt & HE & Herr)].
  - assert (E0 : Qval s (Z.pos mz) ez - Qval s (Z.pos mz) ez == 0) by ring.
    rewrite E0. apply roundoff_nonneg.
  - apply Qle_trans with (2 ^ (E - 1)).
    + now apply Qval_distance.
    + rewrite HE. apply half_ulp_bound.
Qed.

Lemma exact_within q v :
  q == v -> Qabs (q - v) <= unit_roundoff * Qabs v + half_min.
Proof.
  intros E. assert (E0 : q - v == 0) by (rewrite E; ring).
  rewrite E0. apply roundoff_nonneg.
Qed.

(** Alignment to a smaller exponent is exact. *)
Lemma pos_iter_xO m d : Z.pos (Pos.iter xO m d) = (Z.pos m * 2 ^ Z.pos d)%Z.
Proof.
  induction d as [|d IH] using Pos.peano_ind.
  - cbn. lia.
  - rewrite Pos.iter_succ, Pos2Z.inj_xO, IH, Pos2Z.inj_succ, Z.pow_succ_r by lia. lia.
Qed.

Lemma shl_align_fst mx ex ez :
  (ez <= ex)%Z -> Z.pos (fst (shl_align mx ex ez)) = (Z.pos mx * 2 ^ (ex - ez))%Z.
Proof.
  intros Hle. unfold shl_align.
  destruct (ez - ex)%Z as [|d|d] eqn:Ed.
  - replace (ex - ez)%Z with 0%Z by lia. cbn [fst]. lia.
  - lia.
  - cbn [fst]. replace (ex - ez)%Z with (Z.pos d) by lia.
    apply pos_iter_xO.
Qed.

Lemma shl_align_Qval s mx ex ex' :
  Qval s (Z.pos (fst (shl_align mx ex ex'))) (snd (shl_align mx ex ex'))
  == Qval s (Z.pos mx) ex.
Proof.
  unfold shl_align. destruct (ex' - ex)%Z as [|d|d] eqn:Ed; cbn [fst snd]; try reflexivity.
  change (Z.pos (PosDef.Pos.iter xO mx d)) with (Z.pos (Pos.iter xO mx d)).
  rewrite pos_iter_xO, Qval_shift by lia.
  now replace (ex' + Z.pos d)%Z with ex by lia.
Qed.

Lemma binary_round_error s mx ex :
  is_finite (binary_round prec emax s mx ex) = true ->
  exists q, to_Q (binary_round prec emax s mx ex) = Some q
            /\ Qabs (q - Qval s (Z.pos mx) ex)
               <= unit_roundoff * Qabs (Qval s (Z.pos mx) ex) + half_min.
Proof.
  unfold binary_round.
  pose proof (shl_align_Qval s mx ex (fexp prec emax (Z.pos (digits2_pos mx) + ex))) as Ev.
  destruct (shl_align mx ex _) as [mz ez]. cbn [fst snd] in Ev.
  intros Hfin. destruct (round_aux_error s mz ez Hfin) as (q & Eq & Hq).
  exists q. split; [exact Eq|]. now rewrite <- Ev.
Qed.

(** One rounding of the integer [m] at exponent [e]. *)
Lemma normalize_error m e sz :
  is_finite (binary_normalize prec emax m e sz) = true ->
  exists q, to_Q (binary_normalize prec emax m e sz) = Some q
            /\ Qabs (q - inject_Z m * 2 ^ e)
               <= unit_roundoff * Qabs (inject_Z m * 2 ^ e) + half_min.
Proof.
  destruct m as [|p|p]; cbn [binary_normalize].
  - intros _. exists 0. split; [reflexivity|]. apply exact_within.
    change (inject_Z 0) with 0. ring.
  - apply binary_round_error.
  - apply binary_round_error.
Qed.

End RoundValue.

(** ** The rounding error of an addition and of a subtraction *)

Section AddSubError.

Local Open Scope Q_scope.

Lemma aligned_sum sx mx ex sy my ey :
  let ez := Z.min ex ey in
  inject_Z (cond_Zopp sx (Z.pos (fst (shl_align mx ex ez)))
            + cond_Zopp sy (Z.pos (fst (shl_align my ey ez)))) * 2 ^ ez
  == Qval sx (Z.pos mx) ex + Qval sy (Z.pos my) ey.
Proof.
  cbn zeta. set (ez := Z.min ex ey).
  rewrite !shl_align_fst by lia.
  rewrite inject_Z_plus, Qmult_plus_distr_l.
  apply Qplus_comp.
  - change (inject_Z (cond_Zopp sx (Z.pos mx * 2 ^ (ex - ez))) * 2 ^ ez)
      with (Qval sx (Z.pos mx * 2 ^ (ex - ez)) ez).
    rewrite Qval_shift by lia. now replace (ez + (ex - ez))%Z with ex by lia.
  - change (inject_Z (cond_Zopp sy (Z.pos my * 2 ^ (ey - ez))) * 2 ^ ez)
      with (Qval sy (Z.pos my * 2 ^ (ey - ez)) ez).
    rewrite Qval_shift by lia. now replace (ez + (ey - ez))%Z with ey by lia.
Qed.

Lemma Qval_neg s m e : Qval (negb s) m e == - Qval s m e.
Proof.
  unfold Qval. destruct s; cbn [negb cond_Zopp]; rewrite inject_Z_opp; ring.
Qed.

(** A finite sum is the exact sum rounded once. *)
Lemma add_error x y :
  is_finite (add x y) = true ->
  exists qx qy q,
    to_Q x = Some qx /\ to_Q y = Some qy /\ to_Q (add x y) = Some q
    /\ Qabs (q - (qx + qy)) <= unit_roundoff * Qabs (qx + qy) + half_min.
Proof.
  destruct x as [sx|sx| |sx mx ex], y as [sy|sy| |sy my ey];
    try (destruct sx, sy; discriminate); try (destruct sx; discriminate);
    try (destruct sy; discriminate); try discriminate; intros Hfin.
  - exists 0, 0, 0. repeat split; try (destruct sx, sy; reflexivity).
    apply exact_within. ring.
  - eexists 0, _, _. repeat split. apply exact_within. ring.
  - eexists _, 0, _. repeat split. apply exact_within. ring.
  - unfold add, SFadd in Hfin |- *.
    destruct (normalize_error _ _ _ Hfin) as (q & Eq & Hq).
    eexists _, _, q. repeat split; [exact Eq|].
    cbn zeta in Hq. rewrite aligned_sum in Hq. exact Hq.
Qed.

Lemma aligned_difference sx mx ex sy my ey :
  let ez := Z.min ex ey in
  inject_Z (cond_Zopp sx (Z.pos (fst (shl_align mx ex ez)))
            - cond_Zopp sy (Z.pos (fst (shl_align my ey ez)))) * 2 ^ ez
  == Qval sx (Z.pos mx) ex - Qval sy (Z.pos my) ey.
Proof.
  cbn zeta.
  replace (cond_Zopp sx (Z.pos (fst (shl_align mx ex (Z.min ex ey))))
           - cond_Zopp sy (Z.pos (fst (shl_align my ey (Z.min ex ey)))))%Z
    with (cond_Zopp sx (Z.pos (fst (shl_align mx ex (Z.min ex ey))))
          + cond_Zopp (negb sy) (Z.pos (fst (shl_align my ey (Z.min ex ey)))))%Z
    by (destruct sy; cbn [negb cond_Zopp]; lia).
  rewrite (aligned_sum sx mx ex (negb sy) my ey), Qval_neg. ring.
Qed.

(** A finite difference is the exact difference rounded once. *)
Lemma sub_error x y :
  is_finite (sub x y) = true ->
  exists qx qy q,
    to_Q x = Some qx /\ to_Q y = Some qy /\ to_Q (sub x y) = Some q
    /\ Qabs (q - (qx - qy)) <= unit_roundoff * Qabs (qx - qy) + half_min.
Proof.
  destruct x as [sx|sx| |sx mx ex], y as [sy|sy| |sy my ey];
    try (destruct sx, sy; discriminate); try (destruct sx; discriminate);
    try (destruct sy; discriminate); try discriminate; intros Hfin.
  - exists 0, 0, 0. repeat split; try (destruct sx, sy; reflexivity).
    apply exact_within. ring.
  - eexists 0, _, _. repeat split. apply exact_within.
    change (Qval (negb sy) (Z.pos my) ey == 0 - Qval sy (Z.pos my) ey).
    rewrite Qval_neg. ring.
  - eexists _, 0, _. repeat split. apply exact_within. ring.
  - unfold sub, SFsub in Hfin |- *.
    destruct (normalize_error _ _ _ Hfin) as (q & Eq & Hq).
    eexists _, _, q. repeat split; [exact Eq|].
    cbn zeta in Hq. rewrite aligned_difference in Hq. exact Hq.
Qed.

End AddSubError.

(** ** The flat index *)

Lemma u32_small n : (n < 2 ^ 32)%N -> u32 n = n.
Proof. intros H. unfold u32. now apply N.mod_small. Qed.

Lemma flat_index_small width height x y :
  (width * height < 2 ^ 32)%N -> (x < width)%N -> (y < height)%N ->
  flat_index width x y = (x + y * width)%N /\ (x + y * width < width * height)%N.
Proof.
  intros HWH Hx Hy.
  assert (Hb : (x + y * width < width * height)%N) by nia.
  split; [|exact Hb].
  unfold flat_index. rewrite (u32_small (y * width)) by nia.
  apply u32_small. lia.
Qed.

Lemma flat_index_inj width height x y x' y' :
  (width * height < 2 ^ 32)%N ->
  (x < width)%N -> (y < height)%N -> (x' < width)%N -> (y' < height)%N ->
  flat_index width x y = flat_index width x' y' -> x = x' /\ y = y'.
Proof.
  intros HWH Hx Hy Hx' Hy' E.
  destruct (flat_index_small width height x y) as [E1 _]; try assumption.
  destruct (flat_index_small width height x' y') as [E2 _]; try assumption.
  rewrite E1, E2 in E.
  assert (y = y') by nia. subst y'. split; [lia|reflexivity].
Qed.

Lemma cell_inj width height x y x' y' :
  (width * height < 2 ^ 32)%N ->
  (x < width)%N -> (y < height)%N -> (x' < width)%N -> (y' < height)%N ->
  cell width x y = cell width x' y' -> x = x' /\ y = y'.
Proof.
  intros HWH Hx Hy Hx' Hy' E. unfold cell in E.
  apply (flat_index_inj width height); try assumption. lia.
Qed.

(** ** Frame: construction and pixel access *)

Lemma Frame_new_length width height fill :
  length (buffer (Frame_new width height fill)) = N.to_nat (u32 (width * height)).
Proof. unfold Frame_new; cbn [buffer]. apply length_replicate. Qed.

Lemma Frame_new_lookup width height fill i :
  (i < N.to_nat (u32 (width * height)))%nat ->
  buffer (Frame_new width height fill) !! i = Some fill.
Proof. intros H. unfold Frame_new; cbn [buffer]. now apply lookup_replicate_2. Qed.

Lemma setPixel_run x y c f :
  setPixel x y c f =
  ([EvSet x y c],
   if decide (cell (WIDTH f) x y < length (buffer f))%nat
   then Some (tt, set_cell f (cell (WIDTH f) x y) c) else None).
Proof.
  unfold setPixel, cell.
  rewrite run_bind; unfold emit. rewrite run_bind; unfold get_frame. cbn iota beta zeta.
  destruct (N.ltb_spec (flat_index (WIDTH f) x y) (N.of_nat (length (buffer f))));
    destruct (decide _); try lia; reflexivity.
Qed.

Lemma getPixel_run x y f :
  getPixel x y f =
  ([EvGet x y],
   match buffer f !! cell (WIDTH f) x y with Some c => Some (c, f) | None => None end).
Proof.
  unfold getPixel, cell.
  rewrite run_bind; unfold emit. rewrite run_bind; unfold get_frame. cbn iota beta zeta.
  destruct (N.ltb_spec (flat_index (WIDTH f) x y) (N.of_nat (length (buffer f)))) as [Hlt|Hge].
  - destruct (buffer f !! _); reflexivity.
  - rewrite lookup_ge_None_2 by lia. reflexivity.
Qed.

(** ** One iteration of the pixel loop *)

(** The divisions of one pixel: three, all by the determinant, whatever
    the pixel and the triangle. *)
Lemma intersect_events tri x y :
  exists n1 n2 n3,
    snd (intersect tri x y) =
      [EvDiv n1 (hit_a (hit tri x y)); EvDiv n2 (hit_a (hit tri x y));
       EvDiv n3 (hit_a (hit tri x y))]
    /\ hit_d (hit tri x y) = div n1 (hit_a (hit tri x y))
    /\ at1 (barycentrics (hit tri x y)) = div n2 (hit_a (hit tri x y))
    /\ at2 (barycentrics (hit tri x y)) = div n3 (hit_a (hit tri x y)).
Proof. do 3 eexists. repeat split. Qed.

(** The determinant does not depend on the pixel. *)
Lemma hit_a_pixel tri x y x' y' : hit_a (hit tri x y) = hit_a (hit tri x' y').
Proof. reflexivity. Qed.

Lemma pixel_step_run tri x y f :
  pixel_step tri x y f =
  (step_events tri x y,
   if covered (hit tri x y)
   then (if decide (cell (WIDTH f) x y < length (buffer f))%nat
         then Some (tt, step_frame tri x y f) else None)
   else Some (tt, f)).
Proof.
  unfold pixel_step, step_events, step_frame, hit.
  rewrite run_bind. unfold lift.
  destruct (intersect tri x y) as [h l]; cbn [fst snd].
  destruct (covered h).
  - rewrite setPixel_run. destruct (decide _); reflexivity.
  - cbn. now rewrite app_nil_r.
Qed.

Lemma pixel_step_log (P : event -> Prop) tri x y f :
  Forall P (step_events tri x y) -> Forall P (fst (pixel_step tri x y f)).
Proof. rewrite pixel_step_run. auto. Qed.

Lemma step_frame_dims tri x y f :
  WIDTH (step_frame tri x y f) = WIDTH f
  /\ HEIGHT (step_frame tri x y f) = HEIGHT f
  /\ length (buffer (step_frame tri x y f)) = length (buffer f).
Proof.
  unfold step_frame. destruct (covered _); cbn; auto using length_insert.
Qed.

(** ** The raster loop *)

Lemma foldl_flat_map {A B C : Type} (g : A -> C -> A) (h : B -> list C) (a : A) (l : list B) :
  foldl g a (flat_map h l) = foldl (fun a' b => foldl g a' (h b)) a l.
Proof.
  revert a; induction l as [|b l IH]; intros a; simpl; [reflexivity|].
  now rewrite foldl_app, IH.
Qed.

Lemma foldl_map {A B C : Type} (g : A -> C -> A) (h : B -> C) (a : A) (l : list B) :
  foldl g a (map h l) = foldl (fun a' b => g a' (h b)) a l.
Proof. revert a; induction l as [|b l IH]; intros a; simpl; [reflexivity|]. apply IH. Qed.

Lemma flat_map_flat_map {A B C : Type} (g : B -> list C) (h : A -> list B) (l : list A) :
  flat_map g (flat_map h l) = flat_map (fun a => flat_map g (h a)) l.
Proof.
  induction l as [|a l IH]; simpl; [reflexivity|].
  now rewrite flat_map_app, IH.
Qed.

Lemma flat_map_map {A B C : Type} (g : B -> list C) (h : A -> B) (l : list A) :
  flat_map g (map h l) = flat_map (fun a => g (h a)) l.
Proof. induction l as [|a l IH]; simpl; [reflexivity|]. now rewrite IH. Qed.

Lemma pixels_In width height x y :
  In (x, y) (pixels width height) <-> (x < width)%N /\ (y < height)%N.
Proof.
  unfold pixels, row_pixels. rewrite in_flat_map. split.
  - intros (y' & Hy' & Hx). apply in_map_iff in Hx as (x' & E & Hx').
    inversion E; subst. apply Nseq_In in Hy', Hx'. lia.
  - intros [Hx Hy]. exists y. split.
    + apply Nseq_In. lia.
    + apply in_map_iff. exists x. split; [reflexivity|]. apply Nseq_In. lia.
Qed.

Lemma pixels_NoDup width height : List.NoDup (pixels width height).
Proof.
  unfold pixels.
  generalize (Nseq_NoDup 0 (N.to_nat height)).
  induction (Nseq 0 (N.to_nat height)) as [|y l IH]; intros Hnd; simpl.
  - constructor.
  - inversion Hnd as [|? ? Hy Hl]; subst.
    apply List.NoDup_app.
    + unfold row_pixels.
      apply Finite.Injective_map_NoDup; [|apply Nseq_NoDup].
      intros a b E. now inversion E.
    + now apply IH.
    + intros [x' y'] H1 H2.
      unfold row_pixels in H1. apply in_map_iff in H1 as (? & E & _). inversion E; subst.
      apply in_flat_map in H2 as (y'' & Hy'' & H2).
      unfold row_pixels in H2. apply in_map_iff in H2 as (? & E' & _). inversion E'; subst.
      contradiction.
Qed.

Lemma foldl_ext_eq {A B : Type} (g h : A -> B -> A) (a : A) (l : list B) :
  (forall a' b, g a' b = h a' b) -> foldl g a l = foldl h a l.
Proof.
  intros E. revert a; induction l as [|b l IH]; intros a; simpl; [reflexivity|].
  now rewrite E, IH.
Qed.

Section Raster.

Variables (width height : N) (tri : Triangle).
Hypothesis Hsize : (width * height < 2 ^ 32)%N.

Lemma frame_inv_new fill : frame_inv width height (Frame_new width height fill).
Proof.
  repeat split. rewrite Frame_new_length. now rewrite u32_small.
Qed.

Lemma frame_inv_step x y g :
  frame_inv width height g -> frame_inv width height (step_frame tri x y g).
Proof.
  intros (HW & HH & HL). destruct (step_frame_dims tri x y g) as (E1 & E2 & E3).
  unfold frame_inv. now rewrite E1, E2, E3.
Qed.

Lemma pixel_step_ok x y g :
  frame_inv width height g -> (x < width)%N -> (y < height)%N ->
  pixel_step tri x y g = (step_events tri x y, Some (tt, step_frame tri x y g)).
Proof.
  intros (HW & HH & HL) Hx Hy. rewrite pixel_step_run.
  unfold step_frame. destruct (covered _); [|reflexivity].
  destruct (decide _) as [|Hn]; [reflexivity|]. exfalso; apply Hn.
  rewrite HW, HL. unfold cell.
  destruct (flat_index_small width height x y) as [E Hlt]; try assumption.
  rewrite E. lia.
Qed.

Lemma raster_run g :
  frame_inv width height g ->
  raster tri g = (raster_events tri width height, Some (tt, raster_frame tri g)).
Proof.
  intros Hg. pose proof Hg as (HW & HH & HL).
  unfold raster. rewrite run_bind. unfold get_frame. cbn iota beta.
  unfold for_u32.
  destruct (for_up_run (frame_inv width height)
              (fun y => flat_map (fun x => step_events tri x y) (Nseq 0 (N.to_nat width)))
              (fun y g' => foldl (fun g'' x => step_frame tri x y g'') g' (Nseq 0 (N.to_nat width)))
              (N.to_nat (HEIGHT g)) 0%N
              (fun y => for_up (N.to_nat (WIDTH g)) 0%N (fun x => pixel_step tri x y)) g Hg)
    as [E _].
  - intros y g' Hy Hg'. rewrite HW.
    apply (for_up_run (frame_inv width height) (fun x => step_events tri x y)
             (fun x g'' => step_frame tri x y g'')); [assumption|].
    intros x g'' Hx Hg''. split.
    + apply pixel_step_ok; [assumption|lia|lia].
    + now apply frame_inv_step.
  - rewrite E. cbn [app]. f_equal.
    + unfold raster_events, pixels, row_pixels. rewrite HH.
      rewrite flat_map_flat_map. apply flat_map_ext. intros y.
      now rewrite flat_map_map.
    + do 2 f_equal. unfold raster_frame, pixels, row_pixels. rewrite HW, HH.
      rewrite foldl_flat_map.
      apply foldl_ext_eq. intros g' y. now rewrite foldl_map.
Qed.

Lemma rasterize_run fill :
  rasterize width height fill tri =
  (raster_events tri width height,
   Some (tt, raster_frame tri (Frame_new width height fill))).
Proof. unfold rasterize. apply raster_run, frame_inv_new. Qed.

End Raster.

(** ** What the raster loop logs and what it leaves in the frame *)

Lemma step_events_set tri x y x' y' c :
  In (EvSet x' y' c) (step_events tri x y) <->
  x' = x /\ y' = y /\ covered (hit tri x y) = true /\ c = shade tri (hit tri x y).
Proof.
  unfold step_events. rewrite in_app_iff. split.
  - intros [H|H].
    + destruct (intersect_events tri x y) as (n1 & n2 & n3 & E & _).
      rewrite E in H. cbn [In] in H. destruct H as [H|[H|[H|[]]]]; discriminate H.
    + destruct (covered (hit tri x y)); cbn [In] in H; [|contradiction].
      destruct H as [H|[]]. injection H as -> -> ->. auto.
  - intros (-> & -> & Hc & ->). right. rewrite Hc. now left.
Qed.

Lemma raster_events_set tri width height x y c :
  In (EvSet x y c) (raster_events tri width height) <->
  (x < width)%N /\ (y < height)%N
  /\ covered (hit tri x y) = true /\ c = shade tri (hit tri x y).
Proof.
  unfold raster_events. rewrite in_flat_map. split.
  - intros ([x' y'] & Hp & H). apply pixels_In in Hp.
    apply step_events_set in H as (-> & -> & Hc & ->). cbn [fst snd]. tauto.
  - intros (Hx & Hy & Hc & ->). exists (x, y). split.
    + now apply pixels_In.
    + apply step_events_set. auto.
Qed.

Section RasterFrame.

Variables (width height : N) (tri : Triangle).
Hypothesis Hsize : (width * height < 2 ^ 32)%N.

Local Abbreviation step := (fun (g : Frame) (p : N * N) => step_frame tri (fst p) (snd p) g).
Local Abbreviation in_range := (fun p : N * N => (fst p < width)%N /\ (snd p < height)%N).

Lemma foldl_step_inv ps g :
  frame_inv width height g -> frame_inv width height (foldl step g ps).
Proof.
  revert g; induction ps as [|p ps IH]; intros g Hg; cbn [foldl]; [assumption|].
  apply IH. cbn beta. apply frame_inv_step. exact Hg.
Qed.

(** A cell no covered pixel of the list maps to keeps its content. *)
Lemma foldl_step_other ps g x y :
  frame_inv width height g -> Forall in_range ps -> in_range (x, y) ->
  (forall p, In p ps -> covered (hit tri (fst p) (snd p)) = true -> p <> (x, y)) ->
  buffer (foldl step g ps) !! cell width x y = buffer g !! cell width x y.
Proof.
  revert g; induction ps as [|p ps IH]; intros g Hg Hps Hxy Hne; cbn [foldl]; [reflexivity|].
  inversion Hps as [|? ? Hp Hps']; subst.
  rewrite IH; try assumption.
  - cbn beta. unfold step_frame.
    destruct (covered (hit tri (fst p) (snd p))) eqn:Hc; [|reflexivity].
    destruct Hg as (HW & _). rewrite HW. cbn [buffer set_cell].
    apply list_lookup_insert_ne. intros E.
    destruct p as [px py]. destruct Hp as [Hpx Hpy], Hxy as [Hx Hy]. cbn [fst snd] in *.
    apply (cell_inj width height) in E as [-> ->]; try assumption.
    apply (Hne (x, y)); [now left|assumption|reflexivity].
  - cbn beta. apply frame_inv_step. exact Hg.
  - intros q Hq. apply Hne. now right.
Qed.

(** A covered pixel of the list ends with its shade. *)
Lemma foldl_step_covered ps g x y :
  frame_inv width height g -> List.NoDup ps -> Forall in_range ps ->
  In (x, y) ps -> covered (hit tri x y) = true ->
  buffer (foldl step g ps) !! cell width x y = Some (shade tri (hit tri x y)).
Proof.
  revert g; induction ps as [|p ps IH]; intros g Hg Hnd Hps Hin Hc; cbn [foldl]; [destruct Hin|].
  inversion Hnd as [|? ? Hnotin Hnd']; subst.
  inversion Hps as [|? ? Hp Hps']; subst.
  destruct Hin as [->|Hin].
  - rewrite foldl_step_other; try assumption.
    + cbn beta. unfold step_frame. cbn [fst snd]. rewrite Hc.
      destruct Hg as (HW & HH & HL). rewrite HW. cbn [buffer set_cell].
      apply list_lookup_insert_eq. rewrite HL. unfold cell.
      destruct Hp as [Hx Hy]. cbn [fst snd] in *.
      destruct (flat_index_small width height x y) as [E Hlt]; try assumption.
      rewrite E. lia.
    + cbn beta. apply frame_inv_step. exact Hg.
    + intros q Hq _ ->. contradiction.
  - apply IH; try assumption. cbn beta. apply frame_inv_step. exact Hg.
Qed.

Lemma frame_inv_frame g :
  frame_inv width height g -> frame_inv width height (raster_frame tri g).
Proof. intros Hg. unfold raster_frame. now apply foldl_step_inv. Qed.

Lemma pixels_in_range : Forall in_range (pixels width height).
Proof.
  apply List.Forall_forall. intros [x y] H. now apply pixels_In in H.
Qed.

Lemma raster_frame_covered g x y :
  frame_inv width height g -> (x < width)%N -> (y < height)%N ->
  covered (hit tri x y) = true ->
  buffer (raster_frame tri g) !! cell width x y = Some (shade tri (hit tri x y)).
Proof.
  intros Hg Hx Hy Hc. unfold raster_frame.
  destruct Hg as (HW & HH & HL). rewrite HW, HH.
  apply foldl_step_covered; try assumption.
  - repeat split; assumption.
  - apply pixels_NoDup.
  - apply pixels_in_range.
  - now apply pixels_In.
Qed.

Lemma raster_frame_not_covered g x y :
  frame_inv width height g -> (x < width)%N -> (y < height)%N ->
  covered (hit tri x y) = false ->
  buffer (raster_frame tri g) !! cell width x y = buffer g !! cell width x y.
Proof.
  intros Hg Hx Hy Hc. unfold raster_frame.
  destruct Hg as (HW & HH & HL). rewrite HW, HH.
  apply foldl_step_other.
  - repeat split; assumption.
  - apply pixels_in_range.
  - split; assumption.
  - intros p _ Hp ->. cbn [fst snd] in Hp. congruence.
Qed.

End RasterFrame.

(** ** The coverage test *)

Lemma covered_iff_flags h :
  covered h = true <->
  leb (hit_a h) eps1 = false
  /\ ltb (at0 (barycentrics h)) (neg eps2) = false
  /\ ltb (at1 (barycentrics h)) (neg eps2) = false
  /\ ltb (at2 (barycentrics h)) (neg eps2) = false
  /\ leb (hit_d h) tenth = false.
Proof.
  unfold covered, zeroArea, offAlpha, offBeta, offGamma.
  rewrite negb_true_iff, !orb_false_iff. tauto.
Qed.

Lemma covered_spec_covered h :
  hit_has_nan h = false -> covered h = spec_covered h.
Proof.
  unfold hit_has_nan. rewrite !orb_false_iff. intros ((((Ha & Hd) & H0) & H1) & H2).
  unfold covered, spec_covered, zeroArea, offAlpha, offBeta, offGamma.
  rewrite !negb_orb.
  rewrite (leb_negb_ltb (hit_a h) eps1), (leb_negb_ltb (hit_d h) tenth) by (assumption || reflexivity).
  rewrite !ltb_negb_leb by (assumption || reflexivity).
  reflexivity.
Qed.

Lemma zeroArea_not_covered h : zeroArea h = true -> covered h = false.
Proof. unfold covered. intros ->. reflexivity. Qed.


(** A NaN determinant makes every computed quantity NaN, and then no
    rejection test holds. *)
Lemma nan_hit tri x y :
  is_nan (hit_a (hit tri x y)) = true ->
  hit_d (hit tri x y) = S754_nan
  /\ barycentrics (hit tri x y) = Arr3 S754_nan S754_nan S754_nan.
Proof.
  intros Ha.
  destruct (intersect_events tri x y) as (n1 & n2 & n3 & _ & Ed & E1 & E2).
  destruct (hit_a (hit tri x y)); try discriminate.
  assert (Hdiv : forall n, div n S754_nan = S754_nan) by (intros n; now destruct n).
  rewrite Hdiv in Ed, E1, E2. split; [assumption|].
  assert (E0 : at0 (barycentrics (hit tri x y))
               = sub one (add (at1 (barycentrics (hit tri x y)))
                              (at2 (barycentrics (hit tri x y))))) by reflexivity.
  rewrite E1, E2 in E0.
  destruct (barycentrics (hit tri x y)) as [b0 b1 b2]; cbn [at0 at1 at2] in *.
  now subst.
Qed.

Lemma nan_covered tri x y :
  is_nan (hit_a (hit tri x y)) = true -> covered (hit tri x y) = true.
Proof.
  intros Ha. destruct (nan_hit tri x y Ha) as [Ed Eb].
  apply covered_iff_flags. rewrite Ed, Eb. cbn [at0 at1 at2].
  destruct (hit_a (hit tri x y)); try discriminate.
  repeat split; reflexivity.
Qed.

(** ** A raster run that covers no pixel *)

Lemma no_cover_events tri width height :
  (forall x y, covered (hit tri x y) = false) ->
  forall x y c, ~ In (EvSet x y c) (raster_events tri width height).
Proof.
  intros Hno x y c H. apply raster_events_set in H as (_ & _ & Hc & _).
  rewrite Hno in Hc. discriminate.
Qed.

Lemma no_cover_run tri g :
  (forall x y, covered (hit tri x y) = false) ->
  raster tri g = (raster_events tri (WIDTH g) (HEIGHT g), Some (tt, g)).
Proof.
  intros Hno.
  assert (Hstep : forall x y g', pixel_step tri x y g' = (step_events tri x y, Some (tt, g'))).
  { intros x y g'. rewrite pixel_step_run, Hno. reflexivity. }
  unfold raster. rewrite run_bind. unfold get_frame. cbn iota beta.
  unfold for_u32.
  destruct (for_up_run (fun g' => g' = g)
              (fun y => flat_map (fun x => step_events tri x y) (Nseq 0 (N.to_nat (WIDTH g))))
              (fun _ g' => g')
              (N.to_nat (HEIGHT g)) 0%N
              (fun y => for_up (N.to_nat (WIDTH g)) 0%N (fun x => pixel_step tri x y)) g eq_refl)
    as [E HI].
  - intros y g' _ ->. split; [|reflexivity].
    destruct (for_up_run (fun g' => g' = g) (fun x => step_events tri x y) (fun _ g' => g')
                (N.to_nat (WIDTH g)) 0%N (fun x => pixel_step tri x y) g eq_refl) as [E HI].
    + intros x g' _ ->. split; [apply Hstep|reflexivity].
    + rewrite E, HI. reflexivity.
  - rewrite E, HI. cbn [app]. f_equal.
    unfold raster_events, pixels, row_pixels.
    rewrite flat_map_flat_map. apply flat_map_ext. intros y.
    now rewrite flat_map_map.
Qed.

(** ** What a raster run can log, on any frame *)

Lemma raster_log (P : event -> Prop) tri g :
  (forall x y, Forall P (step_events tri x y)) -> Forall P (fst (raster tri g)).
Proof.
  intros Hstep. unfold raster. rewrite run_bind. unfold get_frame. cbn iota beta.
  match goal with |- Forall _ (fst (let '(l2, r) := ?m in _)) =>
    assert (Hm : Forall P (fst m)); [|destruct m; exact Hm] end.
  unfold for_u32. apply for_up_log. intros y g1 _.
  apply for_up_log. intros x g2 _. now apply pixel_step_log.
Qed.

(** Every [setPixel] of a raster run is for a covered pixel and carries its
    shade, whatever the frame. *)
Lemma raster_log_set tri g x y c :
  In (EvSet x y c) (fst (raster tri g)) ->
  covered (hit tri x y) = true /\ c = shade tri (hit tri x y).
Proof.
  intros Hin.
  pose (P := fun e => match e with
                      | EvSet x y c => covered (hit tri x y) = true
                                       /\ c = shade tri (hit tri x y)
                      | _ => True
                      end).
  assert (HP : Forall P (fst (raster tri g))).
  { apply raster_log. intros x' y'. apply List.Forall_forall. intros e He.
    destruct e as [n d|x'' y'' c''|x'' y''|s]; cbn; try exact I.
    apply step_events_set in He as (-> & -> & Hc & ->). auto. }
  rewrite List.Forall_forall in HP. exact (HP _ Hin).
Qed.

(** ** The determinant of a triangle with two identical vertices *)

Lemma hit_a_det tri x y : hit_a (hit tri x y) = dot (edge_u tri) (cross dir (edge_v tri)).
Proof. reflexivity. Qed.

Lemma fin32_finite x : fin32 x = true -> is_finite x = true.
Proof. unfold fin32. now intros [H _]%andb_true_iff. Qed.

Lemma vfinite_inv v :
  vfinite v = true -> fin32 (at0 v) = true /\ fin32 (at1 v) = true /\ fin32 (at2 v) = true.
Proof. unfold vfinite. rewrite !andb_true_iff. tauto. Qed.

Section Normal.

Variable v : vec3.
Hypothesis Hv : vfinite v = true.

Local Abbreviation n := (cross dir v).

(** [n = cross (dir, v)] is [(-v1, v0, 0)], up to the sign of zeros. *)
Lemma normal_0 :
  (is_zero (at1 v) = true -> is_zero (at0 n) = true)
  /\ (is_zero (at1 v) = false -> at0 n = neg (at1 v)).
Proof.
  destruct (vfinite_inv v Hv) as (_ & H1 & H2).
  pose proof (fin32_finite _ H1) as F1. pose proof (fin32_finite _ H2) as F2.
  apply andb_true_iff in H1 as [_ V1].
  change (at0 n) with (sub (mul zero (at2 v)) (mul one (at1 v))).
  rewrite (mul_one_l _ F1 V1).
  pose proof (mul_zero_l false _ F2) as Z2. fold zero in Z2.
  split; intros Hz.
  - now apply sub_zeros.
  - now apply sub_zero_l.
Qed.

Lemma normal_1 :
  (is_zero (at0 v) = true -> is_zero (at1 n) = true)
  /\ (is_zero (at0 v) = false -> at1 n = at0 v).
Proof.
  destruct (vfinite_inv v Hv) as (H0 & _ & H2).
  pose proof (fin32_finite _ H0) as F0. pose proof (fin32_finite _ H2) as F2.
  apply andb_true_iff in H0 as [_ V0].
  change (at1 n) with (sub (mul one (at0 v)) (mul zero (at2 v))).
  rewrite (mul_one_l _ F0 V0).
  pose proof (mul_zero_l false _ F2) as Z2. fold zero in Z2.
  split; intros Hz.
  - now apply sub_zeros.
  - now apply sub_zero_r.
Qed.

Lemma normal_2 : is_zero (at2 n) = true.
Proof.
  destruct (vfinite_inv v Hv) as (H0 & H1 & _).
  change (at2 n) with (sub (mul zero (at1 v)) (mul zero (at0 v))).
  apply sub_zeros; apply mul_zero_l; now apply fin32_finite.
Qed.

Lemma normal_finite :
  is_finite (at0 n) = true /\ is_finite (at1 n) = true /\ is_finite (at2 n) = true.
Proof.
  destruct (vfinite_inv v Hv) as (H0 & H1 & _).
  destruct normal_0 as [A0 B0], normal_1 as [A1 B1].
  repeat split.
  - destruct (is_zero (at1 v)) eqn:E.
    + now apply zero_is_finite, A0.
    + rewrite B0 by reflexivity. rewrite neg_is_finite. now apply fin32_finite.
  - destruct (is_zero (at0 v)) eqn:E.
    + now apply zero_is_finite, A1.
    + rewrite B1 by reflexivity. now apply fin32_finite.
  - apply zero_is_finite, normal_2.
Qed.

End Normal.

Lemma dot_zero_l u n :
  is_zero (at0 u) = true -> is_zero (at1 u) = true -> is_zero (at2 u) = true ->
  is_finite (at0 n) = true -> is_finite (at1 n) = true -> is_finite (at2 n) = true ->
  is_zero (dot u n) = true.
Proof.
  intros. unfold dot. repeat apply add_zeros; now apply mul_is_zero_l.
Qed.

Lemma dot_zero_r u n :
  is_finite (at0 u) = true -> is_finite (at1 u) = true -> is_finite (at2 u) = true ->
  is_zero (at0 n) = true -> is_zero (at1 n) = true -> is_zero (at2 n) = true ->
  is_zero (dot u n) = true.
Proof.
  intros. unfold dot. repeat apply add_zeros; now apply mul_is_zero_r.
Qed.

(** [p - p] is [+0] in every component when it is finite. *)
Lemma vsub_self p :
  vfinite (vsub p p) = true ->
  is_zero (at0 (vsub p p)) = true /\ is_zero (at1 (vsub p p)) = true
  /\ is_zero (at2 (vsub p p)) = true.
Proof.
  intros H. destruct (vfinite_inv _ H) as (H0 & H1 & H2).
  apply fin32_finite in H0, H1, H2. cbn [vsub at0 at1 at2] in *.
  rewrite !sub_self by assumption. repeat split.
Qed.

(** The determinant of [v] against itself. *)
Lemma dot_self_normal v :
  vfinite v = true -> is_finite (mul (at0 v) (at1 v)) = true ->
  is_zero (dot v (cross dir v)) = true.
Proof.
  intros Hv Hp.
  destruct (vfinite_inv v Hv) as (H0 & H1 & H2).
  apply fin32_finite in H0, H1, H2.
  destruct (normal_0 v Hv) as [A0 B0], (normal_1 v Hv) as [A1 B1].
  destruct (normal_finite v Hv) as (F0 & F1 & F2).
  pose proof (normal_2 v Hv) as Z2.
  unfold dot. apply add_zeros; [|now apply mul_is_zero_r].
  destruct (is_zero (at1 v)) eqn:E1.
  - apply add_zeros; [apply mul_is_zero_r|apply mul_is_zero_l]; auto.
  - destruct (is_zero (at0 v)) eqn:E0.
    + apply add_zeros; [apply mul_is_zero_l|apply mul_is_zero_r]; auto.
    + rewrite B0, B1 by reflexivity.
      rewrite mul_neg_r, (mul_comm (at1 v) (at0 v)).
      now apply add_neg_self.
Qed.

Lemma coincident_det_zero tri :
  at1 (vertices tri) = at0 (vertices tri)
  \/ at2 (vertices tri) = at0 (vertices tri)
  \/ at1 (vertices tri) = at2 (vertices tri) ->
  edges_regular tri = true ->
  is_zero (dot (edge_u tri) (cross dir (edge_v tri))) = true.
Proof.
  intros Hsame Hreg. unfold edges_regular in Hreg.
  apply andb_true_iff in Hreg as [Hreg Hp2].
  apply andb_true_iff in Hreg as [Hreg Hp1].
  apply andb_true_iff in Hreg as [Hu Hv].
  destruct Hsame as [E|[E|E]].
  - (* u = 0 *)
    unfold edge_u in *. rewrite E in *.
    destruct (vsub_self _ Hu) as (Z0 & Z1 & Z2).
    destruct (normal_finite _ Hv) as (F0 & F1 & F2).
    now apply dot_zero_l.
  - (* v = 0 *)
    unfold edge_v in *. rewrite E in *.
    destruct (vsub_self _ Hv) as (Z0 & Z1 & Z2).
    destruct (normal_0 _ Hv) as [A0 _], (normal_1 _ Hv) as [A1 _].
    destruct (vfinite_inv _ Hu) as (H0 & H1 & H2).
    apply fin32_finite in H0, H1, H2.
    apply dot_zero_r; auto. now apply normal_2.
  - (* u = v *)
    unfold edge_u, edge_v in *. rewrite E in *.
    now apply dot_self_normal.
Qed.

(** ** Frame :: writeBuffer, the pixels it reads *)

Lemma for_i32_down_log (P : event -> Prop) n body f :
  (forall y g, 0 <= y < Z.of_nat n -> Forall P (fst (body y g))) ->
  Forall P (fst (for_i32_down n body f)).
Proof.
  revert f; induction n as [|n IH]; intros f Hb; cbn [for_i32_down].
  - constructor.
  - apply run_bind_log.
    + apply Hb. lia.
    + intros _ g. apply IH. intros y g' Hy. apply Hb. lia.
Qed.

Lemma for_i32_up_log (P : event -> Prop) n x body f :
  (forall j g, x <= j < x + Z.of_nat n -> Forall P (fst (body j g))) ->
  Forall P (fst (for_i32_up n x body f)).
Proof.
  revert x f; induction n as [|n IH]; intros x f Hb; cbn [for_i32_up].
  - constructor.
  - apply run_bind_log.
    + apply Hb. lia.
    + intros _ g. rewrite run_bind. unfold incr_i32.
      destruct (x <? INT_MAX); [|constructor].
      cbn. specialize (IH (x + 1) g).
      destruct (for_i32_up n (x + 1) body g) as [l r]. cbn in *.
      apply IH. intros j g' Hj. apply Hb. lia.
Qed.

Lemma out_log (P : event -> Prop) s f : P (EvOut s) -> Forall P (fst (out s f)).
Proof. intros H. repeat constructor. exact H. Qed.

Lemma of_option_log {A : Type} (P : event -> Prop) (o : option A) f :
  Forall P (fst (of_option o f)).
Proof. destruct o; constructor. Qed.

Lemma out_channel_log (P : event -> Prop) x y k sep f :
  P (EvGet (of_i32 x) (of_i32 y)) -> (forall s, P (EvOut s)) ->
  Forall P (fst (out_channel x y k sep f)).
Proof.
  intros Hget Hout. unfold out_channel.
  apply run_bind_log.
  - rewrite getPixel_run. repeat constructor. exact Hget.
  - intros c g. apply run_bind_log; [apply of_option_log|].
    intros v g'. apply run_bind_log; [now apply out_log|].
    intros _ g''. now apply out_log.
Qed.

Lemma of_i32_small z : 0 <= z < 2 ^ 32 -> of_i32 z = Z.to_N z.
Proof. intros H. unfold of_i32. now rewrite Z.mod_small. Qed.

Lemma u32_pred height :
  (0 < height < 2 ^ 32)%N -> u32 (height + (2 ^ 32 - 1)) = (height - 1)%N.
Proof.
  intros H. unfold u32.
  replace (height + (2 ^ 32 - 1))%N with ((height - 1) + 1 * 2 ^ 32)%N by lia.
  rewrite N.Div0.mod_add. apply N.mod_small. lia.
Qed.

Lemma top_row_small height :
  (0 < height)%N -> (Z.of_N height <= 2 ^ 31) -> top_row height = Z.of_N height - 1.
Proof.
  intros H0 H1. unfold top_row. rewrite u32_pred by lia. unfold to_i32.
  destruct (Z.ltb_spec (Z.of_N (height - 1)) (2 ^ 31)); lia.
Qed.

Lemma top_row_lt height : (height < 2 ^ 32)%N -> top_row height < Z.of_N height.
Proof.
  intros Hh. destruct (N.eq_dec height 0%N) as [->|Hne].
  - vm_compute. reflexivity.
  - unfold top_row. rewrite u32_pred by lia. unfold to_i32.
    destruct (Z.ltb_spec (Z.of_N (height - 1)) (2 ^ 31)); lia.
Qed.

Lemma writeBuffer_log f :
  (WIDTH f < 2 ^ 32)%N -> (HEIGHT f < 2 ^ 32)%N ->
  Forall (in_frame (WIDTH f) (HEIGHT f)) (fst (writeBuffer f)).
Proof.
  intros HW HH. unfold writeBuffer.
  rewrite run_bind. unfold get_frame. cbn iota beta.
  match goal with |- Forall _ (fst (let '(l2, r) := ?m in _)) =>
    assert (Hm : Forall (in_frame (WIDTH f) (HEIGHT f)) (fst m)); [|destruct m; exact Hm] end.
  repeat (apply run_bind_log; [apply out_log; exact I|intros _ ?]).
  pose proof (top_row_lt (HEIGHT f) HH) as Htop.
  apply for_i32_down_log. intros y g Hy.
  apply for_i32_up_log. intros x g' Hx.
  assert (Hget : in_frame (WIDTH f) (HEIGHT f) (EvGet (of_i32 x) (of_i32 y))).
  { rewrite !of_i32_small by lia. cbn. lia. }
  repeat (apply run_bind_log; [apply out_channel_log; [exact Hget|intros; exact I]|intros _ ?]).
  apply out_channel_log; [exact Hget|intros; exact I].
Qed.

(** ** Frame :: writeBuffer, the text it emits *)

Lemma append_assoc (s1 s2 s3 : string) : (s1 +:+ s2) +:+ s3 = s1 +:+ (s2 +:+ s3).
Proof.
  induction s1 as [|a s1 IH]; [reflexivity|].
  change (String a ((s1 +:+ s2) +:+ s3) = String a (s1 +:+ (s2 +:+ s3))).
  now rewrite IH.
Qed.

Lemma append_length (s1 s2 : string) :
  String.length (s1 +:+ s2) = (String.length s1 + String.length s2)%nat.
Proof.
  induction s1 as [|a s1 IH]; [reflexivity|].
  change (S (String.length (s1 +:+ s2)) = S (String.length s1 + String.length s2)).
  now rewrite IH.
Qed.

Lemma emitted_app l1 l2 : emitted (l1 ++ l2) = emitted l1 +:+ emitted l2.
Proof.
  induction l1 as [|e l1 IH]; cbn [emitted app]; [reflexivity|].
  destruct e; try exact IH. rewrite IH. now rewrite append_assoc.
Qed.

Lemma emitted_flat_map {A : Type} (ev : A -> list event) (l : list A) :
  emitted (flat_map ev l) = join (map (fun a => emitted (ev a)) l).
Proof.
  induction l as [|a l IH]; cbn [flat_map map join foldr]; [reflexivity|].
  rewrite emitted_app. f_equal. exact IH.
Qed.

Lemma for_i32_down_run (ev : N -> list event) n body f :
  (forall k, (k < n)%nat -> body (Z.of_nat k) f = (ev (N.of_nat k), Some (tt, f))) ->
  for_i32_down n body f = (flat_map ev (rev (Nseq 0 n)), Some (tt, f)).
Proof.
  induction n as [|n IH]; intros Hb; cbn [for_i32_down].
  - reflexivity.
  - rewrite (run_bind_ok _ _ _ _ _ _ (Hb n (Nat.lt_succ_diag_r n))).
    rewrite IH by (intros k Hk; apply Hb; lia).
    rewrite Nseq_snoc, rev_app_distr. cbn [rev app flat_map fst snd].
    rewrite N.add_0_l. reflexivity.
Qed.

Lemma for_i32_up_run (ev : N -> list event) n x body f :
  0 <= x -> x + Z.of_nat n <= INT_MAX ->
  (forall j, x <= j < x + Z.of_nat n -> body j f = (ev (Z.to_N j), Some (tt, f))) ->
  for_i32_up n x body f = (flat_map ev (Nseq (Z.to_N x) n), Some (tt, f)).
Proof.
  revert x; induction n as [|n IH]; intros x Hx Hmax Hb; cbn [for_i32_up].
  - reflexivity.
  - rewrite (run_bind_ok _ _ _ _ _ _ (Hb x ltac:(lia))). cbn [fst snd].
    rewrite run_bind. unfold incr_i32.
    destruct (Z.ltb_spec x INT_MAX) as [_|Hge]; [|lia].
    cbn. rewrite IH; [|lia|lia|intros j Hj; apply Hb; lia].
    cbn [Nseq flat_map]. replace (N.succ (Z.to_N x)) with (Z.to_N (x + 1)) by lia.
    reflexivity.
Qed.

Lemma out_channel_run x y k sep f c :
  0 <= x < 2 ^ 32 -> 0 <= y < 2 ^ 32 ->
  buffer f !! cell (WIDTH f) (Z.to_N x) (Z.to_N y) = Some c ->
  castable (k c) = true ->
  out_channel x y k sep f = (channel_events (Z.to_N x) (Z.to_N y) (k c) sep, Some (tt, f)).
Proof.
  intros Hx Hy Hc Hk. unfold out_channel.
  rewrite run_bind, getPixel_run, !of_i32_small, Hc by assumption.
  unfold castable, to_int in Hk. unfold channel_events, channel, to_int.
  destruct (trunc (mul (k c) (of_Z 255))) as [z|]; [|discriminate].
  destruct ((- 2 ^ 31 <=? z) && (z <? 2 ^ 31)); [|discriminate].
  reflexivity.
Qed.

Lemma run_out {A : Type} s (k : M A) f :
  (out s;; k) f = (EvOut s :: fst (k f), snd (k f)).
Proof. rewrite run_bind. unfold out, emit. destruct (k f); reflexivity. Qed.

Lemma rows_count height :
  Z.of_N height <= 2 ^ 31 -> Z.to_nat (top_row height + 1) = N.to_nat height.
Proof.
  intros H. destruct (N.eq_dec height 0%N) as [->|Hne]; [reflexivity|].
  rewrite top_row_small by lia. lia.
Qed.

Section WriteBuffer.

Variables (width height : N) (f : Frame).
Hypothesis Hsize : (width * height < 2 ^ 32)%N.
Hypothesis Hinv : frame_inv width height f.
Hypothesis Hwidth : Z.of_N width < 2 ^ 31.
Hypothesis Hheight : Z.of_N height <= 2 ^ 31.
Hypothesis Hexp : forallb exportable (buffer f) = true.

Lemma stored_pixel x y :
  (x < width)%N -> (y < height)%N ->
  buffer f !! cell (WIDTH f) x y = Some (pixel_at f (x, y))
  /\ exportable (pixel_at f (x, y)) = true.
Proof.
  intros Hx Hy. destruct Hinv as (HW & HH & HL).
  assert (Hlt : (cell (WIDTH f) x y < length (buffer f))%nat).
  { rewrite HW, HL. unfold cell.
    destruct (flat_index_small width height x y) as [E Hlt]; try assumption.
    rewrite E. lia. }
  destruct (lookup_lt_is_Some_2 _ _ Hlt) as [c Hc].
  unfold pixel_at. cbn [fst snd]. rewrite Hc.
  split; [reflexivity|].
  rewrite forallb_forall in Hexp. apply Hexp.
  apply list_elem_of_In. eapply list_elem_of_lookup_2. exact Hc.
Qed.

Lemma pixel_line_run x y :
  0 <= x < Z.of_N width -> 0 <= y < Z.of_N height ->
  (out_channel x y at0 " ";; out_channel x y at1 " ";; out_channel x y at2 endl) f
  = (pixel_events (Z.to_N x) (Z.to_N y) (pixel_at f (Z.to_N x, Z.to_N y)), Some (tt, f)).
Proof.
  intros Hx Hy.
  destruct (stored_pixel (Z.to_N x) (Z.to_N y)) as [Hc He]; [lia|lia|].
  unfold exportable in He. apply andb_true_iff in He as [He He2].
  apply andb_true_iff in He as [He0 He1].
  assert (Hx32 : 0 <= x < 2 ^ 32) by lia.
  assert (Hy32 : 0 <= y < 2 ^ 32) by lia.
  rewrite (run_bind_ok _ _ _ _ _ _ (out_channel_run x y at0 " " f _ Hx32 Hy32 Hc He0)).
  rewrite (run_bind_ok _ _ _ _ _ _ (out_channel_run x y at1 " " f _ Hx32 Hy32 Hc He1)).
  rewrite (out_channel_run x y at2 endl f _ Hx32 Hy32 Hc He2).
  reflexivity.
Qed.

Lemma writeBuffer_run :
  writeBuffer f =
  (header_events width height
   ++ flat_map (fun p => pixel_events (fst p) (snd p) (pixel_at f p))
               (scan_order width height),
   Some (tt, f)).
Proof.
  pose proof Hinv as (HW & HH & HL).
  unfold writeBuffer. rewrite run_bind. unfold get_frame. cbn iota beta.
  rewrite !run_out. rewrite HW, HH, rows_count by assumption.
  rewrite (for_i32_down_run
             (fun y => flat_map (fun x => pixel_events x y (pixel_at f (x, y)))
                                (Nseq 0 (N.to_nat width)))).
  - cbn [fst snd app header_events]. do 7 f_equal.
    unfold scan_order, row_pixels.
    rewrite flat_map_flat_map. apply flat_map_ext. intros y.
    now rewrite flat_map_map.
  - intros k Hk.
    rewrite (for_i32_up_run (fun x => pixel_events x (N.of_nat k) (pixel_at f (x, N.of_nat k)))).
    + reflexivity.
    + lia.
    + unfold INT_MAX. lia.
    + intros x Hx. rewrite pixel_line_run by lia.
      replace (Z.to_N (Z.of_nat k)) with (N.of_nat k) by lia. reflexivity.
Qed.

Lemma writeBuffer_text : emitted (fst (writeBuffer f)) = ppm_text f.
Proof.
  destruct Hinv as (HW & HH & HL).
  rewrite writeBuffer_run. cbn [fst]. rewrite emitted_app.
  unfold ppm_text. rewrite HW, HH. f_equal.
  rewrite emitted_flat_map. f_equal.
Qed.

End WriteBuffer.

(** A frame of more than [2^31] rows: [HEIGHT - 1] is negative as an
    [int32_t], and no row is written. *)
Lemma writeBuffer_no_rows f :
  2 ^ 31 < Z.of_N (HEIGHT f) < 2 ^ 32 ->
  writeBuffer f = (header_events (WIDTH f) (HEIGHT f), Some (tt, f)).
Proof.
  intros H. unfold writeBuffer. rewrite run_bind. unfold get_frame. cbn iota beta.
  rewrite !run_out.
  assert (E : Z.to_nat (top_row (HEIGHT f) + 1) = 0%nat).
  { unfold top_row. rewrite u32_pred by lia. unfold to_i32.
    destruct (Z.ltb_spec (Z.of_N (HEIGHT f - 1)) (2 ^ 31)); lia. }
  rewrite E. reflexivity.
Qed.

Lemma append_nil_r (s : string) : s +:+ "" = s.
Proof.
  induction s as [|a s IH]; [reflexivity|].
  change (String a (s +:+ "") = String a s). now rewrite IH.
Qed.

Lemma ppm_pixel_nonempty c : ppm_pixel c <> "".
Proof.
  intros E. apply (f_equal String.length) in E. unfold ppm_pixel in E.
  rewrite !append_length in E. cbn [String.length] in E. lia.
Qed.

Lemma scan_order_nonempty width height :
  (0 < width)%N -> (0 < height)%N ->
  exists p l, scan_order width height = p :: l.
Proof.
  intros Hw Hh. unfold scan_order.
  destruct (N.to_nat height) as [|n] eqn:En; [lia|].
  rewrite Nseq_snoc, rev_app_distr. cbn [rev app flat_map].
  unfold row_pixels at 1.
  destruct (N.to_nat width) as [|m] eqn:Em; [lia|].
  cbn [Nseq map app]. eauto.
Qed.

Lemma tall_frame_text f :
  2 ^ 31 < Z.of_N (HEIGHT f) < 2 ^ 32 -> (0 < WIDTH f)%N ->
  emitted (fst (writeBuffer f)) = ppm_header (WIDTH f) (HEIGHT f)
  /\ emitted (fst (writeBuffer f)) <> ppm_text f.
Proof.
  intros Hh Hw. rewrite writeBuffer_no_rows by assumption. cbn [fst].
  assert (E : emitted (header_events (WIDTH f) (HEIGHT f)) = ppm_header (WIDTH f) (HEIGHT f))
    by reflexivity.
  rewrite E. split; [reflexivity|].
  unfold ppm_text. intros Heq.
  rewrite <- (append_nil_r (ppm_header (WIDTH f) (HEIGHT f))) in Heq at 1.
  apply String.app_inj in Heq.
  destruct (scan_order_nonempty (WIDTH f) (HEIGHT f)) as (p & l & Ep); [assumption|lia|].
  rewrite Ep in Heq. cbn [map join foldr] in Heq.
  apply (f_equal String.length) in Heq. rewrite append_length in Heq.
  pose proof (ppm_pixel_nonempty (pixel_at f p)) as Hne.
  destruct (ppm_pixel (pixel_at f p)); [congruence|]. cbn [String.length] in Heq. lia.
Qed.

(** ** Further exact cases of the binary32 operations *)

Lemma add_comm x y : add x y = add y x.
Proof.
  destruct x as [sx|sx| |sx mx ex], y as [sy|sy| |sy my ey];
    unfold add; cbn [SFadd];
    try reflexivity; try (destruct sx, sy; reflexivity).
  now rewrite Z.min_comm, Z.add_comm.
Qed.

Lemma same_number_refl x : same_number x x = true.
Proof.
  destruct x as [s|s| |s m e]; cbn; try reflexivity.
  - now destruct s.
  - rewrite Pos.eqb_refl, Z.eqb_refl. now destruct s.
Qed.

Lemma same_number_zeros x y :
  is_zero x = true -> is_zero y = true -> same_number x y = true.
Proof. destruct x, y; try discriminate; reflexivity. Qed.

Lemma same_number_inv x y :
  same_number x y = true -> x = y \/ (is_zero x = true /\ is_zero y = true).
Proof.
  destruct x as [s|s| |s m e], y as [s'|s'| |s' m' e']; cbn; try discriminate; auto.
  - intros H. left. f_equal. now destruct s, s'.
  - intros H. apply andb_true_iff in H as [H He]. apply andb_true_iff in H as [Hs Hm].
    apply Pos.eqb_eq in Hm. apply Z.eqb_eq in He. left. subst.
    f_equal. now destruct s, s'.
Qed.

Lemma binary_normalize_opp m e :
  m <> 0 ->
  binary_normalize prec emax (- m) e false = SFopp (binary_normalize prec emax m e false).
Proof.
  destruct m as [|p|p]; [congruence| |]; intros _.
  - change (- Z.pos p) with (Z.neg p). cbn [binary_normalize].
    unfold binary_round. destruct (shl_align p e _) as [mz ez].
    apply (binary_round_aux_opp false).
  - change (- Z.neg p) with (Z.pos p). cbn [binary_normalize].
    unfold binary_round. destruct (shl_align p e _) as [mz ez].
    rewrite <- (binary_round_aux_opp true). reflexivity.
Qed.

(** [x - y] is the opposite of [y - x], except that both are [+0] when the
    difference is zero. *)
Lemma sub_antisym x y : same_number (sub x y) (neg (sub y x)) = true.
Proof.
  destruct x as [sx|sx| |sx mx ex], y as [sy|sy| |sy my ey];
    unfold sub, neg; cbn [SFsub];
    try reflexivity; try (destruct sx, sy; reflexivity).
  - apply same_number_refl.
  - cbn [SFopp]. rewrite negb_involutive. apply same_number_refl.
  - rewrite (Z.min_comm ey ex).
    set (a := cond_Zopp sx _). set (b := cond_Zopp sy _).
    destruct (Z.eq_dec (b - a) 0) as [H0|H0].
    + replace (a - b) with 0 by lia. rewrite H0. reflexivity.
    + replace (a - b) with (- (b - a)) by lia.
      rewrite binary_normalize_opp by exact H0.
      apply same_number_refl.
Qed.

(** A finite product minus itself is [+0]; an overflowed one gives NaN. *)
Lemma sub_self_cases p : sub p p = if is_finite p then zero else S754_nan.
Proof.
  destruct p as [s|s| |s m e]; unfold sub; cbn [SFsub is_finite].
  - now destruct s.
  - now destruct s.
  - reflexivity.
  - rewrite Z.sub_diag. reflexivity.
Qed.

(** Multiplication by [1.0f] on the right, also of infinities and NaN. *)
Lemma mul_one_r x : valid x = true -> mul x one = x.
Proof.
  intros Hv. destruct x as [s|s| |s m e] eqn:E.
  - now destruct s.
  - now destruct s.
  - reflexivity.
  - rewrite mul_comm. now apply mul_one_l.
Qed.

(** Division by a zero never gives a finite number. *)
Lemma div_zero_r x z : is_zero z = true -> is_finite (div x z) = false.
Proof.
  destruct z as [sz| | |]; try discriminate; intros _.
  destruct x; reflexivity.
Qed.

(** A non-zero finite number divided by itself is [1.0f]. *)
Lemma new_location_zero m : new_location m 0 = loc_Exact.
Proof.
  unfold new_location.
  destruct (Z.even m); [unfold new_location_even | unfold new_location_odd];
    reflexivity.
Qed.

Lemma div_self s m e : div (S754_finite s m e) (S754_finite s m e) = one.
Proof.
  unfold div, SFdiv, SFdiv_core_binary.
  replace (Zdigits2 (Z.pos m) + e - (Zdigits2 (Z.pos m) + e)) with 0 by lia.
  rewrite Z.sub_diag.
  change (Z.min (fexp prec emax 0) 0) with (-24).
  change (0 - -24) with 24.
  cbv beta iota zeta.
  rewrite Z.shiftl_mul_pow2 by lia. change (2 ^ 24) with 16777216.
  assert (Hq : Z.div_eucl (Z.pos m * 16777216) (Z.pos m) = (16777216, 0)).
  { pose proof (Z.div_mul 16777216 (Z.pos m) ltac:(lia)) as H1.
    pose proof (Z.mod_mul 16777216 (Z.pos m) ltac:(lia)) as H2.
    rewrite (Z.mul_comm 16777216) in H1, H2.
    unfold Z.div, Z.modulo in H1, H2.
    destruct (Z.div_eucl (Z.pos m * 16777216) (Z.pos m)) as [q r].
    now subst. }
  change IntDef.Z.div_eucl with Z.div_eucl. rewrite Hq.
  rewrite new_location_zero.
  replace (xorb s s) with false by now destruct s.
  reflexivity.
Qed.

(** Sums and differences of numbers that are not finite are not finite. *)
Lemma add_not_finite x y :
  is_finite x = false -> is_finite y = false -> is_finite (add x y) = false.
Proof.
  destruct x as [sx|sx| |sx mx ex]; try discriminate;
    destruct y as [sy|sy| |sy my ey]; try discriminate; intros _ _;
    try reflexivity.
  now destruct sx, sy.
Qed.

Lemma sub_not_finite_r x y : is_finite y = false -> is_finite (sub x y) = false.
Proof.
  destruct y as [sy|sy| |sy my ey]; try discriminate; intros _;
    destruct x as [sx|sx| |sx mx ex]; try reflexivity.
  now destruct sx, sy.
Qed.

(** ** More on the flat index and on pixel access *)

Lemma u32_idemp_add a b : u32 (a + u32 b) = u32 (a + b).
Proof. unfold u32. now rewrite N.Div0.add_mod_idemp_r. Qed.

Lemma set_cell_set_cell f i c1 c2 : set_cell (set_cell f i c1) i c2 = set_cell f i c2.
Proof.
  unfold set_cell; cbn [WIDTH HEIGHT buffer]. f_equal. apply list_insert_insert_eq.
Qed.

Lemma set_cell_commute f i j c1 c2 :
  i <> j -> set_cell (set_cell f i c1) j c2 = set_cell (set_cell f j c2) i c1.
Proof.
  intros Hij. unfold set_cell; cbn [WIDTH HEIGHT buffer]. f_equal.
  symmetry. now apply list_insert_insert_ne.
Qed.

Lemma set_cell_length f i c : length (buffer (set_cell f i c)) = length (buffer f).
Proof. apply length_insert. Qed.

Lemma run_seq {A : Type} (m : M unit) (k : M A) f :
  (m;; k) f =
  match m f with
  | (l1, Some (_, f1)) => (l1 ++ fst (k f1), snd (k f1))
  | (l1, None) => (l1, None)
  end.
Proof.
  change ((m;; k) f) with ((m ≫= fun _ => k) f). rewrite run_bind.
  destruct (m f) as [l1 [[a f1]|]]; [|reflexivity].
  now destruct (k f1).
Qed.

(** Two writes in a row. *)
Lemma setPixel_twice x y c x' y' c' f :
  snd ((setPixel x y c;; setPixel x' y' c') f) =
  if decide (cell (WIDTH f) x y < length (buffer f))%nat
  then (if decide (cell (WIDTH f) x' y' < length (buffer f))%nat
        then Some (tt, set_cell (set_cell f (cell (WIDTH f) x y) c)
                                (cell (WIDTH f) x' y') c')
        else None)
  else None.
Proof.
  rewrite run_seq, setPixel_run.
  destruct (decide (cell (WIDTH f) x y < length (buffer f))%nat); [|reflexivity].
  rewrite setPixel_run. cbn [snd]. rewrite set_cell_length.
  change (WIDTH (set_cell f (cell (WIDTH f) x y) c)) with (WIDTH f).
  reflexivity.
Qed.

(** The first cell past the storage of a frame whose size overflowed is the
    cell of a pixel inside the frame. *)
Lemma overflow_pixel width height :
  (2 ^ 32 <= width * height)%N ->
  let size := u32 (width * height) in
  (size mod width < width)%N /\ (size / width < height)%N
  /\ flat_index width (size mod width) (size / width) = size.
Proof.
  intros Hov size.
  assert (Hw : (width <> 0)%N) by (intros ->; cbn in Hov; lia).
  assert (Hs : (size < 2 ^ 32)%N) by (apply N.mod_upper_bound; lia).
  pose proof (N.mod_upper_bound size width Hw) as Hx.
  pose proof (N.div_mod size width Hw) as Hd.
  assert (Hy : (size / width < height)%N).
  { apply N.Div0.div_lt_upper_bound. lia. }
  repeat split; try assumption.
  unfold flat_index.
  rewrite u32_idemp_add.
  replace (size mod width + size / width * width)%N with size by lia.
  now apply u32_small.
Qed.

Lemma u32_idemp_add_l a b : u32 (u32 a + b) = u32 (a + b).
Proof. unfold u32. now rewrite N.Div0.add_mod_idemp_l. Qed.

Lemma u32_idemp_mul_l a b : u32 (u32 a * b) = u32 (a * b).
Proof. unfold u32. now rewrite N.Div0.mul_mod_idemp_l. Qed.

Lemma flat_index_wrap width x y :
  flat_index width (u32 (x + width)) y = flat_index width x (u32 (y + 1)).
Proof.
  unfold flat_index.
  rewrite !u32_idemp_add, u32_idemp_add_l.
  rewrite <- (u32_idemp_add x (u32 (y + 1) * width)), u32_idemp_mul_l, u32_idemp_add.
  f_equal. lia.
Qed.

Lemma fresh_cell width height fill x y :
  (width * height < 2 ^ 32)%N -> (x < width)%N -> (y < height)%N ->
  buffer (Frame_new width height fill) !! cell width x y = Some fill.
Proof.
  intros HWH Hx Hy. apply Frame_new_lookup.
  destruct (flat_index_small width height x y) as [E Hb]; try assumption.
  unfold cell. rewrite E, (u32_small (width * height)) by assumption. lia.
Qed.

(** ** Postconditions of computations that return *)

Lemma returns_elim {A : Type} (m : M A) f (Q : A -> Frame -> Prop) a g :
  returns m f Q -> snd (m f) = Some (a, g) -> Q a g.
Proof. unfold returns. intros H E. now rewrite E in H. Qed.

Lemma returns_weaken {A : Type} (m : M A) f (Q Q' : A -> Frame -> Prop) :
  returns m f Q -> (forall a g, Q a g -> Q' a g) -> returns m f Q'.
Proof.
  unfold returns. destruct (snd (m f)) as [[a g]|]; auto.
Qed.

Lemma returns_bind {A B : Type} (m : M A) (k : A -> M B) f (Q : B -> Frame -> Prop) :
  returns m f (fun a g => returns (k a) g Q) -> returns (m ≫= k) f Q.
Proof.
  unfold returns. rewrite run_bind.
  destruct (m f) as [l1 [[a f1]|]]; cbn [snd]; [|auto].
  destruct (k a f1) as [l2 r]; cbn [snd]. auto.
Qed.

Lemma returns_ret {A : Type} (a : A) f (Q : A -> Frame -> Prop) :
  Q a f -> returns (mret a) f Q.
Proof. auto. Qed.

Lemma returns_of_option {A : Type} (o : option A) f (Q : A -> Frame -> Prop) :
  (forall a, o = Some a -> Q a f) -> returns (of_option o) f Q.
Proof. destruct o; cbn; auto. Qed.

Lemma returns_getPixel x y f (Q : vec3 -> Frame -> Prop) :
  (forall c, buffer f !! cell (WIDTH f) x y = Some c -> Q c f) ->
  returns (getPixel x y) f Q.
Proof.
  intros H. unfold returns. rewrite getPixel_run. cbn [snd].
  destruct (buffer f !! _); auto.
Qed.

(** Loops: an invariant indexed by the counter. *)
Lemma returns_for_up (I : N -> Frame -> Prop) n i body f :
  I i f ->
  (forall j g, (i <= j < i + N.of_nat n)%N -> I j g ->
               returns (body j) g (fun _ g' => I (N.succ j) g')) ->
  returns (for_up n i body) f (fun _ g => I (i + N.of_nat n)%N g).
Proof.
  revert i f; induction n as [|n IH]; intros i f Hf Hb; cbn [for_up].
  - apply returns_ret. now rewrite N.add_0_r.
  - apply returns_bind. eapply returns_weaken; [apply (Hb i f); [lia|exact Hf]|].
    intros u g Hg. cbn beta in Hg |- *.
    replace (i + N.of_nat (S n))%N with (N.succ i + N.of_nat n)%N by lia.
    apply IH; [exact Hg|]. intros j g' Hj. apply Hb. lia.
Qed.

Lemma returns_for_i32_up (I : Z -> Frame -> Prop) n x body f :
  I x f ->
  (forall j g, x <= j < x + Z.of_nat n -> I j g ->
               returns (body j) g (fun _ g' => I (j + 1) g')) ->
  returns (for_i32_up n x body) f (fun _ g => I (x + Z.of_nat n) g).
Proof.
  revert x f; induction n as [|n IH]; intros x f Hf Hb; cbn [for_i32_up].
  - apply returns_ret. now rewrite Z.add_0_r.
  - apply returns_bind. eapply returns_weaken; [apply (Hb x f); [lia|exact Hf]|].
    intros u g Hg. cbn beta in Hg |- *.
    apply returns_bind. unfold incr_i32.
    destruct (x <? INT_MAX); [|constructor].
    apply returns_ret.
    replace (x + Z.of_nat (S n)) with (x + 1 + Z.of_nat n) by lia.
    apply IH; [exact Hg|]. intros j g' Hj. apply Hb. lia.
Qed.

Lemma returns_for_i32_down (I : Z -> Frame -> Prop) n body f :
  I (Z.of_nat n) f ->
  (forall y g, 0 <= y < Z.of_nat n -> I (y + 1) g ->
               returns (body y) g (fun _ g' => I y g')) ->
  returns (for_i32_down n body) f (fun _ g => I 0 g).
Proof.
  revert f; induction n as [|n IH]; intros f Hf Hb; cbn [for_i32_down].
  - now apply returns_ret.
  - apply returns_bind. eapply returns_weaken; [apply (Hb (Z.of_nat n) f); [lia|]|].
    + replace (Z.of_nat n + 1) with (Z.of_nat (S n)) by lia. exact Hf.
    + intros u g Hg. cbn beta in Hg |- *. apply IH; [exact Hg|].
      intros y g' Hy. apply Hb. lia.
Qed.

(** ** Frame :: writeBuffer on arbitrary frames *)

Lemma returns_out s f (Q : unit -> Frame -> Prop) : Q tt f -> returns (out s) f Q.
Proof. auto. Qed.

Lemma returns_seq {A : Type} (m : M unit) (k : M A) f (Q : A -> Frame -> Prop) :
  returns m f (fun _ g => returns k g Q) -> returns (m;; k) f Q.
Proof. apply returns_bind. Qed.

(** A channel that was written was read from a stored colour whose
    component can be cast; the frame is not touched. *)
Lemma returns_out_channel x y k sep f (Q : unit -> Frame -> Prop) :
  (forall c, buffer f !! cell (WIDTH f) (of_i32 x) (of_i32 y) = Some c ->
             castable (k c) = true -> Q tt f) ->
  returns (out_channel x y k sep) f Q.
Proof.
  intros H. unfold out_channel.
  apply returns_bind, returns_getPixel. intros c Hc.
  apply returns_bind, returns_of_option. intros v Hv.
  apply returns_seq, returns_out, returns_out.
  apply (H c Hc). unfold castable. now rewrite Hv.
Qed.

Lemma returns_pixel_line x y f (Q : unit -> Frame -> Prop) :
  (forall c, buffer f !! cell (WIDTH f) (of_i32 x) (of_i32 y) = Some c ->
             exportable c = true -> Q tt f) ->
  returns (out_channel x y at0 " ";; out_channel x y at1 " ";; out_channel x y at2 endl) f Q.
Proof.
  intros H.
  apply returns_seq, returns_out_channel. intros c Hc H0.
  apply returns_seq, returns_out_channel. intros c1 Hc1 H1.
  apply returns_out_channel. intros c2 Hc2 H2.
  rewrite Hc in Hc1, Hc2. injection Hc1 as <-. injection Hc2 as <-.
  apply (H c Hc). unfold exportable. now rewrite H0, H1, H2.
Qed.

Lemma writeBuffer_unfold f :
  snd (writeBuffer f)
  = snd (for_i32_down (Z.to_nat (top_row (HEIGHT f) + 1)) (fun y =>
           for_i32_up (N.to_nat (WIDTH f)) 0 (fun x =>
             out_channel x y at0 " ";;
             out_channel x y at1 " ";;
             out_channel x y at2 endl)) f).
Proof.
  unfold writeBuffer. rewrite run_bind. unfold get_frame. cbn iota beta.
  now rewrite !run_out.
Qed.

(** [writeBuffer] never changes the frame. *)
Lemma writeBuffer_same_frame f : returns writeBuffer f (fun _ g => g = f).
Proof.
  unfold returns. rewrite writeBuffer_unfold.
  apply (returns_for_i32_down (fun _ g => g = f)); [reflexivity|].
  intros y g _ ->.
  eapply returns_weaken.
  - apply (returns_for_i32_up (fun _ g => g = f)); [reflexivity|].
    intros x g _ ->. now apply returns_pixel_line.
  - auto.
Qed.

Lemma writeBuffer_events (P : event -> Prop) f :
  (forall s, P (EvOut s)) -> (forall x y, P (EvGet x y)) ->
  Forall P (fst (writeBuffer f)).
Proof.
  intros Hout Hget. unfold writeBuffer.
  rewrite run_bind. unfold get_frame. cbn iota beta.
  match goal with |- Forall _ (fst (let '(l2, r) := ?m in _)) =>
    assert (Hm : Forall P (fst m)); [|destruct m; exact Hm] end.
  repeat (apply run_bind_log; [apply out_log; apply Hout|intros _ ?]).
  apply for_i32_down_log. intros y g Hy.
  apply for_i32_up_log. intros x g' Hx.
  repeat (apply run_bind_log; [apply out_channel_log; [apply Hget|apply Hout]|intros _ ?]).
  apply out_channel_log; [apply Hget|apply Hout].
Qed.

(** The column counter is an [int32_t]: a row of [2^31] pixels or more
    cannot be completed. *)
Lemma for_i32_up_overflow n x body f :
  0 <= x <= INT_MAX -> INT_MAX < x + Z.of_nat n ->
  snd (for_i32_up n x body f) = None.
Proof.
  revert x f; induction n as [|n IH]; intros x f Hx Hn; [lia|].
  cbn [for_i32_up]. rewrite run_seq.
  destruct (body x f) as [l1 [[u f1]|]]; [|reflexivity]. cbn [snd].
  rewrite run_bind. unfold incr_i32.
  destruct (Z.ltb_spec x INT_MAX) as [Hlt|Hge]; [|reflexivity].
  cbn. specialize (IH (x + 1) f1 ltac:(lia) ltac:(lia)).
  destruct (for_i32_up n (x + 1) body f1) as [l2 r]. exact IH.
Qed.

(** Every cell of a grid is the cell of a pixel. *)
Lemma cell_of_index width height i :
  (width * height < 2 ^ 32)%N -> (i < width * height)%N ->
  (i mod width < width)%N /\ (i / width < height)%N
  /\ cell width (i mod width) (i / width) = N.to_nat i.
Proof.
  intros HWH Hi.
  assert (Hw : (width <> 0)%N) by (intros ->; lia).
  pose proof (N.mod_upper_bound i width Hw) as Hx.
  pose proof (N.div_mod i width Hw) as Hd.
  assert (Hy : (i / width < height)%N) by (apply N.Div0.div_lt_upper_bound; lia).
  repeat split; try assumption.
  destruct (flat_index_small width height (i mod width) (i / width)) as [E _];
    try assumption.
  unfold cell. rewrite E. lia.
Qed.

Lemma all_pixels_exportable width height f :
  (width * height < 2 ^ 32)%N -> frame_inv width height f ->
  (forall x y, (x < width)%N -> (y < height)%N -> exportable (pixel_at f (x, y)) = true) ->
  forallb exportable (buffer f) = true.
Proof.
  intros HWH (HW & HH & HL) Hall.
  apply forallb_forall. intros c Hc.
  apply list_elem_of_In, list_elem_of_lookup_1 in Hc as [i Hi].
  pose proof (lookup_lt_Some _ _ _ Hi) as Hlt.
  destruct (cell_of_index width height (N.of_nat i)) as (Hx & Hy & E);
    [assumption|lia|].
  specialize (Hall _ _ Hx Hy). unfold pixel_at in Hall. cbn [fst snd] in Hall.
  rewrite HW, E, Nat2N.id, Hi in Hall. exact Hall.
Qed.

Section WriteBufferReturns.

Variables (width height : N) (f : Frame).
Hypothesis Hsize : (width * height < 2 ^ 32)%N.
Hypothesis Hinv : frame_inv width height f.
Hypothesis Hheight : Z.of_N height <= 2 ^ 31.

(** When [writeBuffer] returns, every stored colour could be cast. *)
Lemma writeBuffer_returns_exportable :
  returns writeBuffer f (fun _ _ => forallb exportable (buffer f) = true).
Proof.
  destruct Hinv as (HW & HH & HL).
  unfold returns. rewrite writeBuffer_unfold, HW, HH, rows_count by assumption.
  eapply returns_weaken.
  - apply (returns_for_i32_down
             (fun y g => g = f /\ forall x' y', (x' < width)%N ->
                           y <= Z.of_N y' < Z.of_N height ->
                           exportable (pixel_at f (x', y')) = true)).
    + split; [reflexivity|]. intros x' y' _ Hy'. lia.
    + intros y g Hy [-> Hrows].
      eapply returns_weaken.
      * apply (returns_for_i32_up
                 (fun x g => g = f /\ forall x', Z.of_N x' < x ->
                               exportable (pixel_at f (x', Z.to_N y)) = true)).
        -- split; [reflexivity|]. intros x' Hx'. lia.
        -- intros x g Hx [-> Hcols].
           apply returns_pixel_line. intros c Hc He.
           split; [reflexivity|]. intros x' Hx'.
           destruct (Z.eq_dec (Z.of_N x') x) as [<-|Hne]; [|apply Hcols; lia].
           unfold pixel_at. cbn [fst snd].
           assert (Hw32 : Z.of_N x' < 2 ^ 32) by nia.
           rewrite !of_i32_small, N2Z.id in Hc by lia. now rewrite Hc.
      * intros _ g [-> Hcols]. split; [reflexivity|].
        intros x' y' Hx' Hy'.
        destruct (Z.eq_dec (Z.of_N y') y) as [<-|Hne]; [|apply Hrows; lia].
        rewrite <- (N2Z.id y'). apply Hcols. lia.
  - intros _ g [-> Hall]. cbn beta.
    apply (all_pixels_exportable width height); try assumption.
    intros x y Hx Hy. apply Hall; lia.
Qed.

End WriteBufferReturns.

(** ** Rounding without the assumption that the result is finite *)

(** As [binary_round_aux_spec], with the overflow case: the rounded
    mantissa is stored at an exponent of at most [emax - prec = 104], or the
    result is an infinity. *)
Lemma binary_round_aux_cases s mz ez :
  let r := binary_round_aux prec emax s (Z.pos mz) ez loc_Exact in
  exists m'' E,
    0 <= m''
    /\ ((E = ez /\ m'' = Z.pos mz)
        \/ (ez < E /\ E = fexp prec emax (Z.pos (digits2_pos mz) + ez)
            /\ 2 * Z.abs (m'' * 2 ^ (E - ez) - Z.pos mz) <= 2 ^ (E - ez)))
    /\ ((m'' = 0 /\ r = S754_zero s)
        \/ exists mf ef,
             E <= ef /\ Z.pos mf * 2 ^ (ef - E) = m''
             /\ (ez <= fexp prec emax (Z.pos (digits2_pos mz) + ez) ->
                 fexp prec emax (Z.pos (digits2_pos mf) + ef) = ef)
             /\ ((ef <= 104 /\ r = S754_finite s mf ef)
                 \/ (104 < ef /\ r = S754_infinity s))).
Proof.
  cbn zeta. unfold binary_round_aux.
  rewrite shr_fexp_exact by lia. cbn [Zdigits2].
  set (d := Z.pos (digits2_pos mz)).
  destruct (digits2_pos_bounds mz) as [Hlo Hhi]. fold d in Hlo, Hhi.
  assert (Hd : 1 <= d) by (unfold d; lia).
  assert (Hfit : forall mf ef,
             (ef <= 104 /\ (if ef <=? emax - prec then S754_finite s mf ef
                            else S754_infinity s) = S754_finite s mf ef)
             \/ (104 < ef /\ (if ef <=? emax - prec then S754_finite s mf ef
                              else S754_infinity s) = S754_infinity s)).
  { intros mf ef. unfold emax, prec.
    destruct (Z.leb_spec ef (128 - 24)); [left|right]; split; (lia || reflexivity). }
  destruct (Z.ltb_spec 0 (fexp prec emax (d + ez) - ez)) as [Hn|Hn].
  - (* something is shifted out *)
    set (E := fexp prec emax (d + ez)) in *.
    set (n := E - ez) in *.
    destruct (round_shifted (Z.pos mz) n ltac:(lia) ltac:(lia)) as [Herr Hq].
    cbn zeta in Herr, Hq.
    set (mrs := Nat.iter (Z.to_nat n) shr_1
                  {| shr_m := Z.pos mz; shr_r := false; shr_s := false |}) in *.
    set (m'' := round_nearest_even (shr_m mrs) (loc_of_shr_record mrs)) in *.
    assert (Hq0 : 0 <= Z.pos mz / 2 ^ n) by (apply Z.div_pos; lia).
    assert (Hm'' : 0 <= m'') by lia.
    assert (Hpn : 0 < 2 ^ n) by (apply Z.pow_pos_nonneg; lia).
    rewrite shr_fexp_exact by assumption.
    assert (HE : E = Z.max (d + ez - 24) (-149)) by (unfold E; apply fexp_eq).
    destruct (Z.le_gt_cases (-149) (d + ez - 24)) as [Hnorm|Hsub].
    + (* the result is in the normal range *)
      assert (En : n = d - 24) by lia.
      assert (Hq23 : 2 ^ 23 <= Z.pos mz / 2 ^ n).
      { apply Z.div_le_lower_bound; [lia|].
        rewrite <- Z.pow_add_r by lia. replace (n + 23) with (d - 1) by lia. exact Hlo. }
      assert (Hq24 : Z.pos mz / 2 ^ n < 2 ^ 24).
      { apply Z.div_lt_upper_bound; [lia|].
        rewrite <- Z.pow_add_r by lia. replace (n + 24) with d by lia. exact Hhi. }
      destruct (Z.eq_dec m'' (2 ^ 24)) as [Ecarry|Hnc].
      * (* the rounding carried into a new digit *)
        rewrite Ecarry. change (Zdigits2 (2 ^ 24)) with 25.
        rewrite fexp_eq.
        destruct (Z.ltb_spec 0 (Z.max (25 + E - 24) (-149) - E)) as [_|Hc]; [|lia].
        replace (Z.max (25 + E - 24) (-149) - E) with 1 by lia.
        replace (Z.max (25 + E - 24) (-149)) with (E + 1) by lia.
        cbn [Z.to_nat Pos.to_nat Pos.iter_op Nat.iter Nat.add].
        change (shr_m (shr_1 {| shr_m := 2 ^ 24; shr_r := false; shr_s := false |}))
          with (Z.pos 8388608).
        cbn iota.
        exists m'', E. split; [exact Hm''|]. split.
        -- right. fold n. repeat split; [lia|exact Herr].
        -- right. exists 8388608%positive, (E + 1). split; [lia|]. split; [|split; [|apply Hfit]].
           ++ replace (E + 1 - E) with 1 by lia. rewrite Ecarry. reflexivity.
           ++ intros _. rewrite fexp_eq.
              change (Z.pos (digits2_pos 8388608)) with 24. lia.
      * assert (Hd24 : Zdigits2 m'' = 24).
        { pose proof (Zdigits2_le m'' 24 ltac:(lia) ltac:(lia)).
          pose proof (Zdigits2_gt m'' 23 ltac:(lia) ltac:(lia)). lia. }
        rewrite Hd24, fexp_eq.
        destruct (Z.ltb_spec 0 (Z.max (24 + E - 24) (-149) - E)) as [Hc|_]; [lia|].
        cbn [shr_m].
        destruct m'' as [|mf|mf] eqn:Em; [lia| |lia].
        exists (Z.pos mf), E. split; [lia|]. split.
        -- right. fold n. repeat split; [lia|exact Herr].
        -- right. exists mf, E. split; [lia|]. split; [|split; [|apply Hfit]].
           ++ rewrite Z.sub_diag. cbn. lia.
           ++ intros _. rewrite fexp_eq. cbn [Zdigits2] in Hd24. lia.
    + (* the result is subnormal *)
      assert (EE : E = -149) by lia.
      assert (Hq23 : Z.pos mz / 2 ^ n < 2 ^ 23).
      { apply Z.div_lt_upper_bound; [lia|].
        rewrite <- Z.pow_add_r by lia.
        apply Z.lt_le_trans with (1 := Hhi). apply Z.pow_le_mono_r; lia. }
      pose proof (Zdigits2_le m'' 24 ltac:(lia) ltac:(lia)) as Hd24.
      assert (Hd0 : 0 <= Zdigits2 m'') by (destruct m''; cbn; lia).
      rewrite fexp_eq.
      destruct (Z.ltb_spec 0 (Z.max (Zdigits2 m'' + E - 24) (-149) - E)) as [Hc|_]; [lia|].
      cbn [shr_m].
      destruct m'' as [|mf|mf] eqn:Em; [| |lia].
      * exists 0, E. split; [lia|]. split.
        -- right. fold n. repeat split; [lia|exact Herr].
        -- left. split; reflexivity.
      * exists (Z.pos mf), E. split; [lia|]. split.
        -- right. fold n. repeat split; [lia|exact Herr].
        -- right. exists mf, E. split; [lia|]. split; [|split; [|apply Hfit]].
           ++ rewrite Z.sub_diag. cbn. lia.
           ++ intros _. rewrite fexp_eq. cbn [Zdigits2] in Hd24. lia.
  - (* nothing is shifted out *)
    cbn [shr_m loc_of_shr_record round_nearest_even].
    rewrite shr_fexp_exact by lia. cbn [Zdigits2]. fold d.
    destruct (Z.ltb_spec 0 (fexp prec emax (d + ez) - ez)) as [Hc|_]; [lia|].
    cbn [shr_m].
    exists (Z.pos mz), ez. split; [lia|]. split.
    + left. split; reflexivity.
    + right. exists mz, ez. split; [lia|]. split; [|split; [|apply Hfit]].
      * rewrite Z.sub_diag. cbn. lia.
      * fold d. lia.
Qed.

Section RoundCases.

Local Open Scope Q_scope.

(** The rounded value, whether or not it fits: the result is a zero, a
    finite float or an infinity of the sign [s]; the value [v] it stands for
    (for an infinity, a value of magnitude [2^105] or more that did not fit)
    is within the roundoff of the exact one. *)
Lemma round_aux_value s mz ez :
  let r := binary_round_aux prec emax s (Z.pos mz) ez loc_Exact in
  exists v,
    Qabs (v - Qval s (Z.pos mz) ez)
      <= unit_roundoff * Qabs (Qval s (Z.pos mz) ez) + half_min
    /\ ((exists q, to_Q r = Some q /\ q == v
                   /\ (r = S754_zero s \/ exists mf ef, r = S754_finite s mf ef))
        \/ (r = S754_infinity s /\ 2 ^ 105 <= Qabs v)).
Proof.
  cbn zeta.
  destruct (binary_round_aux_cases s mz ez) as (m'' & E & Hm'' & Hcase & Hres).
  exists (Qval s m'' E). split.
  - destruct Hcase as [[-> ->]|(Hlt & HE & Herr)].
    + now apply exact_within.
    + apply Qle_trans with (2 ^ (E - 1)).
      * now apply Qval_distance.
      * rewrite HE. apply half_ulp_bound.
  - assert (Hshift : forall mf ef, (E <= ef)%Z ->
              Qval s (Z.pos mf * 2 ^ (ef - E)) E == Qval s (Z.pos mf) ef).
    { intros mf ef Hle. rewrite Qval_shift by lia.
      now replace (E + (ef - E))%Z with ef by lia. }
    destruct Hres as [[-> ->]|(mf & ef & Hle & <- & _ & [[Hfit ->]|[Hov ->]])].
    + left. exists 0. split; [reflexivity|]. split; [now rewrite Qval_zero|now left].
    + left. eexists. split; [reflexivity|]. split; [now rewrite Hshift|right; eauto].
    + right. split; [reflexivity|].
      rewrite Hshift, Qabs_Qval by assumption. cbn [Z.abs].
      apply Qle_trans with (1 * 2 ^ ef).
      * rewrite Qmult_1_l. rewrite !pow2_Z by lia. rewrite <- Zle_Qle.
        apply Z.pow_le_mono_r; lia.
      * apply Qmult_le_compat_r; [|apply Qlt_le_weak, pow2_pos].
        change 1 with (inject_Z 1). rewrite <- Zle_Qle. lia.
Qed.

(** A rounding whose exact value is below [2^100] does not overflow. *)
Lemma round_aux_small s mz ez :
  Qabs (Qval s (Z.pos mz) ez) <= 2 ^ 100 ->
  let r := binary_round_aux prec emax s (Z.pos mz) ez loc_Exact in
  exists q, to_Q r = Some q
            /\ Qabs (q - Qval s (Z.pos mz) ez)
               <= unit_roundoff * Qabs (Qval s (Z.pos mz) ez) + half_min
            /\ (r = S754_zero s \/ exists mf ef, r = S754_finite s mf ef).
Proof.
  intros Hsmall. cbn zeta.
  destruct (round_aux_value s mz ez) as (v & Herr & [(q & Eq & Hq & Hshape)|[_ Hbig]]).
  - exists q. split; [exact Eq|]. split; [now rewrite Hq|exact Hshape].
  - exfalso. revert Herr Hbig Hsmall.
    set (x := Qval s (Z.pos mz) ez). intros Herr Hbig Hsmall.
    pose proof (Qabs_triangle (v - x) x) as Htri.
    assert (Ev : v - x + x == v) by ring. rewrite Ev in Htri.
    assert (H1 : unit_roundoff <= 1) by (unfold unit_roundoff; now vm_compute).
    assert (H2 : half_min <= 1) by (unfold half_min; now vm_compute).
    assert (H3 : 0 <= unit_roundoff) by (unfold unit_roundoff; now vm_compute).
    assert (H4 : 2 * 2 ^ 100 + 1 < 2 ^ 105) by now vm_compute.
    pose proof (Qabs_nonneg x) as H5.
    assert (H6 : unit_roundoff * Qabs x <= 1 * Qabs x)
      by (apply Qmult_le_compat_r; assumption).
    lra.
Qed.

End RoundCases.

(** ** The channel of a component between 0 and 1 *)

Section ChannelRange.

Local Open Scope Q_scope.

Lemma Qval_mono m m' e : (m <= m')%Z -> Qval false m e <= Qval false m' e.
Proof.
  intros H. unfold Qval; cbn [cond_Zopp].
  apply Qmult_le_compat_r; [now rewrite <- Zle_Qle|apply Qlt_le_weak, pow2_pos].
Qed.

Lemma Qval_int m : Qval false m 0 == inject_Z m.
Proof. unfold Qval; cbn [cond_Zopp]. change (2 ^ 0) with 1. ring. Qed.

(** Truncation does not exceed the value of a positive float. *)
Lemma trunc_positive mf ef :
  (0 <= Z.shiftl (Z.pos mf) ef)%Z
  /\ inject_Z (Z.shiftl (Z.pos mf) ef) <= Qval false (Z.pos mf) ef.
Proof.
  split; [apply Z.shiftl_nonneg; lia|].
  destruct (Z.le_gt_cases 0 ef) as [Hpos|Hneg].
  - rewrite Z.shiftl_mul_pow2 by assumption.
    rewrite <- Qval_int, Qval_shift by assumption. apply Qle_refl.
  - rewrite Z.shiftl_div_pow2 by lia.
    set (k := (- ef)%Z). assert (Hk : (0 < k)%Z) by (unfold k; lia).
    rewrite <- Qval_int.
    assert (E : Qval false (Z.pos mf / 2 ^ k) 0 == Qval false (Z.pos mf / 2 ^ k * 2 ^ k) ef).
    { rewrite Qval_shift by lia. now replace (ef + k)%Z with 0%Z by (unfold k; lia). }
    rewrite E. apply Qval_mono.
    assert (Hp : (0 < 2 ^ k)%Z) by (apply Z.pow_pos_nonneg; lia).
    pose proof (Z.mul_div_le (Z.pos mf) (2 ^ k) Hp). lia.
Qed.

Lemma times_255 m e :
  Qval false (Z.pos (m * 16711680)) (e + -16) == Qval false (Z.pos m) e * 255.
Proof.
  unfold Qval; cbn [cond_Zopp].
  rewrite Pos2Z.inj_mul, inject_Z_mult, pow2_add.
  assert (E : inject_Z (Z.pos 16711680) * 2 ^ (-16) == 255) by reflexivity.
  rewrite <- E. ring.
Qed.

Lemma channel_in_range c q :
  to_Q c = Some q -> 0 <= q -> q <= 1 ->
  exists z, to_int (mul c (of_Z 255)) = Some z /\ (0 <= z <= 255)%Z.
Proof.
  intros Eq H0 H1.
  destruct c as [s| | |s m e]; try discriminate.
  - exists 0%Z. split; [now destruct s|lia].
  - injection Eq as <-.
    destruct s.
    { exfalso. unfold Qval in H0; cbn [cond_Zopp] in H0.
      pose proof (pow2_pos e) as Hp.
      assert (Hm : inject_Z (- Z.pos m) <= -1).
      { change (-1) with (inject_Z (-1)). rewrite <- Zle_Qle. lia. }
      nra. }
    change (mul (S754_finite false m e) (of_Z 255))
      with (binary_round_aux prec emax false (Z.pos (m * 16711680)) (e + -16) loc_Exact).
    pose proof (times_255 m e) as Ex.
    assert (Hx0 : 0 <= Qval false (Z.pos (m * 16711680)) (e + -16)) by (rewrite Ex; nra).
    assert (Hsmall : Qabs (Qval false (Z.pos (m * 16711680)) (e + -16)) <= 2 ^ 100).
    { rewrite Qabs_pos by assumption. rewrite Ex.
      apply Qle_trans with 255; [nra|now vm_compute]. }
    destruct (round_aux_small false (m * 16711680) (e + -16) Hsmall)
      as (q' & Eq' & Herr & [Hz|(mf & ef & Hf)]).
    + rewrite Hz. exists 0%Z. split; [reflexivity|lia].
    + rewrite Hf in Eq' |- *. cbn [to_Q] in Eq'. injection Eq' as <-.
      destruct (trunc_positive mf ef) as [Ht0 Ht1].
      exists (Z.shiftl (Z.pos mf) ef).
      assert (Hlt : inject_Z (Z.shiftl (Z.pos mf) ef) < 256).
      { rewrite (Qabs_pos _ Hx0) in Herr.
        rewrite Ex in Herr.
        apply Qabs_Qle_condition in Herr as [_ Herr].
        assert (Hu : unit_roundoff * 255 + half_min < 1) by now vm_compute.
        assert (H3 : 0 <= unit_roundoff) by (unfold unit_roundoff; now vm_compute).
        nra. }
      change 256 with (inject_Z 256) in Hlt. rewrite <- Zlt_Qlt in Hlt.
      split; [|lia].
      unfold to_int, trunc; cbn [cond_Zopp].
      destruct (Z.leb_spec (- 2 ^ 31) (Z.shiftl (Z.pos mf) ef)); [|lia].
      destruct (Z.ltb_spec (Z.shiftl (Z.pos mf) ef) (2 ^ 31)); [|lia].
      reflexivity.
Qed.

End ChannelRange.

(** ** The operations return well-formed binary32 data *)

Lemma valid_finite s m e :
  valid (S754_finite s m e) = true
  <-> fexp prec emax (Z.pos (digits2_pos m) + e) = e /\ e <= 104.
Proof.
  unfold valid, valid_binary, bounded, canonical_mantissa.
  rewrite andb_true_iff, Z.eqb_eq, Z.leb_le. unfold emax, prec. lia.
Qed.

Lemma round_aux_valid s mz ez :
  ez <= fexp prec emax (Z.pos (digits2_pos mz) + ez) ->
  valid (binary_round_aux prec emax s (Z.pos mz) ez loc_Exact) = true.
Proof.
  intros Hez.
  destruct (binary_round_aux_cases s mz ez)
    as (m'' & E & _ & _ & [[_ ->]|(mf & ef & _ & _ & Hcan & [[Hfit ->]|[_ ->]])]);
    try reflexivity.
  apply valid_finite. auto.
Qed.

Lemma digits2_pos_iter_xO m d :
  Z.pos (digits2_pos (Pos.iter xO m d)) = Z.pos (digits2_pos m) + Z.pos d.
Proof.
  induction d as [|d IH] using Pos.peano_ind.
  - cbn [Pos.iter]. rewrite digits2_pos_xO. lia.
  - rewrite Pos.iter_succ, digits2_pos_xO, IH. lia.
Qed.

Lemma binary_round_valid s mx ex : valid (binary_round prec emax s mx ex) = true.
Proof.
  unfold binary_round.
  set (E := fexp prec emax (Z.pos (digits2_pos mx) + ex)).
  assert (H : let '(mz, ez) := shl_align mx ex E in
              ez <= fexp prec emax (Z.pos (digits2_pos mz) + ez)).
  { unfold shl_align. destruct (E - ex) as [|d|d] eqn:Ed.
    - fold E. lia.
    - fold E. lia.
    - change (PosDef.Pos.iter xO mx d) with (Pos.iter xO mx d).
      rewrite digits2_pos_iter_xO.
      replace (Z.pos (digits2_pos mx) + Z.pos d + E)
        with (Z.pos (digits2_pos mx) + ex) by lia.
      fold E. lia. }
  destruct (shl_align mx ex E) as [mz ez]. now apply round_aux_valid.
Qed.

Lemma binary_normalize_valid m e sz : valid (binary_normalize prec emax m e sz) = true.
Proof. destruct m; [reflexivity|apply binary_round_valid..]. Qed.

Lemma add_valid x y : valid x = true -> valid y = true -> valid (add x y) = true.
Proof.
  intros Hx Hy.
  destruct x as [sx|sx| |sx mx ex], y as [sy|sy| |sy my ey];
    unfold add; cbn [SFadd]; try reflexivity; try assumption;
    try (destruct sx, sy; reflexivity).
  apply binary_normalize_valid.
Qed.

Lemma sub_valid x y : valid x = true -> valid y = true -> valid (sub x y) = true.
Proof.
  intros Hx Hy.
  destruct x as [sx|sx| |sx mx ex], y as [sy|sy| |sy my ey];
    unfold sub; cbn [SFsub]; try reflexivity; try assumption;
    try (destruct sx, sy; reflexivity).
  apply binary_normalize_valid.
Qed.

Lemma digits2_pos_mul_ge mx my :
  Z.pos (digits2_pos mx) + Z.pos (digits2_pos my) - 1 <= Z.pos (digits2_pos (mx * my)).
Proof.
  destruct (digits2_pos_bounds mx) as [Hx _], (digits2_pos_bounds my) as [Hy _].
  set (dx := Z.pos (digits2_pos mx)) in *. set (dy := Z.pos (digits2_pos my)) in *.
  assert (Hdx : 1 <= dx) by (unfold dx; lia). assert (Hdy : 1 <= dy) by (unfold dy; lia).
  assert (Hp : 2 ^ (dx + dy - 2) <= Z.pos (mx * my)).
  { replace (dx + dy - 2) with ((dx - 1) + (dy - 1)) by lia.
    rewrite Z.pow_add_r by lia. rewrite Pos2Z.inj_mul.
    apply Z.mul_le_mono_nonneg; try assumption; apply Z.pow_nonneg; lia. }
  pose proof (Zdigits2_gt (Z.pos (mx * my)) (dx + dy - 2) Hp ltac:(lia)) as H.
  cbn [Zdigits2] in H. lia.
Qed.

Lemma mul_valid x y : valid x = true -> valid y = true -> valid (mul x y) = true.
Proof.
  intros Hx Hy.
  destruct x as [sx|sx| |sx mx ex], y as [sy|sy| |sy my ey];
    unfold mul; cbn [SFmul]; try reflexivity.
  apply valid_finite in Hx as [Hcx _], Hy as [Hcy _].
  apply round_aux_valid.
  pose proof (digits2_pos_mul_ge mx my) as Hd.
  rewrite fexp_eq in *. lia.
Qed.

(** ** The raster loop on arbitrary frames, and the order of its writes *)

Lemma step_events_shape tri x y : Forall div_or_set (step_events tri x y).
Proof.
  unfold step_events.
  destruct (intersect_events tri x y) as (n1 & n2 & n3 & -> & _).
  apply Forall_app; split.
  - repeat constructor.
  - destruct (covered _); repeat constructor.
Qed.

Lemma returns_pixel_step tri x y f (Q : unit -> Frame -> Prop) :
  Q tt f ->
  (forall i c, (i < length (buffer f))%nat -> Q tt (set_cell f i c)) ->
  returns (pixel_step tri x y) f Q.
Proof.
  intros Hskip Hset. unfold returns. rewrite pixel_step_run. cbn [snd].
  destruct (covered _); [|exact Hskip].
  destruct (decide _) as [Hlt|]; [|exact I].
  unfold step_frame. destruct (covered _); [|exact Hskip]. now apply Hset.
Qed.

(** The raster loop keeps the shape of the frame. *)
Lemma raster_same_shape tri f :
  returns (raster tri) f
          (fun _ g => WIDTH g = WIDTH f /\ HEIGHT g = HEIGHT f
                      /\ length (buffer g) = length (buffer f)).
Proof.
  unfold raster. apply returns_bind. unfold returns at 1, get_frame. cbn [snd].
  unfold for_u32.
  pose proof (returns_for_up
                (fun _ g => WIDTH g = WIDTH f /\ HEIGHT g = HEIGHT f
                            /\ length (buffer g) = length (buffer f))
                (N.to_nat (HEIGHT f)) 0%N
                (fun y => for_up (N.to_nat (WIDTH f)) 0%N (fun x => pixel_step tri x y))
                f) as Hrows.
  cbn beta in Hrows. apply Hrows; [auto|]. clear Hrows.
  intros y g _ Hg.
  pose proof (returns_for_up
                (fun _ g => WIDTH g = WIDTH f /\ HEIGHT g = HEIGHT f
                            /\ length (buffer g) = length (buffer f))
                (N.to_nat (WIDTH f)) 0%N (fun x => pixel_step tri x y) g) as Hcols.
  cbn beta in Hcols. apply Hcols; [exact Hg|]. clear Hcols.
  intros x g' _ Hg'. apply returns_pixel_step; [exact Hg'|].
  intros i c _. destruct Hg' as (HW & HH & HL).
  repeat split; cbn [WIDTH HEIGHT set_cell]; try assumption.
  now rewrite set_cell_length.
Qed.

Lemma writes_app l1 l2 : writes (l1 ++ l2) = writes l1 ++ writes l2.
Proof.
  induction l1 as [|e l1 IH]; [reflexivity|].
  destruct e; cbn [app writes]; now rewrite IH.
Qed.

Lemma divisions_app l1 l2 : divisions (l1 ++ l2) = (divisions l1 + divisions l2)%nat.
Proof.
  induction l1 as [|e l1 IH]; [reflexivity|].
  destruct e; cbn [app divisions]; now rewrite IH.
Qed.

Lemma step_events_writes tri x y :
  writes (step_events tri x y) = if covered (hit tri x y) then [(x, y)] else [].
Proof.
  unfold step_events.
  destruct (intersect_events tri x y) as (n1 & n2 & n3 & -> & _).
  destruct (covered _); reflexivity.
Qed.

Lemma step_events_divisions tri x y : divisions (step_events tri x y) = 3%nat.
Proof.
  unfold step_events.
  destruct (intersect_events tri x y) as (n1 & n2 & n3 & -> & _).
  destruct (covered _); reflexivity.
Qed.

Lemma raster_events_writes tri width height :
  writes (raster_events tri width height)
  = filter (fun p => covered (hit tri (fst p) (snd p))) (pixels width height).
Proof.
  unfold raster_events.
  induction (pixels width height) as [|[x y] l IH]; [reflexivity|].
  cbn [flat_map fst snd]. rewrite writes_app, step_events_writes, IH.
  rewrite filter_cons. cbn [fst snd].
  destruct (covered (hit tri x y)); reflexivity.
Qed.

Lemma raster_events_divisions tri width height :
  divisions (raster_events tri width height) = (3 * length (pixels width height))%nat.
Proof.
  unfold raster_events.
  induction (pixels width height) as [|[x y] l IH]; [reflexivity|].
  cbn [flat_map fst snd length]. rewrite divisions_app, step_events_divisions, IH. lia.
Qed.

Lemma Nseq_length i n : length (Nseq i n) = n.
Proof. revert i; induction n as [|n IH]; intros i; cbn; [reflexivity|now rewrite IH]. Qed.

Lemma pixels_length width height :
  length (pixels width height) = (N.to_nat height * N.to_nat width)%nat.
Proof.
  unfold pixels.
  rewrite <- (Nseq_length 0 (N.to_nat height)) at 2.
  induction (Nseq 0 (N.to_nat height)) as [|y l IH]; [reflexivity|].
  cbn [flat_map length]. rewrite length_app, IH.
  unfold row_pixels. rewrite length_map, Nseq_length. lia.
Qed.

(** ** The whole program: raster loop, then export *)

Lemma emitted_div_or_set l : Forall div_or_set l -> emitted l = "".
Proof.
  induction 1 as [|e l He _ IH]; [reflexivity|].
  destruct e; cbn [div_or_set] in He; try contradiction; exact IH.
Qed.

Lemma scan_order_In width height x y :
  In (x, y) (scan_order width height) <-> (x < width)%N /\ (y < height)%N.
Proof.
  unfold scan_order, row_pixels. rewrite in_flat_map. split.
  - intros (y' & Hy' & Hx). apply in_map_iff in Hx as (x' & E & Hx').
    inversion E; subst. apply in_rev, Nseq_In in Hy'. apply Nseq_In in Hx'. lia.
  - intros [Hx Hy]. exists y. split.
    + apply in_rev. rewrite rev_involutive. apply Nseq_In. lia.
    + apply in_map_iff. exists x. split; [reflexivity|]. apply Nseq_In. lia.
Qed.

Section Run.

Variables (width height : N) (fill : vec3) (tri : Triangle).
Hypothesis Hsize : (width * height < 2 ^ 32)%N.

Local Abbreviation image := (raster_frame tri (Frame_new width height fill)).

Lemma image_inv : frame_inv width height image.
Proof. apply frame_inv_frame. now apply frame_inv_new. Qed.

(** The frame after the raster loop, pixel by pixel. *)
Lemma image_pixel_at x y :
  (x < width)%N -> (y < height)%N ->
  buffer image !! cell width x y = Some (image_pixel fill tri (x, y)).
Proof.
  intros Hx Hy. unfold image_pixel; cbn [fst snd].
  pose proof (frame_inv_new width height Hsize fill) as Hinv.
  destruct (covered (hit tri x y)) eqn:Ec.
  - now apply (raster_frame_covered width height tri Hsize).
  - rewrite (raster_frame_not_covered width height tri Hsize) by assumption.
    now apply fresh_cell.
Qed.

Lemma pixel_at_image x y :
  (x < width)%N -> (y < height)%N ->
  pixel_at image (x, y) = image_pixel fill tri (x, y).
Proof.
  intros Hx Hy. unfold pixel_at. cbn [fst snd].
  destruct image_inv as (-> & _ & _). now rewrite image_pixel_at.
Qed.

Lemma run_unfold :
  run width height fill tri
  = (raster_events tri width height ++ fst (writeBuffer image), snd (writeBuffer image)).
Proof.
  unfold run. rewrite run_seq.
  change (raster tri (Frame_new width height fill)) with (rasterize width height fill tri).
  now rewrite (rasterize_run width height tri Hsize).
Qed.

Lemma raster_events_silent : emitted (raster_events tri width height) = "".
Proof.
  apply emitted_div_or_set. unfold raster_events.
  apply List.Forall_forall. intros e He. apply in_flat_map in He as ([x y] & _ & He).
  pose proof (step_events_shape tri x y) as Hs.
  rewrite List.Forall_forall in Hs. now apply Hs.
Qed.

End Run.

(** ** Loops whose iterations do nothing *)

Lemma for_up_skip n i body f :
  (forall j, body j f = ([], Some (tt, f))) -> for_up n i body f = ([], Some (tt, f)).
Proof.
  intros Hb. revert i; induction n as [|n IH]; intros i; cbn [for_up]; [reflexivity|].
  now rewrite run_seq, Hb, IH.
Qed.

Lemma for_i32_down_skip n body f :
  (forall y, body y f = ([], Some (tt, f))) -> for_i32_down n body f = ([], Some (tt, f)).
Proof.
  intros Hb. induction n as [|n IH]; cbn [for_i32_down]; [reflexivity|].
  now rewrite run_seq, Hb, IH.
Qed.

Lemma top_row_zero : Z.to_nat (top_row 0 + 1) = 0%nat.
Proof. reflexivity. Qed.

Lemma raster_empty tri f :
  WIDTH f = 0%N \/ HEIGHT f = 0%N -> raster tri f = ([], Some (tt, f)).
Proof.
  intros He. unfold raster. rewrite run_bind. unfold get_frame. cbn iota beta.
  unfold for_u32.
  destruct He as [-> | ->].
  - rewrite for_up_skip; [reflexivity|]. intros y. reflexivity.
  - reflexivity.
Qed.

Lemma writeBuffer_empty f :
  WIDTH f = 0%N \/ HEIGHT f = 0%N ->
  writeBuffer f = (header_events (WIDTH f) (HEIGHT f), Some (tt, f)).
Proof.
  intros He. unfold writeBuffer. rewrite run_bind. unfold get_frame. cbn iota beta.
  rewrite !run_out.
  assert (E : for_i32_down (Z.to_nat (top_row (HEIGHT f) + 1))
                (fun y => for_i32_up (N.to_nat (WIDTH f)) 0
                            (fun x => out_channel x y at0 " ";;
                                      out_channel x y at1 " ";;
                                      out_channel x y at2 endl)) f
              = ([], Some (tt, f))).
  { destruct He as [-> | ->].
    - apply for_i32_down_skip. intros y. reflexivity.
    - rewrite top_row_zero. reflexivity. }
  rewrite E. reflexivity.
Qed.

(** ** The reads of the export, and a second raster run *)

Lemma reads_app l1 l2 : reads (l1 ++ l2) = reads l1 ++ reads l2.
Proof.
  induction l1 as [|e l1 IH]; [reflexivity|].
  destruct e; cbn [app reads]; now rewrite IH.
Qed.

Lemma reads_flat_map {A : Type} (ev : A -> list event) (l : list A) :
  reads (flat_map ev l) = flat_map (fun a => reads (ev a)) l.
Proof.
  induction l as [|a l IH]; [reflexivity|].
  cbn [flat_map]. now rewrite reads_app, IH.
Qed.

Lemma raster_frame_idem width height tri g :
  (width * height < 2 ^ 32)%N -> frame_inv width height g ->
  raster_frame tri (raster_frame tri g) = raster_frame tri g.
Proof.
  intros HWH Hg.
  pose proof (frame_inv_frame width height tri g Hg) as Hg1.
  pose proof (frame_inv_frame width height tri _ Hg1) as Hg2.
  destruct Hg1 as (W1 & H1 & L1). destruct Hg2 as (W2 & H2 & L2).
  assert (Eb : buffer (raster_frame tri (raster_frame tri g))
               = buffer (raster_frame tri g)).
  { apply list_eq. intros i.
    destruct (Nat.lt_ge_cases i (N.to_nat (width * height))) as [Hlt|Hge].
    - destruct (cell_of_index width height (N.of_nat i)) as (Hx & Hy & E);
        [assumption|lia|].
      rewrite Nat2N.id in E. rewrite <- E.
      destruct (covered (hit tri (N.of_nat i mod width) (N.of_nat i / width))) eqn:Ec.
      + rewrite !(raster_frame_covered width height tri HWH); try assumption;
          try reflexivity; repeat split; assumption.
      + rewrite (raster_frame_not_covered width height tri HWH (raster_frame tri g));
          try assumption; try reflexivity. repeat split; assumption.
    - rewrite !lookup_ge_None_2 by lia. reflexivity. }
  destruct (raster_frame tri (raster_frame tri g)) as [w2 h2 b2].
  destruct (raster_frame tri g) as [w1 h1 b1].
  cbn [WIDTH HEIGHT buffer] in *. now subst.
Qed.

(** ** Numbers up to the sign of zero *)

Lemma same_number_sym x y : same_number x y = true -> same_number y x = true.
Proof.
  intros H. destruct (same_number_inv x y H) as [->|[Hx Hy]].
  - apply same_number_refl.
  - now apply same_number_zeros.
Qed.

Lemma same_number_trans x y z :
  same_number x y = true -> same_number y z = true -> same_number x z = true.
Proof.
  intros H1 H2.
  destruct (same_number_inv x y H1) as [->|[Hx Hy]]; [exact H2|].
  destruct (same_number_inv y z H2) as [<-|[_ Hz]]; [exact H1|].
  now apply same_number_zeros.
Qed.

Lemma is_zero_neg x : is_zero (neg x) = is_zero x.
Proof. now destruct x. Qed.

Lemma same_number_neg x y :
  same_number x y = true -> same_number (neg x) (neg y) = true.
Proof.
  intros H. destruct (same_number_inv x y H) as [->|[Hx Hy]].
  - apply same_number_refl.
  - apply same_number_zeros; now rewrite is_zero_neg.
Qed.

Lemma same_number_nan x y :
  same_number x y = true -> is_nan x = is_nan y.
Proof.
  intros H. destruct (same_number_inv x y H) as [->|[Hx Hy]]; [reflexivity|].
  destruct x, y; try discriminate; reflexivity.
Qed.

(** Adding a zero changes nothing but, possibly, the sign of a zero. *)
Lemma add_zero_r_same x z : is_zero z = true -> same_number (add x z) x = true.
Proof.
  destruct z as [sz| | |]; try discriminate; intros _.
  destruct x as [sx|sx| |sx mx ex]; try apply same_number_refl.
  now destruct sx, sz.
Qed.

Lemma add_zero_l_same z y : is_zero z = true -> same_number (add z y) y = true.
Proof. intros Hz. rewrite add_comm. now apply add_zero_r_same. Qed.

Lemma add_same_number_r x y y' :
  same_number y y' = true -> same_number (add x y) (add x y') = true.
Proof.
  intros H. destruct (same_number_inv y y' H) as [->|[Hy Hy']].
  - apply same_number_refl.
  - apply same_number_trans with x.
    + now apply add_zero_r_same.
    + apply same_number_sym. now apply add_zero_r_same.
Qed.

Lemma add_same_number x x' y y' :
  same_number x x' = true -> same_number y y' = true ->
  same_number (add x y) (add x' y') = true.
Proof.
  intros Hx Hy. apply same_number_trans with (add x y').
  - now apply add_same_number_r.
  - rewrite (add_comm x y'), (add_comm x' y'). now apply add_same_number_r.
Qed.

Lemma sub_add_neg x y : sub x y = add x (neg y).
Proof.
  destruct x as [sx|sx| |sx mx ex], y as [sy|sy| |sy my ey];
    unfold sub, add, neg; cbn [SFsub SFadd SFopp];
    try reflexivity; destruct sx, sy; reflexivity.
Qed.

(** Comparisons do not see the sign of a zero. *)
Lemma leb_same_number x x' y : same_number x x' = true -> leb x y = leb x' y.
Proof.
  intros H. destruct (same_number_inv x x' H) as [->|[Hx Hx']]; [reflexivity|].
  destruct x, x'; try discriminate. now destruct y.
Qed.

(** A number above [eps1] has an opposite below it. *)
Lemma leb_neg_eps1 a : is_nan a = false -> leb a eps1 = false -> leb (neg a) eps1 = true.
Proof.
  destruct a as [s|s| |s m e]; intros Hn H; try discriminate;
    destruct s; try reflexivity; now vm_compute in H.
Qed.

(** ** The determinant and the winding of the triangle *)

Section Determinant.

Variables u v : vec3.
Hypothesis Hu : vfinite u = true.
Hypothesis Hv : vfinite v = true.

Lemma mul_normal_0 :
  same_number (mul (at0 u) (at0 (cross dir v))) (neg (mul (at0 u) (at1 v))) = true.
Proof.
  destruct (vfinite_inv u Hu) as (F0 & _ & _). apply fin32_finite in F0.
  destruct (vfinite_inv v Hv) as (_ & G1 & _). apply fin32_finite in G1.
  destruct (normal_0 v Hv) as [A B].
  destruct (is_zero (at1 v)) eqn:E.
  - apply same_number_zeros.
    + apply mul_is_zero_r; auto.
    + rewrite is_zero_neg. now apply mul_is_zero_r.
  - rewrite B by reflexivity. rewrite mul_neg_r. apply same_number_refl.
Qed.

Lemma mul_normal_1 :
  same_number (mul (at1 u) (at1 (cross dir v))) (mul (at1 u) (at0 v)) = true.
Proof.
  destruct (vfinite_inv u Hu) as (_ & F1 & _). apply fin32_finite in F1.
  destruct (normal_1 v Hv) as [A B].
  destruct (is_zero (at0 v)) eqn:E.
  - apply same_number_zeros; apply mul_is_zero_r; auto.
  - rewrite B by reflexivity. apply same_number_refl.
Qed.

(** The determinant [dot (u, cross (dir, v))] is the rounded difference of
    the two rounded products [u1 * v0] and [u0 * v1]. *)
Lemma det_value :
  same_number (dot u (cross dir v))
              (sub (mul (at1 u) (at0 v)) (mul (at0 u) (at1 v))) = true.
Proof.
  destruct (vfinite_inv u Hu) as (_ & _ & F2). apply fin32_finite in F2.
  pose proof (normal_2 v Hv) as Z2.
  unfold dot.
  eapply same_number_trans.
  { apply add_zero_r_same. now apply mul_is_zero_r. }
  eapply same_number_trans.
  { apply add_same_number; [apply mul_normal_0|apply mul_normal_1]. }
  rewrite add_comm, <- sub_add_neg. apply same_number_refl.
Qed.

End Determinant.

Lemma det_swap u v :
  vfinite u = true -> vfinite v = true ->
  same_number (dot v (cross dir u)) (neg (dot u (cross dir v))) = true.
Proof.
  intros Hu Hv.
  eapply same_number_trans; [apply (det_value v u Hv Hu)|].
  rewrite (mul_comm (at1 v) (at0 u)), (mul_comm (at0 v) (at1 u)).
  eapply same_number_trans; [apply sub_antisym|].
  apply same_number_neg, same_number_sym. now apply det_value.
Qed.

(** ** NaN and the operations *)

Lemma add_nan_inv x y :
  is_nan (add x y) = false -> is_nan x = false /\ is_nan y = false.
Proof. destruct x, y; cbn; auto; discriminate. Qed.

Lemma sub_nan_inv x y :
  is_nan (sub x y) = false -> is_nan x = false /\ is_nan y = false.
Proof. destruct x, y; cbn; auto; discriminate. Qed.

Lemma mul_nan_inv x y :
  is_nan (mul x y) = false -> is_nan x = false /\ is_nan y = false.
Proof. destruct x, y; cbn; auto; discriminate. Qed.

Lemma div_nan_inv x y :
  is_nan (div x y) = false -> is_nan x = false /\ is_nan y = false.
Proof. destruct x, y; cbn; auto; discriminate. Qed.

(** A product with a zero that is not NaN is a zero, and the other factor
    is finite. *)
Lemma mul_zero_l_inv z x :
  is_zero z = true -> is_nan (mul z x) = false ->
  is_finite x = true /\ is_zero (mul z x) = true.
Proof. destruct z; try discriminate. destruct x; cbn; auto; discriminate. Qed.

Lemma mul_zero_r_inv x z :
  is_zero z = true -> is_nan (mul x z) = false ->
  is_finite x = true /\ is_zero (mul x z) = true.
Proof. rewrite mul_comm. apply mul_zero_l_inv. Qed.

Lemma sub_self_inv p : is_nan (sub p p) = false -> is_finite p = true /\ sub p p = zero.
Proof.
  rewrite sub_self_cases. destruct (is_finite p); [auto|discriminate].
Qed.

(** Adding a zero to a number other than zero is exact. *)
Lemma add_zero_r_exact x z : is_zero z = true -> is_zero x = false -> add x z = x.
Proof. destruct z; try discriminate. destruct x; try discriminate; reflexivity. Qed.

Lemma add_zero_l_exact z x : is_zero z = true -> is_zero x = false -> add z x = x.
Proof. intros. rewrite add_comm. now apply add_zero_r_exact. Qed.

Lemma same_number_zero x y :
  same_number x y = true -> is_zero y = true -> is_zero x = true.
Proof.
  intros H Hy. destruct (same_number_inv x y H) as [->|[Hx _]]; assumption.
Qed.

(** A number above [eps1]: a positive finite number or [+infinity]. *)
Lemma above_eps1 a :
  is_nan a = false -> leb a eps1 = false ->
  is_zero a = false
  /\ (a = S754_infinity false \/ finite_nonzero a = true).
Proof.
  destruct a as [s|s| |s m e]; intros Hn H; try discriminate;
    try (destruct s; [now vm_compute in H|]); auto.
Qed.

Lemma div_zero_above z a :
  is_zero z = true -> is_nan a = false -> leb a eps1 = false ->
  is_zero (div z a) = true.
Proof.
  intros Hz Hn Ha. destruct (above_eps1 a Hn Ha) as [_ [->|Hf]].
  - destruct z; try discriminate. reflexivity.
  - destruct z; try discriminate. destruct a; try discriminate. reflexivity.
Qed.

Lemma div_self_above a :
  is_nan a = false -> leb a eps1 = false -> is_nan (div a a) = false ->
  div a a = one /\ is_finite a = true.
Proof.
  intros Hn Ha Hd. destruct (above_eps1 a Hn Ha) as [_ [->|Hf]].
  - discriminate.
  - destruct a; try discriminate. split; [apply div_self|reflexivity].
Qed.

Lemma add_neg_self_inv p :
  is_nan (add (neg p) p) = false -> is_zero (add (neg p) p) = true.
Proof.
  intros H. apply add_neg_self.
  destruct p as [s|s| |s m e]; try reflexivity; try discriminate.
  destruct s; discriminate.
Qed.

(** ** The colour at a pixel with weights [1, 0, 0] (in any order) *)

Lemma weigh_one c0 c1 c2 z1 z2 :
  fin32 c0 = true -> is_finite c1 = true -> is_finite c2 = true ->
  is_zero z1 = true -> is_zero z2 = true ->
  same_number (add (add (mul c0 one) (mul c1 z1)) (mul c2 z2)) c0 = true
  /\ same_number (add (add (mul c1 z1) (mul c0 one)) (mul c2 z2)) c0 = true
  /\ same_number (add (add (mul c1 z1) (mul c2 z2)) (mul c0 one)) c0 = true.
Proof.
  intros H0 F1 F2 Z1 Z2.
  apply andb_true_iff in H0 as [F0 V0].
  rewrite (mul_one_r c0 V0).
  pose proof (mul_is_zero_r c1 z1 F1 Z1) as P1.
  pose proof (mul_is_zero_r c2 z2 F2 Z2) as P2.
  repeat split.
  - eapply same_number_trans; [now apply add_zero_r_same|now apply add_zero_r_same].
  - eapply same_number_trans; [now apply add_zero_r_same|now apply add_zero_l_same].
  - apply add_zero_l_same. now apply add_zeros.
Qed.

Lemma vfinite_finite v :
  vfinite v = true ->
  is_finite (at0 v) = true /\ is_finite (at1 v) = true /\ is_finite (at2 v) = true.
Proof.
  intros H. destruct (vfinite_inv v H) as (H0 & H1 & H2).
  repeat split; now apply fin32_finite.
Qed.

Lemma shade_weights tri h :
  vfinite (at0 (colors tri)) = true -> vfinite (at1 (colors tri)) = true ->
  vfinite (at2 (colors tri)) = true ->
  (at0 (barycentrics h) = one -> is_zero (at1 (barycentrics h)) = true ->
   is_zero (at2 (barycentrics h)) = true ->
   vsame (shade tri h) (at0 (colors tri)) = true)
  /\ (is_zero (at0 (barycentrics h)) = true -> at1 (barycentrics h) = one ->
      is_zero (at2 (barycentrics h)) = true ->
      vsame (shade tri h) (at1 (colors tri)) = true)
  /\ (is_zero (at0 (barycentrics h)) = true -> is_zero (at1 (barycentrics h)) = true ->
      at2 (barycentrics h) = one ->
      vsame (shade tri h) (at2 (colors tri)) = true).
Proof.
  intros C0 C1 C2.
  destruct (vfinite_inv _ C0) as (A0 & A1 & A2).
  destruct (vfinite_inv _ C1) as (B0 & B1 & B2).
  destruct (vfinite_inv _ C2) as (D0 & D1 & D2).
  destruct (vfinite_finite _ C0) as (FA0 & FA1 & FA2).
  destruct (vfinite_finite _ C1) as (FB0 & FB1 & FB2).
  destruct (vfinite_finite _ C2) as (FD0 & FD1 & FD2).
  unfold shade, vsame, vadd, vscale; cbn [at0 at1 at2].
  repeat split.
  - intros -> Z1 Z2. rewrite !andb_true_iff. repeat split.
    + now apply (weigh_one _ _ _ _ _ A0 FB0 FD0 Z1 Z2).
    + now apply (weigh_one _ _ _ _ _ A1 FB1 FD1 Z1 Z2).
    + now apply (weigh_one _ _ _ _ _ A2 FB2 FD2 Z1 Z2).
  - intros Z0 -> Z2. rewrite !andb_true_iff. repeat split.
    + now apply (weigh_one _ _ _ _ _ B0 FA0 FD0 Z0 Z2).
    + now apply (weigh_one _ _ _ _ _ B1 FA1 FD1 Z0 Z2).
    + now apply (weigh_one _ _ _ _ _ B2 FA2 FD2 Z0 Z2).
  - intros Z0 Z1 ->. rewrite !andb_true_iff. repeat split.
    + now apply (weigh_one _ _ _ _ _ D0 FA0 FB0 Z0 Z1).
    + now apply (weigh_one _ _ _ _ _ D1 FA1 FB1 Z0 Z1).
    + now apply (weigh_one _ _ _ _ _ D2 FA2 FB2 Z0 Z1).
Qed.

(** ** The weights at the pixel of a vertex *)

Lemma hit_unfold tri x y :
  let pix : vec3 := Arr3 (of_Z (Z.of_N x)) (of_Z (Z.of_N y)) zero in
  let u := edge_u tri in
  let v := edge_v tri in
  let n := cross dir v in
  let a := dot u n in
  let s := vsub pix (at0 (vertices tri)) in
  let r := cross s u in
  let b1 := div (dot s n) a in
  let b2 := div (dot dir r) a in
  hit tri x y
  = {| hit_a := a; hit_d := div (dot v r) a;
       barycentrics := Arr3 (sub one (add b1 b2)) b1 b2 |}.
Proof. reflexivity. Qed.

Lemma valid_dot_cross (u v : vec3) :
  valid (at0 u) = true -> valid (at1 u) = true -> valid (at2 u) = true ->
  valid (at0 v) = true -> valid (at1 v) = true -> valid (at2 v) = true ->
  valid (dot u (cross dir v)) = true.
Proof.
  destruct u as [u0 u1 u2], v as [v0 v1 v2]; cbn [at0 at1 at2]. intros.
  unfold dot, cross, dir; cbn [at0 at1 at2].
  repeat (first [apply add_valid | apply sub_valid | apply mul_valid]);
    first [assumption | reflexivity].
Qed.

Section Vertex.

Variables (tri : Triangle) (x y : N).
Hypothesis Hu : vfinite (edge_u tri) = true.
Hypothesis Hv : vfinite (edge_v tri) = true.
Hypothesis Hcov : covered (hit tri x y) = true.
Hypothesis Hnan : hit_has_nan (hit tri x y) = false.

Local Abbreviation pix := (Arr3 (of_Z (Z.of_N x)) (of_Z (Z.of_N y)) zero : vec3).
Local Abbreviation u := (edge_u tri).
Local Abbreviation v := (edge_v tri).
Local Abbreviation n := (cross dir (edge_v tri)).
Local Abbreviation a := (dot (edge_u tri) (cross dir (edge_v tri))).
Local Abbreviation s := (vsub pix (at0 (vertices tri))).
Local Abbreviation r := (cross s (edge_u tri)).

Lemma vertex_facts :
  is_nan a = false /\ leb a eps1 = false
  /\ is_nan (div (dot s n) a) = false /\ is_nan (div (dot dir r) a) = false.
Proof.
  pose proof Hnan as H. pose proof Hcov as Hc.
  rewrite hit_unfold in H, Hc. cbn zeta in H, Hc.
  unfold hit_has_nan in H. cbn [hit_a hit_d barycentrics at0 at1 at2] in H.
  rewrite !orb_false_iff in H. destruct H as ((((Ha & _) & _) & Hb1) & Hb2).
  apply covered_iff_flags in Hc as (Hle & _). cbn [hit_a] in Hle.
  auto.
Qed.

(** [dot (dir, r)] is the third component of [r], when it is not NaN. *)
Lemma dir_dot :
  is_zero (add (mul zero (at0 r)) (mul zero (at1 r))) = true
  /\ is_nan (at2 r) = false
  /\ dot dir r = add (add (mul zero (at0 r)) (mul zero (at1 r))) (mul one (at2 r)).
Proof.
  destruct vertex_facts as (_ & _ & _ & Hb2).
  apply div_nan_inv in Hb2 as [HD _].
  change (dot dir r)
    with (add (add (mul zero (at0 r)) (mul zero (at1 r))) (mul one (at2 r))) in HD |- *.
  apply add_nan_inv in HD as [H01 H2]. apply add_nan_inv in H01 as [H0 H1].
  apply (mul_zero_l_inv zero) in H0 as [_ H0]; [|reflexivity].
  apply (mul_zero_l_inv zero) in H1 as [_ H1]; [|reflexivity].
  apply mul_nan_inv in H2 as [_ H2].
  repeat split; [now apply add_zeros|exact H2].
Qed.

(** The third products of [dot (s, n)] and of the determinant vanish. *)
Lemma third_products :
  is_zero (mul (at2 s) (at2 n)) = true /\ is_zero (mul (at2 u) (at2 n)) = true.
Proof.
  destruct vertex_facts as (_ & _ & Hb1 & _).
  pose proof (normal_2 v Hv) as Z2.
  destruct (vfinite_finite u Hu) as (_ & _ & F2).
  apply div_nan_inv in Hb1 as [HN _].
  change (dot s n)
    with (add (add (mul (at0 s) (at0 n)) (mul (at1 s) (at1 n))) (mul (at2 s) (at2 n))) in HN.
  apply add_nan_inv in HN as [_ H2].
  split.
  - now apply (mul_zero_r_inv (at2 s) (at2 n) Z2).
  - now apply mul_is_zero_r.
Qed.

Lemma weights_unfold :
  barycentrics (hit tri x y)
  = Arr3 (sub one (add (div (dot s n) a) (div (dot dir r) a)))
         (div (dot s n) a) (div (dot dir r) a).
Proof. reflexivity. Qed.

(** The pixel of vertex 0. *)
Lemma vertex0_weights :
  at0 (at0 (vertices tri)) = of_Z (Z.of_N x) ->
  at1 (at0 (vertices tri)) = of_Z (Z.of_N y) ->
  at0 (barycentrics (hit tri x y)) = one
  /\ is_zero (at1 (barycentrics (hit tri x y))) = true
  /\ is_zero (at2 (barycentrics (hit tri x y))) = true.
Proof.
  intros Ex Ey.
  destruct vertex_facts as (Ha & Hle & Hb1 & Hb2).
  destruct dir_dot as (Z01 & Hr2 & ED).
  destruct third_products as (Zs & _).
  destruct (vfinite_finite u Hu) as (Fu0 & Fu1 & _).
  destruct (normal_finite v Hv) as (Fn0 & Fn1 & _).
  (* the first two components of [s] are [+0] *)
  change (at2 r) with (sub (mul (at0 s) (at1 u)) (mul (at1 s) (at0 u))) in Hr2.
  apply sub_nan_inv in Hr2 as [Hs0 Hs1].
  apply mul_nan_inv in Hs0 as [Hs0 _]. apply mul_nan_inv in Hs1 as [Hs1 _].
  change (at0 s) with (sub (of_Z (Z.of_N x)) (at0 (at0 (vertices tri)))) in Hs0.
  change (at1 s) with (sub (of_Z (Z.of_N y)) (at1 (at0 (vertices tri)))) in Hs1.
  rewrite Ex in Hs0. rewrite Ey in Hs1.
  apply sub_self_inv in Hs0 as [_ Es0]. apply sub_self_inv in Hs1 as [_ Es1].
  assert (S0 : at0 s = zero).
  { change (at0 s) with (sub (of_Z (Z.of_N x)) (at0 (at0 (vertices tri)))).
    now rewrite Ex. }
  assert (S1 : at1 s = zero).
  { change (at1 s) with (sub (of_Z (Z.of_N y)) (at1 (at0 (vertices tri)))).
    now rewrite Ey. }
  (* gamma *)
  assert (Zr2 : is_zero (at2 r) = true).
  { change (at2 r) with (sub (mul (at0 s) (at1 u)) (mul (at1 s) (at0 u))).
    rewrite S0, S1. apply sub_zeros; now apply mul_zero_l. }
  assert (ZD : is_zero (dot dir r) = true).
  { rewrite ED. apply add_zeros; [exact Z01|]. now apply mul_is_zero_r. }
  assert (Zb2 : is_zero (div (dot dir r) a) = true) by now apply div_zero_above.
  (* beta *)
  assert (ZN : is_zero (dot s n) = true).
  { change (dot s n)
      with (add (add (mul (at0 s) (at0 n)) (mul (at1 s) (at1 n))) (mul (at2 s) (at2 n))).
    rewrite S0, S1. apply add_zeros; [|exact Zs].
    apply add_zeros; now apply mul_zero_l. }
  assert (Zb1 : is_zero (div (dot s n) a) = true) by now apply div_zero_above.
  rewrite weights_unfold. cbn [at0 at1 at2].
  repeat split; try assumption.
  apply sub_zero_r; [reflexivity|reflexivity|]. now apply add_zeros.
Qed.

Lemma sub_one_one : sub one one = zero.
Proof. reflexivity. Qed.

(** The pixel of vertex 1. *)
Lemma vertex1_weights :
  at0 (at1 (vertices tri)) = of_Z (Z.of_N x) ->
  at1 (at1 (vertices tri)) = of_Z (Z.of_N y) ->
  is_zero (at0 (barycentrics (hit tri x y))) = true
  /\ at1 (barycentrics (hit tri x y)) = one
  /\ is_zero (at2 (barycentrics (hit tri x y))) = true.
Proof.
  intros Ex Ey.
  destruct vertex_facts as (Ha & Hle & Hb1 & Hb2).
  destruct dir_dot as (Z01 & Hr2 & ED).
  destruct third_products as (Zs & Zu).
  destruct (above_eps1 _ Ha Hle) as [Hnz _].
  assert (S0 : at0 s = at0 u).
  { change (at0 s) with (sub (of_Z (Z.of_N x)) (at0 (at0 (vertices tri)))).
    now rewrite <- Ex. }
  assert (S1 : at1 s = at1 u).
  { change (at1 s) with (sub (of_Z (Z.of_N y)) (at1 (at0 (vertices tri)))).
    now rewrite <- Ey. }
  (* gamma *)
  assert (Zr2 : is_zero (at2 r) = true).
  { change (at2 r) with (sub (mul (at0 s) (at1 u)) (mul (at1 s) (at0 u))) in Hr2 |- *.
    rewrite S0, S1, (mul_comm (at1 u) (at0 u)) in Hr2 |- *.
    apply sub_self_inv in Hr2 as [_ ->]. reflexivity. }
  assert (ZD : is_zero (dot dir r) = true).
  { rewrite ED. apply add_zeros; [exact Z01|]. now apply mul_is_zero_r. }
  assert (Zb2 : is_zero (div (dot dir r) a) = true) by now apply div_zero_above.
  (* beta *)
  assert (EN : dot s n = a).
  { change (dot s n)
      with (add (add (mul (at0 s) (at0 n)) (mul (at1 s) (at1 n))) (mul (at2 s) (at2 n))).
    change a
      with (add (add (mul (at0 u) (at0 n)) (mul (at1 u) (at1 n))) (mul (at2 u) (at2 n)))
      in Hnz |- *.
    rewrite S0, S1.
    destruct (is_zero (add (mul (at0 u) (at0 n)) (mul (at1 u) (at1 n)))) eqn:EX.
    - rewrite add_zeros in Hnz by assumption. discriminate.
    - rewrite (add_zero_r_exact _ _ Zs EX), (add_zero_r_exact _ _ Zu EX). reflexivity. }
  rewrite EN in Hb1.
  destruct (div_self_above _ Ha Hle Hb1) as [Eb1 _].
  rewrite weights_unfold. cbn [at0 at1 at2]. rewrite EN, Eb1.
  repeat split; try assumption.
  rewrite add_zero_r_exact by (assumption || reflexivity).
  now rewrite sub_one_one.
Qed.

Lemma valid_det : valid a = true.
Proof.
  destruct (vfinite_inv u Hu) as (U0 & U1 & U2).
  destruct (vfinite_inv v Hv) as (V0 & V1 & V2).
  apply andb_true_iff in U0 as [_ U0], U1 as [_ U1], U2 as [_ U2].
  apply andb_true_iff in V0 as [_ V0], V1 as [_ V1], V2 as [_ V2].
  now apply valid_dot_cross.
Qed.

(** The pixel of vertex 2. *)
Lemma vertex2_weights :
  at0 (at2 (vertices tri)) = of_Z (Z.of_N x) ->
  at1 (at2 (vertices tri)) = of_Z (Z.of_N y) ->
  is_zero (at0 (barycentrics (hit tri x y))) = true
  /\ is_zero (at1 (barycentrics (hit tri x y))) = true
  /\ at2 (barycentrics (hit tri x y)) = one.
Proof.
  intros Ex Ey.
  destruct vertex_facts as (Ha & Hle & Hb1 & Hb2).
  destruct dir_dot as (Z01 & Hr2 & ED).
  destruct third_products as (Zs & Zu).
  destruct (above_eps1 _ Ha Hle) as [Hnz _].
  assert (S0 : at0 s = at0 v).
  { change (at0 s) with (sub (of_Z (Z.of_N x)) (at0 (at0 (vertices tri)))).
    now rewrite <- Ex. }
  assert (S1 : at1 s = at1 v).
  { change (at1 s) with (sub (of_Z (Z.of_N y)) (at1 (at0 (vertices tri)))).
    now rewrite <- Ey. }
  (* beta *)
  assert (ZN : is_zero (dot s n) = true).
  { pose proof Hb1 as HN. apply div_nan_inv in HN as [HN _].
    change (dot s n)
      with (add (add (mul (at0 s) (at0 n)) (mul (at1 s) (at1 n))) (mul (at2 s) (at2 n)))
      in HN |- *.
    rewrite S0, S1 in HN |- *.
    apply add_nan_inv in HN as [HX _].
    apply add_zeros; [|exact Zs].
    pose proof (add_same_number _ _ _ _ (mul_normal_0 v v Hv Hv) (mul_normal_1 v v Hv Hv))
      as Hsame.
    rewrite (mul_comm (at1 v) (at0 v)) in Hsame.
    apply (same_number_zero _ _ Hsame).
    apply add_neg_self_inv. now rewrite <- (same_number_nan _ _ Hsame). }
  assert (Zb1 : is_zero (div (dot s n) a) = true) by now apply div_zero_above.
  (* gamma *)
  assert (Er2 : at2 r = a).
  { change (at2 r) with (sub (mul (at0 s) (at1 u)) (mul (at1 s) (at0 u))).
    rewrite S0, S1, (mul_comm (at0 v) (at1 u)), (mul_comm (at1 v) (at0 u)).
    destruct (same_number_inv _ _ (det_value u v Hu Hv)) as [E|[Hz _]].
    - symmetry. exact E.
    - rewrite Hz in Hnz. discriminate. }
  assert (ED' : dot dir r = a).
  { rewrite ED, Er2, (mul_comm one a), (mul_one_r a valid_det).
    now apply add_zero_l_exact. }
  rewrite ED' in Hb2.
  destruct (div_self_above _ Ha Hle Hb2) as [Eb2 _].
  rewrite weights_unfold. cbn [at0 at1 at2]. rewrite ED', Eb2.
  repeat split; try assumption.
  rewrite add_zero_l_exact by (assumption || reflexivity).
  now rewrite sub_one_one.
Qed.

End Vertex.

(** ** A triangle in the plane of the ray origins *)

Lemma div_zero_l_cases z a :
  is_zero z = true -> is_nan (div z a) = false -> is_zero (div z a) = true.
Proof.
  destruct z; try discriminate. intros _. destruct a; cbn; auto.
Qed.

Lemma origin_plane_depth tri x y :
  is_zero (at2 (at0 (vertices tri))) = true ->
  is_zero (at2 (at1 (vertices tri))) = true ->
  is_zero (at2 (at2 (vertices tri))) = true ->
  is_nan (hit_d (hit tri x y)) = false ->
  is_zero (hit_d (hit tri x y)) = true.
Proof.
  intros Z0 Z1 Z2 Hd.
  rewrite hit_unfold in Hd |- *. cbn zeta in Hd |- *. cbn [hit_d] in Hd |- *.
  set (pix := Arr3 (of_Z (Z.of_N x)) (of_Z (Z.of_N y)) zero : vec3) in *.
  set (s := vsub pix (at0 (vertices tri))) in *.
  set (u := edge_u tri) in *. set (v := edge_v tri) in *.
  set (r := cross s u) in *.
  assert (Zu : is_zero (at2 u) = true) by now apply sub_zeros.
  assert (Zv : is_zero (at2 v) = true) by now apply sub_zeros.
  assert (Zs : is_zero (at2 s) = true) by now apply sub_zeros.
  apply div_zero_l_cases; [|exact Hd].
  apply div_nan_inv in Hd as [HN _].
  change (dot v r)
    with (add (add (mul (at0 v) (at0 r)) (mul (at1 v) (at1 r))) (mul (at2 v) (at2 r)))
    in HN |- *.
  apply add_nan_inv in HN as [H01 H2]. apply add_nan_inv in H01 as [H0 H1].
  assert (Zr0 : is_zero (at0 r) = true).
  { apply mul_nan_inv in H0 as [_ H0].
    change (at0 r) with (sub (mul (at1 s) (at2 u)) (mul (at2 s) (at1 u))) in H0 |- *.
    apply sub_nan_inv in H0 as [Ha Hb].
    apply sub_zeros.
    - now apply (mul_zero_r_inv _ _ Zu).
    - now apply (mul_zero_l_inv _ _ Zs). }
  assert (Zr1 : is_zero (at1 r) = true).
  { apply mul_nan_inv in H1 as [_ H1].
    change (at1 r) with (sub (mul (at2 s) (at0 u)) (mul (at0 s) (at2 u))) in H1 |- *.
    apply sub_nan_inv in H1 as [Ha Hb].
    apply sub_zeros.
    - now apply (mul_zero_l_inv _ _ Zs).
    - now apply (mul_zero_r_inv _ _ Zu). }
  repeat apply add_zeros.
  - now apply (mul_zero_r_inv _ _ Zr0).
  - now apply (mul_zero_r_inv _ _ Zr1).
  - now apply (mul_zero_l_inv _ _ Zv).
Qed.

Lemma leb_zero_tenth z : is_zero z = true -> leb z tenth = true.
Proof. destruct z; try discriminate. reflexivity. Qed.

(** * The claims about the raster loop *)

(** C1 (as stated, refuted): the triangle [tri_overflow] has finite
    vertices, yet its determinant is NaN; no rejection test holds, so pixel
    [(0,0)] is classified as covered and [setPixel] is called for it,
    although [a > 1e-7] does not hold. *)
Lemma C1_counterexample :
  covered (hit tri_overflow 0 0) = true
  /\ ltb eps1 (hit_a (hit tri_overflow 0 0)) = false
  /\ spec_covered (hit tri_overflow 0 0) = false
  /\ In (EvSet 0 0 (Arr3 S754_nan S754_nan S754_nan))
        (fst (rasterize 1 1 black tri_overflow)).
Proof. vm_compute. repeat split; try reflexivity. do 3 right. left. reflexivity. Qed.

(** C1 (amended): a pixel is covered iff none of the five rejection tests
    of the source holds ([a <= eps1], a weight [< -eps2], [d <= 0.1f]); when
    none of [a], [d] and the weights is NaN this is the conjunction of the
    specification ([a > eps1], every weight [>= -eps2], [d > 0.1f]); the
    loop body calls [setPixel] for the pixel exactly when it is covered; a
    raster run calls it for covered pixels only, and on a frame of less than
    [2^32] cells for every covered pixel. *)
Theorem C1_covered_iff (tri : Triangle) (x y : N) :
  let h := hit tri x y in
  (covered h = true <->
     leb (hit_a h) eps1 = false
     /\ ltb (at0 (barycentrics h)) (neg eps2) = false
     /\ ltb (at1 (barycentrics h)) (neg eps2) = false
     /\ ltb (at2 (barycentrics h)) (neg eps2) = false
     /\ leb (hit_d h) tenth = false)
  /\ (hit_has_nan h = false -> covered h = spec_covered h)
  /\ (forall g, (exists c, In (EvSet x y c) (fst (pixel_step tri x y g)))
                <-> covered h = true)
  /\ (forall width height fill,
        ((exists c, In (EvSet x y c) (fst (rasterize width height fill tri)))
         -> covered h = true)
        /\ ((width * height < 2 ^ 32)%N -> (x < width)%N -> (y < height)%N ->
            covered h = true ->
            exists c, In (EvSet x y c) (fst (rasterize width height fill tri)))).
Proof.
  intros h. split; [apply covered_iff_flags|]. split; [apply covered_spec_covered|]. split.
  - intros g. rewrite pixel_step_run. cbn [fst]. split.
    + intros [c H]. now apply step_events_set in H.
    + intros H. eexists. apply step_events_set. eauto.
  - intros width height fill. split.
    + intros [c H]. now apply raster_log_set in H.
    + intros Hsize Hx Hy H.
      rewrite rasterize_run by assumption. cbn [fst].
      eexists. apply raster_events_set. eauto.
Qed.

Lemma C1_covered_iff_witness :
  hit_has_nan (hit tri_front 1 1) = false
  /\ (4 * 4 < 2 ^ 32)%N /\ (1 < 4)%N
  /\ covered (hit tri_front 1 1) = spec_covered (hit tri_front 1 1)
  /\ covered (hit tri_front 1 1) = true
  /\ exists c, In (EvSet 1 1 c) (fst (rasterize 4 4 black tri_front)).
Proof.
  destruct (C1_covered_iff tri_front 1 1) as (_ & H2 & _ & H4).
  assert (Hn : hit_has_nan (hit tri_front 1 1) = false) by (vm_compute; reflexivity).
  assert (Hs : (4 * 4 < 2 ^ 32)%N) by (vm_compute; reflexivity).
  assert (Hx : (1 < 4)%N) by (vm_compute; reflexivity).
  assert (Hc : covered (hit tri_front 1 1) = true) by (vm_compute; reflexivity).
  split; [exact Hn|]. split; [exact Hs|]. split; [exact Hx|].
  split; [exact (H2 Hn)|]. split; [exact Hc|].
  exact (proj2 (H4 4%N 4%N black) Hs Hx Hx Hc).
Defined.

(** C2: a [setPixel] of the raster run for pixel [(x,y)] always carries
    the colour [color0 * alpha + color1 * beta + color2 * gamma]
    (componentwise, in binary32, nothing clamped); and on a frame of less
    than [2^32] cells every covered pixel is written so, through
    [setPixel], and afterwards [getPixel] returns that colour. *)
Theorem C2_shaded_colour (width height : N) (fill : vec3) (tri : Triangle) (x y : N) :
  let b := barycentrics (hit tri x y) in
  let colour :=
    vadd (vadd (vscale (at0 (colors tri)) (at0 b)) (vscale (at1 (colors tri)) (at1 b)))
         (vscale (at2 (colors tri)) (at2 b)) in
  (forall c, In (EvSet x y c) (fst (rasterize width height fill tri)) -> c = colour)
  /\ ((width * height < 2 ^ 32)%N -> (x < width)%N -> (y < height)%N ->
      covered (hit tri x y) = true ->
      In (EvSet x y colour) (fst (rasterize width height fill tri))
      /\ exists g, snd (rasterize width height fill tri) = Some (tt, g)
                   /\ getPixel x y g = ([EvGet x y], Some (colour, g))).
Proof.
  intros b colour. split.
  - intros c H. now apply raster_log_set in H.
  - intros Hsize Hx Hy Hc.
    rewrite rasterize_run by assumption. cbn [fst snd]. split.
    + apply raster_events_set. repeat split; assumption.
    + eexists. split; [reflexivity|].
      pose proof (frame_inv_new width height Hsize fill) as Hinv.
      rewrite getPixel_run.
      destruct (frame_inv_frame width height tri _ Hinv) as (HW & _).
      rewrite HW.
      rewrite (raster_frame_covered width height tri Hsize) by assumption.
      reflexivity.
Qed.

Lemma C2_shaded_colour_witness :
  (4 * 4 < 2 ^ 32)%N /\ (1 < 4)%N /\ covered (hit tri_front 1 1) = true
  /\ In (EvSet 1 1 (Arr3 (S754_finite false 11184810 (-25))
                         (S754_finite false 11184811 (-25))
                         (S754_finite false 11184811 (-25))))
        (fst (rasterize 4 4 black tri_front)).
Proof.
  assert (Hs : (4 * 4 < 2 ^ 32)%N) by (vm_compute; reflexivity).
  assert (Hx : (1 < 4)%N) by (vm_compute; reflexivity).
  assert (Hc : covered (hit tri_front 1 1) = true) by (vm_compute; reflexivity).
  split; [exact Hs|]. split; [exact Hx|]. split; [exact Hc|].
  exact (proj1 (proj2 (C2_shaded_colour 4 4 black tri_front 1 1) Hs Hx Hx Hc)).
Defined.

(** C3 (as stated, refuted): at pixel [(0,0)] of the one-point triangle
    the determinant is [+0], the pixel is skipped, and yet the iteration
    has divided three times by the determinant. *)
Lemma C3_counterexample :
  hit_a (hit tri_point 0 0) = S754_zero false
  /\ zeroArea (hit tri_point 0 0) = true
  /\ fst (pixel_step tri_point 0 0 (Frame_new 2 2 black))
     = [EvDiv (S754_zero false) (S754_zero false);
        EvDiv (S754_zero true) (S754_zero false);
        EvDiv (S754_zero false) (S754_zero false)].
Proof. vm_compute. repeat split; reflexivity. Qed.

(** C3 (amended): at every pixel whose determinant is at most [eps1] the
    pixel is skipped: it is not covered, [setPixel] is not called and the
    frame is unchanged.  The quotients [d], [beta] and [gamma] are computed
    before the test, so the iteration does divide three times by the
    determinant; the results go unused. *)
Theorem C3_degenerate_skipped (tri : Triangle) (x y : N) :
  zeroArea (hit tri x y) = true ->
  let pix : vec3 := Arr3 (of_Z (Z.of_N x)) (of_Z (Z.of_N y)) zero in
  let u := vsub (at1 (vertices tri)) (at0 (vertices tri)) in
  let v := vsub (at2 (vertices tri)) (at0 (vertices tri)) in
  let n := cross dir v in
  let a := dot u n in
  let s := vsub pix (at0 (vertices tri)) in
  let r := cross s u in
  covered (hit tri x y) = false
  /\ forall g, pixel_step tri x y g
               = ([EvDiv (dot v r) a; EvDiv (dot s n) a; EvDiv (dot dir r) a], Some (tt, g)).
Proof.
  intros Hz pix u v n a s r.
  pose proof (zeroArea_not_covered _ Hz) as Hc.
  split; [exact Hc|]. intros g.
  rewrite pixel_step_run, Hc. unfold step_events. rewrite Hc, app_nil_r. reflexivity.
Qed.

Lemma C3_degenerate_skipped_witness :
  zeroArea (hit tri_spec 1 1) = true
  /\ covered (hit tri_spec 1 1) = false
  /\ snd (pixel_step tri_spec 1 1 (Frame_new 4 4 black)) = Some (tt, Frame_new 4 4 black).
Proof.
  assert (Hz : zeroArea (hit tri_spec 1 1) = true) by (vm_compute; reflexivity).
  destruct (C3_degenerate_skipped tri_spec 1 1 Hz) as [Hc Hrun].
  split; [exact Hz|]. split; [exact Hc|].
  rewrite Hrun. reflexivity.
Defined.

(** C4 (as stated, refuted): a triangle with a NaN coordinate makes the
    determinant NaN, every pixel of a 2x2 frame is covered and overwritten:
    no pixel keeps the fill colour. *)
Lemma C4_counterexample :
  is_nan (at0 (at0 (vertices tri_nan))) = true
  /\ hit_a (hit tri_nan 0 0) = S754_nan
  /\ map (fun p => covered (hit tri_nan (fst p) (snd p))) (pixels 2 2)
     = [true; true; true; true]
  /\ snd (rasterize 2 2 black tri_nan)
     = Some (tt, {| WIDTH := 2; HEIGHT := 2;
                    buffer := replicate 4 (Arr3 S754_nan S754_nan S754_nan) |}).
Proof. vm_compute. repeat split; reflexivity. Qed.

(** C4 (amended): when the determinant is exactly zero ([+0] or [-0]) no
    pixel is covered, [setPixel] is never called and the raster run returns
    the frame as it was created, every cell holding the fill colour; when
    the determinant is NaN no rejection test holds and every pixel is
    covered. *)
Theorem C4_zero_or_nan_determinant (tri : Triangle) :
  (is_zero (hit_a (hit tri 0 0)) = true ->
   forall width height fill,
     rasterize width height fill tri
     = (raster_events tri width height, Some (tt, Frame_new width height fill))
     /\ forall x y c, ~ In (EvSet x y c) (raster_events tri width height))
  /\ (is_nan (hit_a (hit tri 0 0)) = true ->
      forall x y, covered (hit tri x y) = true).
Proof.
  split.
  - intros Hz width height fill.
    assert (Hno : forall x y, covered (hit tri x y) = false).
    { intros x y. apply zeroArea_not_covered. unfold zeroArea.
      rewrite (hit_a_pixel tri x y 0 0). now apply leb_zero_eps1. }
    split.
    + unfold rasterize. now rewrite no_cover_run.
    + now apply no_cover_events.
  - intros Hn x y. apply nan_covered. now rewrite (hit_a_pixel tri x y 0 0).
Qed.

Lemma C4_zero_or_nan_determinant_witness :
  is_zero (hit_a (hit tri_point 0 0)) = true
  /\ snd (rasterize 2 2 black tri_point) = Some (tt, Frame_new 2 2 black)
  /\ is_nan (hit_a (hit tri_nan 0 0)) = true
  /\ covered (hit tri_nan 1 1) = true.
Proof.
  destruct (C4_zero_or_nan_determinant tri_point) as [Hzero _].
  destruct (C4_zero_or_nan_determinant tri_nan) as [_ Hnan].
  assert (Hz : is_zero (hit_a (hit tri_point 0 0)) = true) by (vm_compute; reflexivity).
  assert (Hn : is_nan (hit_a (hit tri_nan 0 0)) = true) by (vm_compute; reflexivity).
  split; [exact Hz|]. split.
  - destruct (Hzero Hz 2%N 2%N black) as [E _]. rewrite E. reflexivity.
  - split; [exact Hn|exact (Hnan Hn 1%N 1%N)].
Defined.




(** * The claim about triangles of zero area *)

(** C5 (as stated, refuted): the vertices of [tri_collinear] are three
    distinct points of one line, so the projected area is exactly zero; the
    rounded edge vectors are not parallel, the determinant is [4.0], and
    pixel [(1,0)] of a 2x2 frame is covered and written.  And
    [tri_twin_overflow] has two identical vertices, all coordinates finite,
    but the edge to the third vertex overflows: the determinant is NaN and
    the pixel is covered. *)
Lemma C5_counterexample :
  ((exists q, projected_area2 tri_collinear = Some q /\ (q == 0)%Q)
   /\ covered (hit tri_collinear 1 0) = true
   /\ exists g, snd (rasterize 2 2 black tri_collinear) = Some (tt, g)
                /\ snd (getPixel 1 0 g) = Some (red, g))
  /\ (at1 (vertices tri_twin_overflow) = at0 (vertices tri_twin_overflow)
      /\ (exists q, projected_area2 tri_twin_overflow = Some q /\ (q == 0)%Q)
      /\ covered (hit tri_twin_overflow 0 0) = true).
Proof.
  split; [split; [|split]|split; [|split]].
  - eexists. split; [vm_compute; reflexivity|reflexivity].
  - vm_compute. reflexivity.
  - eexists. split; vm_compute; reflexivity.
  - reflexivity.
  - eexists. split; [vm_compute; reflexivity|reflexivity].
  - vm_compute. reflexivity.
Qed.

(** C5 (amended): for every triangle with two identical vertices whose
    edge vectors [vertex1 - vertex0] and [vertex2 - vertex0] are finite
    binary32 numbers and whose products [u_x * v_y] and [u_y * v_x] are
    finite (nothing overflows, no coordinate is infinite or NaN), the
    determinant is zero, no pixel is covered, [setPixel] is never called and
    the raster run returns the frame as created: every pixel still holds
    the fill colour. *)
Theorem C5_coincident_vertices (width height : N) (fill : vec3) (tri : Triangle) :
  at1 (vertices tri) = at0 (vertices tri)
  \/ at2 (vertices tri) = at0 (vertices tri)
  \/ at1 (vertices tri) = at2 (vertices tri) ->
  edges_regular tri = true ->
  is_zero (hit_a (hit tri 0 0)) = true
  /\ (forall x y, covered (hit tri x y) = false)
  /\ rasterize width height fill tri
     = (raster_events tri width height, Some (tt, Frame_new width height fill))
  /\ forall x y c, ~ In (EvSet x y c) (raster_events tri width height).
Proof.
  intros Hsame Hreg.
  pose proof (coincident_det_zero tri Hsame Hreg) as Hz.
  assert (Hno : forall x y, covered (hit tri x y) = false).
  { intros x y. apply zeroArea_not_covered. unfold zeroArea.
    rewrite hit_a_det. now apply leb_zero_eps1. }
  split; [now rewrite hit_a_det|]. split; [exact Hno|]. split.
  - unfold rasterize. now rewrite no_cover_run.
  - now apply no_cover_events.
Qed.

Lemma C5_coincident_vertices_witness :
  (at1 (vertices tri_twin) = at0 (vertices tri_twin)
   \/ at2 (vertices tri_twin) = at0 (vertices tri_twin)
   \/ at1 (vertices tri_twin) = at2 (vertices tri_twin))
  /\ edges_regular tri_twin = true
  /\ is_zero (hit_a (hit tri_twin 0 0)) = true
  /\ rasterize 2 2 black tri_twin
     = (raster_events tri_twin 2 2, Some (tt, Frame_new 2 2 black)).
Proof.
  assert (Hs : at1 (vertices tri_twin) = at0 (vertices tri_twin)
               \/ at2 (vertices tri_twin) = at0 (vertices tri_twin)
               \/ at1 (vertices tri_twin) = at2 (vertices tri_twin))
    by (right; right; reflexivity).
  assert (Hr : edges_regular tri_twin = true) by (vm_compute; reflexivity).
  destruct (C5_coincident_vertices 2 2 black tri_twin Hs Hr) as (Hz & _ & Hrun & _).
  split; [exact Hs|]. split; [exact Hr|]. split; [exact Hz|exact Hrun].
Defined.

(** * The claims about the frame *)

(** C9 (as stated, refuted): in a frame created with [WIDTH = HEIGHT =
    2^32 - 1] the 32-bit product [WIDTH * HEIGHT] is 1, so the storage has
    one cell.  The in-range coordinates [(0,0)] and [(1,1)] both map to that
    cell: [setPixel (1,1,red)] changes what [getPixel (0,0)] returns.  The
    in-range coordinate [(0,1)] maps to cell [2^32 - 1], outside the
    storage. *)
Lemma C9_counterexample :
  let f := Frame_new 4294967295 4294967295 black in
  length (buffer f) = 1%nat
  /\ snd (getPixel 0 0 f) = Some (black, f)
  /\ (exists g, snd (setPixel 1 1 red f) = Some (tt, g)
                /\ snd (getPixel 0 0 g) = Some (red, g))
  /\ snd (setPixel 0 1 red f) = None.
Proof.
  vm_compute. repeat split; try reflexivity.
  eexists. split; reflexivity.
Qed.

(** C9 (amended): in a frame that is a [width] x [height] grid with
    [width * height < 2^32], for every in-range [(x,y)]: [setPixel (x,y,c)]
    returns, [getPixel (x,y)] right after it returns [c], and [getPixel] at
    every other in-range coordinate returns what it returned before. *)
Theorem C9_get_set (width height : N) (f : Frame) (x y : N) (c : vec3) :
  (width * height < 2 ^ 32)%N -> frame_inv width height f ->
  (x < width)%N -> (y < height)%N ->
  exists g,
    setPixel x y c f = ([EvSet x y c], Some (tt, g))
    /\ frame_inv width height g
    /\ getPixel x y g = ([EvGet x y], Some (c, g))
    /\ forall x' y', (x' < width)%N -> (y' < height)%N -> (x', y') <> (x, y) ->
         exists c', getPixel x' y' f = ([EvGet x' y'], Some (c', f))
                    /\ getPixel x' y' g = ([EvGet x' y'], Some (c', g)).
Proof.
  intros Hsize (HW & HH & HL) Hx Hy.
  assert (Hcell : forall x' y', (x' < width)%N -> (y' < height)%N ->
                    (cell width x' y' < length (buffer f))%nat).
  { intros x' y' Hx' Hy'. rewrite HL. unfold cell.
    destruct (flat_index_small width height x' y') as [E Hlt]; try assumption.
    rewrite E. lia. }
  exists (set_cell f (cell width x y) c).
  split; [|split; [|split]].
  - rewrite setPixel_run, HW. destruct (decide _) as [|Hn]; [reflexivity|].
    exfalso. apply Hn. now apply Hcell.
  - repeat split; cbn; try assumption. now rewrite length_insert.
  - rewrite getPixel_run. cbn [WIDTH buffer set_cell]. rewrite HW.
    rewrite list_lookup_insert_eq by now apply Hcell. reflexivity.
  - intros x' y' Hx' Hy' Hne.
    destruct (lookup_lt_is_Some_2 (buffer f) (cell width x' y') (Hcell x' y' Hx' Hy'))
      as [c' Hc'].
    exists c'. rewrite !getPixel_run. cbn [WIDTH buffer set_cell]. rewrite HW.
    rewrite list_lookup_insert_ne, Hc'; [split; reflexivity|].
    intros E. apply (cell_inj width height) in E as [-> ->]; try assumption.
    now apply Hne.
Qed.

Lemma C9_get_set_witness :
  (2 * 2 < 2 ^ 32)%N /\ frame_inv 2 2 (Frame_new 2 2 black) /\ (1 < 2)%N /\ (0 < 2)%N
  /\ exists g, setPixel 1 0 red (Frame_new 2 2 black) = ([EvSet 1 0 red], Some (tt, g))
               /\ getPixel 1 0 g = ([EvGet 1 0], Some (red, g)).
Proof.
  assert (Hs : (2 * 2 < 2 ^ 32)%N) by (vm_compute; reflexivity).
  assert (Hi : frame_inv 2 2 (Frame_new 2 2 black)) by (vm_compute; repeat split; reflexivity).
  assert (H1 : (1 < 2)%N) by (vm_compute; reflexivity).
  assert (H0 : (0 < 2)%N) by (vm_compute; reflexivity).
  split; [exact Hs|]. split; [exact Hi|]. split; [exact H1|]. split; [exact H0|].
  destruct (C9_get_set 2 2 (Frame_new 2 2 black) 1 0 red Hs Hi H1 H0) as (g & E1 & _ & E2 & _).
  exists g. split; [exact E1|exact E2].
Defined.

(** Every pixel access of a run on a frame of less than [2^32] cells is
    inside the frame and inside its storage. *)
Lemma run_accesses width height fill tri :
  (width * height < 2 ^ 32)%N -> (width < 2 ^ 32)%N -> (height < 2 ^ 32)%N ->
  Forall (access_in_bounds (Frame_new width height fill)) (fst (run width height fill tri)).
Proof.
  intros Hsize HW HH.
  assert (Hin : forall e, in_frame width height e ->
                          access_in_bounds (Frame_new width height fill) e).
  { intros [n d|x y c|x y|s]; cbn [in_frame access_in_bounds]; try (intros; exact I);
      intros [Hx Hy]; cbn [WIDTH HEIGHT Frame_new];
      destruct (flat_index_small width height x y) as [E Hlt]; try assumption;
      (repeat split; try assumption);
      rewrite Frame_new_length, u32_small by assumption; unfold cell; rewrite E; lia. }
  unfold run.
  pose proof (frame_inv_new width height Hsize fill) as Hinv.
  rewrite (run_bind_ok _ _ _ _ _ _ (raster_run width height tri Hsize _ Hinv)).
  cbn [fst]. apply Forall_app. split.
  - apply List.Forall_forall. intros e He. apply Hin.
    destruct e as [n d|x y c|x y|s]; cbn [in_frame]; try exact I.
    + apply raster_events_set in He. tauto.
    + unfold raster_events in He. apply in_flat_map in He as (p & _ & He).
      unfold step_events in He. apply in_app_iff in He as [He|He].
      * destruct (intersect_events tri (fst p) (snd p)) as (n1 & n2 & n3 & E & _).
        rewrite E in He. cbn [In] in He. destruct He as [He|[He|[He|[]]]]; discriminate He.
      * destruct (covered _); cbn [In] in He; [destruct He as [He|[]]; discriminate He|contradiction].
  - destruct (frame_inv_frame width height tri _ Hinv) as (EW & EH & _).
    eapply Forall_impl; [|exact Hin].
    pose proof (writeBuffer_log (raster_frame tri (Frame_new width height fill))) as Hlog.
    rewrite EW, EH in Hlog. now apply Hlog.
Qed.

(** C10: in the program -- a 1024 x 1024 frame, whatever the fill colour
    and the triangle -- every [setPixel] of the raster loop and every
    [getPixel] of [writeBuffer] has [x < WIDTH], [y < HEIGHT], its flat index
    is [x + y * WIDTH] without wrap-around and lies below the size of the
    buffer, which has [1024 * 1024] cells before and after the raster loop. *)
Theorem C10_accesses_in_bounds (fill : vec3) (tri : Triangle) :
  let f0 := Frame_new 1024 1024 fill in
  length (buffer f0) = N.to_nat (1024 * 1024)
  /\ Forall (access_in_bounds f0) (fst (run 1024 1024 fill tri))
  /\ exists g, snd (rasterize 1024 1024 fill tri) = Some (tt, g)
               /\ length (buffer g) = N.to_nat (1024 * 1024).
Proof.
  assert (Hsize : (1024 * 1024 < 2 ^ 32)%N) by (vm_compute; reflexivity).
  assert (Hdim : (1024 < 2 ^ 32)%N) by (vm_compute; reflexivity).
  pose proof (frame_inv_new 1024 1024 Hsize fill) as Hinv.
  split; [apply Hinv|]. split.
  - now apply run_accesses.
  - rewrite (rasterize_run 1024 1024 tri Hsize). cbn [snd].
    eexists. split; [reflexivity|].
    apply (frame_inv_frame 1024 1024 tri _ Hinv).
Qed.

(** The program of the source is one such run. *)
Lemma main_accesses_in_bounds :
  Forall (access_in_bounds (Frame_new 1024 1024 main_fill)) (fst main).
Proof. apply run_accesses; vm_compute; reflexivity. Qed.

(** * The claim about the barycentric weights *)

(** C8 (as stated, refuted): at the covered pixel [(83,82)] of the scene
    of the source the three stored weights do not add up to 1, neither
    exactly nor in binary32 arithmetic ([alpha + beta + gamma] evaluates to
    a float other than [1.0f]); and at every pixel of the one-point
    triangle weights are derived and all three are NaN. *)
Lemma C8_counterexample :
  (let b := barycentrics (hit main_tri 83 82) in
   covered (hit main_tri 83 82) = true
   /\ (exists qa qb qg,
         to_Q (at0 b) = Some qa /\ to_Q (at1 b) = Some qb /\ to_Q (at2 b) = Some qg
         /\ ~ (qa + qb + qg == 1)%Q)
   /\ add (add (at0 b) (at1 b)) (at2 b) <> one)
  /\ barycentrics (hit tri_point 0 0) = Arr3 S754_nan S754_nan S754_nan.
Proof.
  split; [|vm_compute; reflexivity].
  cbn zeta. split; [vm_compute; reflexivity|]. split.
  - do 3 eexists. split; [vm_compute; reflexivity|].
    split; [vm_compute; reflexivity|]. split; [vm_compute; reflexivity|].
    intros H. vm_compute in H. discriminate H.
  - intros H. vm_compute in H. discriminate H.
Qed.

(** C8 (amended): at every pixel [alpha] is the binary32 difference
    [1.0f - (beta + gamma)] of the binary32 sum [s = beta + gamma]; when it
    is finite, the three weights are finite and their exact sum is 1 up to
    the two roundings:
    [|alpha + beta + gamma - 1| <= 2^-24 * (|beta + gamma| + |1 - s|) + 2^-149].
    When the determinant is zero no weight is finite (each is an infinity
    or NaN), and when the determinant is NaN all three weights are NaN. *)
Theorem C8_weights_sum (tri : Triangle) (x y : N) :
  let b := barycentrics (hit tri x y) in
  at0 b = sub one (add (at1 b) (at2 b))
  /\ (is_finite (at0 b) = true ->
      exists qa qb qg qs,
        to_Q (at0 b) = Some qa /\ to_Q (at1 b) = Some qb /\ to_Q (at2 b) = Some qg
        /\ to_Q (add (at1 b) (at2 b)) = Some qs
        /\ (Qabs (qa + qb + qg - 1)
            <= unit_roundoff * (Qabs (qb + qg) + Qabs (1 - qs)) + 2 * half_min)%Q)
  /\ (is_zero (hit_a (hit tri x y)) = true ->
      is_finite (at0 b) = false /\ is_finite (at1 b) = false
      /\ is_finite (at2 b) = false)
  /\ (is_nan (hit_a (hit tri x y)) = true ->
      b = Arr3 S754_nan S754_nan S754_nan).
Proof.
  cbn zeta. split; [reflexivity|].
  set (b := barycentrics (hit tri x y)).
  change (at0 b) with (sub one (add (at1 b) (at2 b))).
  split; [|split].
  - intros Hfin.
    destruct (sub_error one (add (at1 b) (at2 b)) Hfin)
      as (q1 & qs & qa & E1 & Es & Ea & Ha).
    assert (Hs : is_finite (add (at1 b) (at2 b)) = true)
      by (destruct (add (at1 b) (at2 b)); try discriminate; reflexivity).
    destruct (add_error (at1 b) (at2 b) Hs) as (qb & qg & qs' & Eb & Eg & Es' & Hsum).
    rewrite Es in Es'. injection Es' as <-.
    injection E1 as <-.
    exists qa, qb, qg, qs. repeat split; try assumption.
    assert (E1 : (Qval false 8388608 (-23) == 1)%Q) by reflexivity.
    rewrite E1 in Ha.
    apply Qabs_Qle_condition in Ha, Hsum. apply Qabs_Qle_condition.
    destruct Ha as [Ha1 Ha2], Hsum as [Hs1 Hs2].
    split; lra.
  - intros Hz.
    destruct (intersect_events tri x y) as (n1 & n2 & n3 & _ & _ & E1 & E2).
    assert (F1 : is_finite (at1 b) = false)
      by (unfold b; rewrite E1; now apply div_zero_r).
    assert (F2 : is_finite (at2 b) = false)
      by (unfold b; rewrite E2; now apply div_zero_r).
    repeat split; try assumption.
    apply sub_not_finite_r. now apply add_not_finite.
  - intros Hn. now destruct (nan_hit tri x y Hn).
Qed.

Lemma C8_weights_sum_witness :
  (let b := barycentrics (hit main_tri 200 300) in
   is_finite (at0 b) = true
   /\ exists qa qb qg qs,
        to_Q (at0 b) = Some qa /\ to_Q (at1 b) = Some qb /\ to_Q (at2 b) = Some qg
        /\ to_Q (add (at1 b) (at2 b)) = Some qs
        /\ (Qabs (qa + qb + qg - 1)
            <= unit_roundoff * (Qabs (qb + qg) + Qabs (1 - qs)) + 2 * half_min)%Q)
  /\ (is_zero (hit_a (hit tri_twin 1 0)) = true
      /\ barycentrics (hit tri_twin 1 0)
         = Arr3 S754_nan (S754_infinity true) (S754_infinity false)
      /\ is_finite (at0 (barycentrics (hit tri_twin 1 0))) = false
      /\ is_finite (at1 (barycentrics (hit tri_twin 1 0))) = false
      /\ is_finite (at2 (barycentrics (hit tri_twin 1 0))) = false)
  /\ (is_nan (hit_a (hit tri_nan 1 1)) = true
      /\ barycentrics (hit tri_nan 1 1) = Arr3 S754_nan S754_nan S754_nan).
Proof.
  cbn zeta.
  assert (Hf : is_finite (at0 (barycentrics (hit main_tri 200 300))) = true)
    by (vm_compute; reflexivity).
  assert (Hz : is_zero (hit_a (hit tri_twin 1 0)) = true) by (vm_compute; reflexivity).
  assert (Hn : is_nan (hit_a (hit tri_nan 1 1)) = true) by (vm_compute; reflexivity).
  split; [split; [exact Hf|]|split; [split; [exact Hz|split; [vm_compute; reflexivity|]]|]].
  - exact (proj1 (proj2 (C8_weights_sum main_tri 200 300)) Hf).
  - exact (proj1 (proj2 (proj2 (C8_weights_sum tri_twin 1 0))) Hz).
  - split; [exact Hn|].
    exact (proj2 (proj2 (proj2 (C8_weights_sum tri_nan 1 1))) Hn).
Defined.

(** * The claim about the export *)

(** C7 (as stated, refuted): for a frame of [2^31 + 1] rows of one pixel
    the header announces the rows and no pixel line follows, because the row
    counter [HEIGHT - 1] is negative as an [int32_t].  And for a 1x1 frame
    with the components [-0.001], [1.001] and [2.0], all outside [0,1], the
    first two channels are emitted as [0] and [255], inside [0,255]. *)
Lemma C7_counterexample :
  (emitted (fst (writeBuffer tall_frame)) = "P3 1 2147483649 255" +:+ endl
   /\ emitted (fst (writeBuffer tall_frame)) <> ppm_text tall_frame)
  /\ emitted (fst (writeBuffer (Frame_new 1 1 off_colour)))
     = "P3 1 1 255" +:+ endl +:+ "0 255 510" +:+ endl.
Proof.
  split.
  - assert (Hh : 2 ^ 31 < Z.of_N (HEIGHT tall_frame) < 2 ^ 32)
      by (unfold tall_frame; cbn [HEIGHT Frame_new]; lia).
    assert (Hw : (0 < WIDTH tall_frame)%N)
      by (unfold tall_frame; cbn [WIDTH Frame_new]; lia).
    destruct (tall_frame_text tall_frame Hh Hw) as [E Hne].
    split; [|exact Hne].
    rewrite E. unfold tall_frame; cbn [WIDTH HEIGHT Frame_new]. vm_compute. reflexivity.
  - vm_compute. reflexivity.
Qed.

(** C7 (amended): for a frame that is a [width] x [height] grid with
    [width < 2^31], [height <= 2^31] and [width * height < 2^32], all of
    whose stored components times 255 fit an [int], [writeBuffer] returns
    and emits exactly the header ["P3 <width> <height> 255"] followed by one
    line per pixel, rows from [height - 1] down to [0], left to right in each
    row, every channel being the binary32 product of the stored component
    and 255 truncated toward zero.  Nothing is rounded or clamped: 2.0 is
    emitted as 510 and -1.0 as -255. *)
Theorem C7_writeBuffer_text (width height : N) (f : Frame) :
  (width * height < 2 ^ 32)%N -> frame_inv width height f ->
  Z.of_N width < 2 ^ 31 -> Z.of_N height <= 2 ^ 31 ->
  forallb exportable (buffer f) = true ->
  snd (writeBuffer f) = Some (tt, f)
  /\ emitted (fst (writeBuffer f))
     = ppm_header width height
       +:+ join (map (fun p => ppm_pixel (pixel_at f p)) (scan_order width height))
  /\ channel (of_Z 2) = 510
  /\ channel (neg one) = -255.
Proof.
  intros Hsize Hinv Hw Hh Hexp. split; [|split].
  - now rewrite (writeBuffer_run width height f).
  - rewrite (writeBuffer_text width height f) by assumption.
    destruct Hinv as (HW & HH & _). unfold ppm_text. now rewrite HW, HH.
  - split; vm_compute; reflexivity.
Qed.

Lemma C7_writeBuffer_text_witness :
  (2 * 2 < 2 ^ 32)%N /\ frame_inv 2 2 (Frame_new 2 2 main_fill)
  /\ Z.of_N 2 < 2 ^ 31 /\ Z.of_N 2 <= 2 ^ 31
  /\ forallb exportable (buffer (Frame_new 2 2 main_fill)) = true
  /\ emitted (fst (writeBuffer (Frame_new 2 2 main_fill)))
     = "P3 2 2 255" +:+ endl +:+ "81 81 81" +:+ endl +:+ "81 81 81" +:+ endl
       +:+ "81 81 81" +:+ endl +:+ "81 81 81" +:+ endl.
Proof.
  assert (Hs : (2 * 2 < 2 ^ 32)%N) by (vm_compute; reflexivity).
  assert (Hi : frame_inv 2 2 (Frame_new 2 2 main_fill)) by (vm_compute; repeat split; reflexivity).
  assert (Hw : Z.of_N 2 < 2 ^ 31) by (vm_compute; reflexivity).
  assert (Hh : Z.of_N 2 <= 2 ^ 31) by (vm_compute; discriminate).
  assert (He : forallb exportable (buffer (Frame_new 2 2 main_fill)) = true)
    by (vm_compute; reflexivity).
  split; [exact Hs|]. split; [exact Hi|]. split; [exact Hw|]. split; [exact Hh|].
  split; [exact He|].
  destruct (C7_writeBuffer_text 2 2 (Frame_new 2 2 main_fill) Hs Hi Hw Hh He) as (_ & E & _).
  rewrite E. vm_compute. reflexivity.
Defined.

(** * The vec3 operations *)

(** X1: [operator+] on vectors is commutative, bit for bit, whatever the
    components (zeros of either sign, infinities and NaN included). *)
Theorem X1_vadd_comm (lhs rhs : vec3) : vadd lhs rhs = vadd rhs lhs.
Proof.
  unfold vadd. f_equal; apply add_comm.
Qed.

(** X2: [operator-] on vectors: every component of [lhs - rhs] denotes
    the opposite of the same component of [rhs - lhs] (a vanishing
    difference is [+0] on both sides); and a component of [v - v] is exactly
    [+0] when that component of [v] is finite, NaN when it is infinite or
    NaN. *)
Theorem X2_vsub_antisym (lhs rhs v : vec3) :
  (same_number (at0 (vsub lhs rhs)) (neg (at0 (vsub rhs lhs))) = true
   /\ same_number (at1 (vsub lhs rhs)) (neg (at1 (vsub rhs lhs))) = true
   /\ same_number (at2 (vsub lhs rhs)) (neg (at2 (vsub rhs lhs))) = true)
  /\ vsub v v = Arr3 (if is_finite (at0 v) then zero else S754_nan)
                     (if is_finite (at1 v) then zero else S754_nan)
                     (if is_finite (at2 v) then zero else S754_nan).
Proof.
  unfold vsub; cbn [at0 at1 at2]. split.
  - repeat split; apply sub_antisym.
  - now rewrite !sub_self_cases.
Qed.

(** X3: a vector whose components are finite and not zero, divided
    componentwise by itself, is exactly [(1, 1, 1)]. *)
Theorem X3_vdiv_self (v : vec3) :
  finite_nonzero (at0 v) = true -> finite_nonzero (at1 v) = true ->
  finite_nonzero (at2 v) = true ->
  vdiv v v = Arr3 one one one.
Proof.
  destruct v as [a b c]; cbn [at0 at1 at2].
  destruct a; try discriminate. destruct b; try discriminate.
  destruct c; try discriminate. intros _ _ _.
  unfold vdiv; cbn [at0 at1 at2]. now rewrite !div_self.
Qed.

Lemma X3_vdiv_self_witness :
  finite_nonzero c084 = true /\ finite_nonzero tiny = true
  /\ finite_nonzero (neg flt_max) = true
  /\ vdiv (Arr3 c084 tiny (neg flt_max)) (Arr3 c084 tiny (neg flt_max)) = Arr3 one one one.
Proof.
  split; [reflexivity | split; [reflexivity | split; [reflexivity |]]].
  apply X3_vdiv_self; reflexivity.
Defined.

(** X4: the componentwise [operator*] on vectors is commutative, bit for
    bit. *)
Theorem X4_vmul_comm (lhs rhs : vec3) : vmul lhs rhs = vmul rhs lhs.
Proof.
  unfold vmul. f_equal; apply mul_comm.
Qed.

(** X5: dividing a vector by a scalar zero (of either sign) never traps and
    never yields a finite component: each component is an infinity or NaN. *)
Theorem X5_vdivs_zero (v : vec3) (z : float) :
  is_zero z = true ->
  is_finite (at0 (vdivs v z)) = false
  /\ is_finite (at1 (vdivs v z)) = false
  /\ is_finite (at2 (vdivs v z)) = false.
Proof.
  intros Hz. unfold vdivs; cbn [at0 at1 at2].
  repeat split; now apply div_zero_r.
Qed.

Lemma X5_vdivs_zero_witness :
  is_zero (neg zero) = true
  /\ is_finite (at0 (vdivs (Arr3 one zero c084) (neg zero))) = false.
Proof.
  split; [reflexivity | apply (X5_vdivs_zero (Arr3 one zero c084) (neg zero)); reflexivity].
Defined.

(** X6: scaling a vector of well-formed binary32 data by [1.0f] returns
    it unchanged, infinite and NaN components included. *)
Theorem X6_vscale_one (v : vec3) : vvalid v = true -> vscale v one = v.
Proof.
  unfold vvalid. intros H.
  apply andb_true_iff in H as [H H2]. apply andb_true_iff in H as [H0 H1].
  destruct v as [a b c]. unfold vscale; cbn [at0 at1 at2] in *.
  now rewrite !mul_one_r.
Qed.

Lemma X6_vscale_one_witness :
  vvalid (Arr3 c084 (neg c032) (S754_infinity true)) = true
  /\ vscale (Arr3 c084 (neg c032) (S754_infinity true)) one
     = Arr3 c084 (neg c032) (S754_infinity true).
Proof.
  split; [reflexivity | apply X6_vscale_one; reflexivity].
Defined.

(** X7: [cross] is antisymmetric: every component of [cross (lhs, rhs)]
    denotes the opposite of the same component of [cross (rhs, lhs)] (a
    component that vanishes is [+0] in both). *)
Theorem X7_cross_antisym (lhs rhs : vec3) :
  same_number (at0 (cross lhs rhs)) (neg (at0 (cross rhs lhs))) = true
  /\ same_number (at1 (cross lhs rhs)) (neg (at1 (cross rhs lhs))) = true
  /\ same_number (at2 (cross lhs rhs)) (neg (at2 (cross rhs lhs))) = true.
Proof.
  unfold cross; cbn [at0 at1 at2].
  rewrite (mul_comm (at1 rhs) (at2 lhs)), (mul_comm (at2 rhs) (at1 lhs)),
    (mul_comm (at2 rhs) (at0 lhs)), (mul_comm (at0 rhs) (at2 lhs)),
    (mul_comm (at0 rhs) (at1 lhs)), (mul_comm (at1 rhs) (at0 lhs)).
  repeat split; apply sub_antisym.
Qed.

(** X8: the cross product of a vector with itself: a component is [+0]
    when the product it is the difference of is finite, and NaN when that
    product overflowed or is NaN. *)
Theorem X8_cross_self (v : vec3) :
  cross v v =
  Arr3 (if is_finite (mul (at1 v) (at2 v)) then zero else S754_nan)
       (if is_finite (mul (at2 v) (at0 v)) then zero else S754_nan)
       (if is_finite (mul (at0 v) (at1 v)) then zero else S754_nan).
Proof.
  unfold cross.
  rewrite (mul_comm (at2 v) (at1 v)), (mul_comm (at0 v) (at2 v)),
    (mul_comm (at1 v) (at0 v)).
  now rewrite !sub_self_cases.
Qed.

(** X9: [dot] is symmetric, bit for bit: the three products are the same
    floats and they are added in the same order. *)
Theorem X9_dot_comm (lhs rhs : vec3) : dot lhs rhs = dot rhs lhs.
Proof.
  unfold dot.
  now rewrite (mul_comm (at0 lhs)), (mul_comm (at1 lhs)), (mul_comm (at2 lhs)).
Qed.

(** * The frame: construction and pixel access *)

(** X10: the constructor initializes every pixel: on a frame created with
    [width * height < 2^32], [getPixel] returns the fill colour at every
    pixel inside the frame, and leaves the frame as it is. *)
Theorem X10_fresh_frame_fill (width height : N) (fill : vec3) (x y : N) :
  (width * height < 2 ^ 32)%N -> (x < width)%N -> (y < height)%N ->
  getPixel x y (Frame_new width height fill)
  = ([EvGet x y], Some (fill, Frame_new width height fill)).
Proof.
  intros HWH Hx Hy. rewrite getPixel_run.
  change (WIDTH (Frame_new width height fill)) with width.
  now rewrite fresh_cell.
Qed.

Lemma X10_fresh_frame_fill_witness :
  (3 * 2 < 2 ^ 32)%N /\ (2 < 3)%N /\ (1 < 2)%N
  /\ getPixel 2 1 (Frame_new 3 2 main_fill)
     = ([EvGet 2 1], Some (main_fill, Frame_new 3 2 main_fill)).
Proof.
  split; [reflexivity | split; [reflexivity | split; [reflexivity |]]].
  apply X10_fresh_frame_fill; reflexivity.
Defined.

(** X11: the size [WIDTH * HEIGHT] handed to [buffer.assign] is a 32-bit
    product.  Every pixel inside a freshly constructed frame can be read and
    written exactly when that product does not overflow; when it does, the
    storage is too short and some pixel inside the frame is out of range for
    both [getPixel] and [setPixel]. *)
Theorem X11_frame_size_overflow (width height : N) (fill : vec3) :
  (forall x y, (x < width)%N -> (y < height)%N ->
     snd (getPixel x y (Frame_new width height fill)) <> None
     /\ forall c, snd (setPixel x y c (Frame_new width height fill)) <> None)
  <-> (width * height < 2 ^ 32)%N.
Proof.
  split.
  - intros Hall.
    destruct (N.lt_ge_cases (width * height) (2 ^ 32)) as [Hlt|Hge]; [exact Hlt|].
    exfalso.
    destruct (overflow_pixel width height Hge) as (Hx & Hy & Hi).
    destruct (Hall _ _ Hx Hy) as [Hget _]. apply Hget.
    rewrite getPixel_run. cbn [snd].
    change (WIDTH (Frame_new width height fill)) with width.
    unfold cell. rewrite Hi.
    rewrite lookup_ge_None_2; [reflexivity|].
    rewrite Frame_new_length. lia.
  - intros HWH x y Hx Hy. split.
    + rewrite getPixel_run. cbn [snd].
      change (WIDTH (Frame_new width height fill)) with width.
      rewrite fresh_cell by assumption. discriminate.
    + intros c. rewrite setPixel_run. cbn [snd].
      change (WIDTH (Frame_new width height fill)) with width.
      destruct (decide _) as [_|Hn]; [discriminate|].
      exfalso. apply Hn. apply lookup_lt_is_Some.
      rewrite fresh_cell by assumption. eauto.
Qed.

(** X12: the last write wins: two [setPixel] calls at the same coordinates
    leave the frame as the second one alone does (and are undefined exactly
    when the second one alone is). *)
Theorem X12_setPixel_overwrite (x y : N) (c1 c2 : vec3) (f : Frame) :
  snd ((setPixel x y c1;; setPixel x y c2) f) = snd (setPixel x y c2 f).
Proof.
  rewrite setPixel_twice, setPixel_run. cbn [snd].
  destruct (decide _); [|reflexivity].
  now rewrite set_cell_set_cell.
Qed.

(** X13: writes to two different pixels inside a frame of less than
    [2^32] cells do not interfere: both calls return, in either order, and
    the resulting frame is the same. *)
Theorem X13_setPixel_commute (width height : N) (f : Frame)
        (x y : N) (c : vec3) (x' y' : N) (c' : vec3) :
  (width * height < 2 ^ 32)%N -> frame_inv width height f ->
  (x < width)%N -> (y < height)%N -> (x' < width)%N -> (y' < height)%N ->
  (x, y) <> (x', y') ->
  snd ((setPixel x y c;; setPixel x' y' c') f)
  = snd ((setPixel x' y' c';; setPixel x y c) f)
  /\ exists g, snd ((setPixel x y c;; setPixel x' y' c') f) = Some (tt, g).
Proof.
  intros HWH (HW & HH & HL) Hx Hy Hx' Hy' Hne.
  rewrite !setPixel_twice, HW.
  destruct (flat_index_small width height x y) as [E Hb]; try assumption.
  destruct (flat_index_small width height x' y') as [E' Hb']; try assumption.
  assert (Hc : (cell width x y < length (buffer f))%nat) by (unfold cell; lia).
  assert (Hc' : (cell width x' y' < length (buffer f))%nat) by (unfold cell; lia).
  destruct (decide _); [|contradiction]. destruct (decide _); [|contradiction].
  split; [|eauto].
  do 2 f_equal. apply set_cell_commute.
  intros Heq. apply Hne.
  destruct (cell_inj width height x y x' y') as [-> ->]; auto.
Qed.

Lemma X13_setPixel_commute_witness :
  (2 * 2 < 2 ^ 32)%N /\ frame_inv 2 2 (Frame_new 2 2 black)
  /\ (1%N, 0%N) <> (0%N, 1%N)
  /\ snd ((setPixel 1 0 red;; setPixel 0 1 blue) (Frame_new 2 2 black))
     = snd ((setPixel 0 1 blue;; setPixel 1 0 red) (Frame_new 2 2 black)).
Proof.
  split; [reflexivity|]. split; [repeat split|]. split; [discriminate|].
  apply (X13_setPixel_commute 2 2); try reflexivity; try discriminate.
  repeat split.
Defined.

(** X14: the coordinates are not checked one by one, only the flat index
    [x + y * WIDTH] (a 32-bit sum) selects the cell: column [x + WIDTH] of
    row [y] is the same cell as column [x] of row [y + 1], for writing and
    for reading. *)
Theorem X14_column_not_checked (f : Frame) (x y : N) (c : vec3) :
  snd (setPixel (u32 (x + WIDTH f)) y c f) = snd (setPixel x (u32 (y + 1)) c f)
  /\ snd (getPixel (u32 (x + WIDTH f)) y f) = snd (getPixel x (u32 (y + 1)) f).
Proof.
  rewrite !setPixel_run, !getPixel_run. cbn [snd].
  unfold cell. now rewrite flat_index_wrap.
Qed.

(** * Frame :: writeBuffer *)

(** X15: [writeBuffer] only reads: on every frame, whatever its dimensions
    and contents, its events are [getPixel] calls and output (never a
    [setPixel], never a division), and when it returns the frame is the one
    it was called on. *)
Theorem X15_writeBuffer_read_only (f : Frame) :
  Forall read_or_out (fst (writeBuffer f))
  /\ forall u g, snd (writeBuffer f) = Some (u, g) -> g = f.
Proof.
  split.
  - apply writeBuffer_events; intros; exact I.
  - intros u g E. exact (returns_elim _ _ _ _ _ (writeBuffer_same_frame f) E).
Qed.

(** X16: on a frame that is a [width] x [height] grid with [width <
    2^31], [height <= 2^31] and [width * height < 2^32], all of whose stored
    colours can be cast, [writeBuffer] calls [getPixel] exactly three times
    in a row for every pixel of the frame (once per channel), and visits the
    pixels from row [height - 1] down to row [0], each row from [x = 0] to
    the right. *)
Theorem X16_writeBuffer_reads (width height : N) (f : Frame) :
  (width * height < 2 ^ 32)%N -> frame_inv width height f ->
  Z.of_N width < 2 ^ 31 -> Z.of_N height <= 2 ^ 31 ->
  forallb exportable (buffer f) = true ->
  reads (fst (writeBuffer f))
  = flat_map (fun p => [p; p; p])
             (flat_map (fun y => map (fun x => (x, y)) (Nseq 0 (N.to_nat width)))
                       (rev (Nseq 0 (N.to_nat height)))).
Proof.
  intros HWH Hinv Hw Hh Hexp.
  rewrite (writeBuffer_run width height f HWH Hinv Hw Hh Hexp). cbn [fst].
  rewrite reads_app, reads_flat_map. cbn [header_events reads app].
  apply flat_map_ext. now intros [x y].
Qed.

Lemma X16_writeBuffer_reads_witness :
  (2 * 2 < 2 ^ 32)%N /\ frame_inv 2 2 (Frame_new 2 2 main_fill)
  /\ Z.of_N 2 < 2 ^ 31 /\ Z.of_N 2 <= 2 ^ 31
  /\ forallb exportable (buffer (Frame_new 2 2 main_fill)) = true
  /\ reads (fst (writeBuffer (Frame_new 2 2 main_fill)))
     = [(0, 1); (0, 1); (0, 1); (1, 1); (1, 1); (1, 1);
        (0, 0); (0, 0); (0, 0); (1, 0); (1, 0); (1, 0)]%N.
Proof.
  split; [reflexivity|]. split; [repeat split|].
  split; [reflexivity|]. split; [discriminate|]. split; [reflexivity|].
  refine (eq_trans (X16_writeBuffer_reads 2 2 (Frame_new 2 2 main_fill)
                      eq_refl _ eq_refl _ eq_refl) _);
    [repeat split|discriminate|reflexivity].
Defined.

(** X17: the column counter of [writeBuffer] is an [int32_t] compared
    with the unsigned [WIDTH]: on a frame [2^31] or more pixels wide with at
    least one row to write ([0 < HEIGHT <= 2^31]) the export cannot complete
    -- the counter would have to be incremented past [INT_MAX], a signed
    overflow -- and the run is undefined behaviour. *)
Theorem X17_writeBuffer_wide (f : Frame) :
  2 ^ 31 <= Z.of_N (WIDTH f) -> 0 < Z.of_N (HEIGHT f) <= 2 ^ 31 ->
  snd (writeBuffer f) = None.
Proof.
  intros Hw Hh. rewrite writeBuffer_unfold, rows_count by lia.
  destruct (N.to_nat (HEIGHT f)) as [|n] eqn:En; [lia|].
  cbn [for_i32_down]. rewrite run_seq.
  pose proof (for_i32_up_overflow (N.to_nat (WIDTH f)) 0
                (fun x => out_channel x (Z.of_nat n) at0 " ";;
                          out_channel x (Z.of_nat n) at1 " ";;
                          out_channel x (Z.of_nat n) at2 endl) f) as Hov.
  destruct (for_i32_up _ 0 _ f) as [l [[u g]|]]; [|reflexivity].
  cbn [snd] in Hov. discriminate Hov; unfold INT_MAX; lia.
Qed.

Lemma X17_writeBuffer_wide_witness :
  2 ^ 31 <= Z.of_N (WIDTH (Frame_new 2147483648 1 black))
  /\ 0 < Z.of_N (HEIGHT (Frame_new 2147483648 1 black)) <= 2 ^ 31
  /\ snd (writeBuffer (Frame_new 2147483648 1 black)) = None.
Proof.
  split; [cbn [WIDTH Frame_new]; lia|]. split; [cbn [HEIGHT Frame_new]; lia|].
  apply X17_writeBuffer_wide; [cbn [WIDTH Frame_new]|cbn [HEIGHT Frame_new]]; lia.
Defined.

(** X18: on a frame that is a [width] x [height] grid with [width <
    2^31], [height <= 2^31] and [width * height < 2^32], [writeBuffer] returns
    exactly when every stored component times 255 can be cast to [int]; a
    stored NaN, infinity or component beyond the range of [int] makes the
    export undefined behaviour. *)
Theorem X18_writeBuffer_defined_iff (width height : N) (f : Frame) :
  (width * height < 2 ^ 32)%N -> frame_inv width height f ->
  Z.of_N width < 2 ^ 31 -> Z.of_N height <= 2 ^ 31 ->
  (snd (writeBuffer f) = Some (tt, f) <-> forallb exportable (buffer f) = true)
  /\ (snd (writeBuffer f) = None <-> forallb exportable (buffer f) = false).
Proof.
  intros HWH Hinv Hw Hh.
  pose proof (writeBuffer_returns_exportable width height f HWH Hinv Hh) as Hret.
  unfold returns in Hret.
  destruct (forallb exportable (buffer f)) eqn:E.
  - rewrite (writeBuffer_run width height f HWH Hinv Hw Hh E). cbn [snd].
    split; split; auto; discriminate.
  - destruct (snd (writeBuffer f)) as [[u g]|]; [discriminate Hret|].
    split; split; auto; discriminate.
Qed.

Lemma X18_writeBuffer_defined_iff_witness :
  (1 * 1 < 2 ^ 32)%N /\ frame_inv 1 1 (Frame_new 1 1 (Arr3 one S754_nan zero))
  /\ Z.of_N 1 < 2 ^ 31 /\ Z.of_N 1 <= 2 ^ 31
  /\ forallb exportable (buffer (Frame_new 1 1 (Arr3 one S754_nan zero))) = false
  /\ snd (writeBuffer (Frame_new 1 1 (Arr3 one S754_nan zero))) = None.
Proof.
  split; [reflexivity|]. split; [repeat split|].
  split; [reflexivity|]. split; [discriminate|]. split; [reflexivity|].
  apply (X18_writeBuffer_defined_iff 1 1); try reflexivity; try discriminate.
  repeat split.
Defined.

(** X19: a stored component that is a finite number between 0 and 1 can
    always be written: its product with 255 is cast without undefined
    behaviour and the channel emitted for it lies between 0 and 255. *)
Theorem X19_channel_range (c : float) (q : Q) :
  to_Q c = Some q -> (0 <= q)%Q -> (q <= 1)%Q ->
  castable c = true /\ 0 <= channel c <= 255.
Proof.
  intros Eq H0 H1.
  destruct (channel_in_range c q Eq H0 H1) as (z & Ez & Hz).
  unfold castable, channel. rewrite Ez.
  unfold to_int in Ez. destruct (trunc (mul c (of_Z 255))) as [z'|]; [|discriminate].
  destruct ((- 2 ^ 31 <=? z') && (z' <? 2 ^ 31)); [|discriminate].
  injection Ez as ->. split; [reflexivity|exact Hz].
Qed.

Lemma X19_channel_range_witness :
  to_Q c084 = Some (Qval false 14092861 (-24))
  /\ (0 <= Qval false 14092861 (-24))%Q /\ (Qval false 14092861 (-24) <= 1)%Q
  /\ castable c084 = true /\ 0 <= channel c084 <= 255.
Proof.
  split; [reflexivity|]. split; [now vm_compute|]. split; [now vm_compute|].
  apply (X19_channel_range c084 (Qval false 14092861 (-24)));
    [reflexivity|now vm_compute|now vm_compute].
Defined.

(** * The raster loop *)

(** X20: the raster loop, on every frame and for every triangle, only
    divides and calls [setPixel] (it never reads a pixel and never writes to
    the stream), and when it returns the frame has the dimensions and the
    number of cells it had before. *)
Theorem X20_raster_keeps_shape (tri : Triangle) (f : Frame) :
  Forall div_or_set (fst (raster tri f))
  /\ forall u g, snd (raster tri f) = Some (u, g) ->
       WIDTH g = WIDTH f /\ HEIGHT g = HEIGHT f
       /\ length (buffer g) = length (buffer f).
Proof.
  split.
  - apply raster_log. intros x y. apply step_events_shape.
  - intros u g E. exact (returns_elim _ _ _ _ _ (raster_same_shape tri f) E).
Qed.

(** X21: on a frame of less than [2^32] cells the raster loop visits the
    pixels row by row from [y = 0] upward, each row from [x = 0] to the
    right: it divides exactly three times per pixel, and it calls [setPixel]
    once for each covered pixel and for no other, in that order. *)
Theorem X21_raster_order (width height : N) (fill : vec3) (tri : Triangle) :
  (width * height < 2 ^ 32)%N ->
  writes (fst (rasterize width height fill tri))
  = filter (fun p => covered (hit tri (fst p) (snd p)))
           (flat_map (fun y => map (fun x => (x, y)) (Nseq 0 (N.to_nat width)))
                     (Nseq 0 (N.to_nat height)))
  /\ divisions (fst (rasterize width height fill tri))
     = (3 * (N.to_nat height * N.to_nat width))%nat.
Proof.
  intros HWH. rewrite (rasterize_run width height tri HWH). cbn [fst].
  split.
  - apply raster_events_writes.
  - now rewrite raster_events_divisions, pixels_length.
Qed.

Lemma X21_raster_order_witness :
  (4 * 2 < 2 ^ 32)%N
  /\ writes (fst (rasterize 4 2 black tri_front))
     = [(0, 0); (1, 0); (2, 0); (3, 0); (0, 1); (1, 1); (2, 1)]%N
  /\ divisions (fst (rasterize 4 2 black tri_front)) = 24%nat.
Proof.
  split; [reflexivity|].
  destruct (X21_raster_order 4 2 black tri_front eq_refl) as [Hw Hd].
  split; [|exact Hd].
  refine (eq_trans Hw _). vm_compute. reflexivity.
Defined.

(** X22: the raster loop is idempotent.  On a frame that is a [width] x
    [height] grid with [width * height < 2^32], whatever it holds, running
    the loop a second time returns the very frame the first run returned:
    covered pixels receive the same shade again, the others are not
    touched. *)
Theorem X22_raster_twice (width height : N) (tri : Triangle) (g : Frame) :
  (width * height < 2 ^ 32)%N -> frame_inv width height g ->
  (exists g', snd (raster tri g) = Some (tt, g'))
  /\ snd ((raster tri;; raster tri) g) = snd (raster tri g).
Proof.
  intros HWH Hg.
  pose proof (frame_inv_frame width height tri g Hg) as Hg1.
  rewrite run_seq.
  rewrite (raster_run width height tri HWH g Hg).
  rewrite (raster_run width height tri HWH _ Hg1). cbn [snd].
  split; [eauto|].
  now rewrite (raster_frame_idem width height tri g HWH Hg).
Qed.

Lemma X22_raster_twice_witness :
  (3 * 3 < 2 ^ 32)%N /\ frame_inv 3 3 (Frame_new 3 3 red)
  /\ snd ((raster tri_front;; raster tri_front) (Frame_new 3 3 red))
     = snd (raster tri_front (Frame_new 3 3 red)).
Proof.
  split; [reflexivity|]. split; [repeat split|].
  apply (X22_raster_twice 3 3); [reflexivity|repeat split].
Defined.

(** X23: only one face of a triangle is drawn.  When the two edge
    vectors [vertex1 - vertex0] and [vertex2 - vertex0] are finite binary32
    numbers, exchanging vertices 1 and 2 turns the determinant into its
    opposite; so if the determinant is not NaN and some pixel of the
    triangle is covered, then no pixel of the triangle with the opposite
    winding is covered, [setPixel] is not called for it and the raster run
    returns the frame as it was created. *)
Theorem X23_back_face_culled (tri : Triangle) :
  vfinite (edge_u tri) = true -> vfinite (edge_v tri) = true ->
  same_number (hit_a (hit (swap_winding tri) 0 0)) (neg (hit_a (hit tri 0 0))) = true
  /\ (is_nan (hit_a (hit tri 0 0)) = false ->
      (exists x y, covered (hit tri x y) = true) ->
      (forall x y, covered (hit (swap_winding tri) x y) = false)
      /\ forall width height fill,
           writes (fst (rasterize width height fill (swap_winding tri))) = []
           /\ snd (rasterize width height fill (swap_winding tri))
              = Some (tt, Frame_new width height fill)).
Proof.
  intros Hu Hv.
  assert (Hswap : same_number (hit_a (hit (swap_winding tri) 0 0))
                              (neg (hit_a (hit tri 0 0))) = true).
  { rewrite !hit_a_det.
    change (edge_u (swap_winding tri)) with (edge_v tri).
    change (edge_v (swap_winding tri)) with (edge_u tri).
    now apply det_swap. }
  split; [exact Hswap|].
  intros Hnan (x0 & y0 & Hc).
  assert (Hno : forall x y, covered (hit (swap_winding tri) x y) = false).
  { intros x y. apply zeroArea_not_covered. unfold zeroArea.
    rewrite (hit_a_pixel _ x y 0%N 0%N), (leb_same_number _ _ _ Hswap).
    apply leb_neg_eps1; [exact Hnan|].
    apply covered_iff_flags in Hc as (Ha & _).
    now rewrite (hit_a_pixel _ 0%N 0%N x0 y0). }
  split; [exact Hno|].
  intros width height fill. unfold rasterize.
  rewrite (no_cover_run _ _ Hno). cbn [fst snd]. split; [|reflexivity].
  rewrite raster_events_writes.
  induction (pixels _ _) as [|p l IH]; [reflexivity|].
  rewrite filter_cons, Hno. exact IH.
Qed.

Lemma X23_back_face_culled_witness :
  vfinite (edge_u main_tri) = true /\ vfinite (edge_v main_tri) = true
  /\ is_nan (hit_a (hit main_tri 0 0)) = false
  /\ covered (hit main_tri 200 300) = true
  /\ covered (hit (swap_winding main_tri) 200 300) = false.
Proof.
  split; [reflexivity|]. split; [reflexivity|]. split; [reflexivity|].
  split; [now vm_compute|].
  destruct (X23_back_face_culled main_tri eq_refl eq_refl) as [_ H].
  destruct H as [Hno _]; [reflexivity| |apply Hno].
  exists 200%N, 300%N. now vm_compute.
Defined.

(** X24: the interpolation is exact at the vertices.  For a triangle
    whose edge vectors and vertex colours are finite binary32 numbers, at a
    covered pixel where none of the determinant, the ray parameter and the
    weights is NaN: if the pixel is the position of vertex 0 (its [x] and
    [y] are the first two coordinates of the vertex) the weights are
    [(1, 0, 0)] and the colour handed to [setPixel] is the colour of vertex
    0; at the position of vertex 1 they are [(0, 1, 0)] and the colour of
    vertex 1; at the position of vertex 2, [(0, 0, 1)] and the colour of
    vertex 2 (a zero weight or colour component may be of either sign). *)
Theorem X24_vertex_colours (tri : Triangle) (x y : N) :
  vfinite (edge_u tri) = true -> vfinite (edge_v tri) = true ->
  vfinite (at0 (colors tri)) = true -> vfinite (at1 (colors tri)) = true ->
  vfinite (at2 (colors tri)) = true ->
  covered (hit tri x y) = true -> hit_has_nan (hit tri x y) = false ->
  let b := barycentrics (hit tri x y) in
  let at_pixel (p : vec3) := at0 p = of_Z (Z.of_N x) /\ at1 p = of_Z (Z.of_N y) in
  (at_pixel (at0 (vertices tri)) ->
   at0 b = one /\ is_zero (at1 b) = true /\ is_zero (at2 b) = true
   /\ vsame (shade tri (hit tri x y)) (at0 (colors tri)) = true)
  /\ (at_pixel (at1 (vertices tri)) ->
      is_zero (at0 b) = true /\ at1 b = one /\ is_zero (at2 b) = true
      /\ vsame (shade tri (hit tri x y)) (at1 (colors tri)) = true)
  /\ (at_pixel (at2 (vertices tri)) ->
      is_zero (at0 b) = true /\ is_zero (at1 b) = true /\ at2 b = one
      /\ vsame (shade tri (hit tri x y)) (at2 (colors tri)) = true).
Proof.
  intros Hu Hv C0 C1 C2 Hcov Hnan. cbn zeta.
  destruct (shade_weights tri (hit tri x y) C0 C1 C2) as (S0 & S1 & S2).
  repeat split.
  1-4: destruct H as [Ex Ey];
       destruct (vertex0_weights tri x y Hu Hv Hcov Hnan Ex Ey) as (W0 & W1 & W2); auto.
  1-4: destruct H as [Ex Ey];
       destruct (vertex1_weights tri x y Hu Hv Hcov Hnan Ex Ey) as (W0 & W1 & W2); auto.
  all: destruct H as [Ex Ey];
       destruct (vertex2_weights tri x y Hu Hv Hcov Hnan Ex Ey) as (W0 & W1 & W2); auto.
Qed.

Lemma X24_vertex_colours_witness :
  vfinite (edge_u main_tri) = true /\ vfinite (edge_v main_tri) = true
  /\ vfinite (at0 (colors main_tri)) = true /\ vfinite (at1 (colors main_tri)) = true
  /\ vfinite (at2 (colors main_tri)) = true
  /\ covered (hit main_tri 480 320) = true /\ hit_has_nan (hit main_tri 480 320) = false
  /\ at0 (at2 (vertices main_tri)) = of_Z (Z.of_N 480)
  /\ at1 (at2 (vertices main_tri)) = of_Z (Z.of_N 320)
  /\ barycentrics (hit main_tri 480 320) = Arr3 zero zero one
  /\ vsame (shade main_tri (hit main_tri 480 320)) (Arr3 c084 zero c084) = true.
Proof.
  do 9 (split; [now vm_compute|]).
  pose proof (X24_vertex_colours main_tri 480 320 eq_refl eq_refl eq_refl eq_refl eq_refl)
    as H.
  destruct H as (_ & _ & H); [now vm_compute|now vm_compute|].
  destruct H as (W0 & W1 & W2 & Hs); [split; now vm_compute|].
  split; [now vm_compute|exact Hs].
Defined.

(** X25: a triangle in the plane of the ray origins is not drawn.  When
    the third coordinate of all three vertices is zero (of either sign), at
    every pixel the ray parameter [d] is NaN or a zero; and when it is not
    NaN the test [d <= 0.1f] rejects the pixel, which is not covered. *)
Theorem X25_origin_plane (tri : Triangle) (x y : N) :
  is_zero (at2 (at0 (vertices tri))) = true ->
  is_zero (at2 (at1 (vertices tri))) = true ->
  is_zero (at2 (at2 (vertices tri))) = true ->
  is_nan (hit_d (hit tri x y)) = false ->
  is_zero (hit_d (hit tri x y)) = true /\ covered (hit tri x y) = false.
Proof.
  intros Z0 Z1 Z2 Hd.
  pose proof (origin_plane_depth tri x y Z0 Z1 Z2 Hd) as Hz.
  split; [exact Hz|].
  destruct (covered (hit tri x y)) eqn:Hc; [|reflexivity].
  apply covered_iff_flags in Hc as (_ & _ & _ & _ & Hle).
  now rewrite (leb_zero_tenth _ Hz) in Hle.
Qed.

Lemma X25_origin_plane_witness :
  is_zero (at2 (at0 (vertices (swap_winding tri_spec)))) = true
  /\ is_zero (at2 (at1 (vertices (swap_winding tri_spec)))) = true
  /\ is_zero (at2 (at2 (vertices (swap_winding tri_spec)))) = true
  /\ is_nan (hit_d (hit (swap_winding tri_spec) 1 1)) = false
  /\ zeroArea (hit (swap_winding tri_spec) 1 1) = false
  /\ covered (hit (swap_winding tri_spec) 1 1) = false.
Proof.
  do 5 (split; [reflexivity|]).
  apply (X25_origin_plane (swap_winding tri_spec) 1 1); reflexivity.
Defined.

(** * The whole program *)

(** X26: the program end to end.  For a frame of [width < 2^31] by
    [height <= 2^31] pixels with [width * height < 2^32], and a fill colour
    and a triangle such that every colour of the image can be cast (the
    shade at the covered pixels, the fill colour if a pixel is not covered),
    the run -- construction, raster loop, export -- returns, and the text it
    emits is the header followed, rows from [height - 1] down to [0] and
    left to right, by the shade of each covered pixel and the fill colour of
    each other pixel. *)
Theorem X26_run_image (width height : N) (fill : vec3) (tri : Triangle) :
  (width * height < 2 ^ 32)%N -> Z.of_N width < 2 ^ 31 -> Z.of_N height <= 2 ^ 31 ->
  (forall x y, (x < width)%N -> (y < height)%N ->
               exportable (image_pixel fill tri (x, y)) = true) ->
  (exists g, snd (run width height fill tri) = Some (tt, g))
  /\ emitted (fst (run width height fill tri))
     = ppm_header width height
       +:+ join (map (fun p => ppm_pixel (image_pixel fill tri p))
                     (scan_order width height)).
Proof.
  intros HWH Hw Hh Hexp.
  pose proof (image_inv width height fill tri HWH) as Hinv.
  assert (Hall : forallb exportable
                   (buffer (raster_frame tri (Frame_new width height fill))) = true).
  { apply (all_pixels_exportable width height); try assumption.
    intros x y Hx Hy. rewrite pixel_at_image by assumption. now apply Hexp. }
  rewrite (run_unfold width height fill tri HWH).
  rewrite (writeBuffer_run width height _ HWH Hinv Hw Hh Hall). cbn [fst snd].
  split; [eauto|].
  rewrite !emitted_app, raster_events_silent, emitted_flat_map.
  change (emitted (header_events width height)) with (ppm_header width height).
  change ("" +:+ ?s) with s. f_equal. f_equal.
  apply map_ext_in. intros [x y] Hin. apply scan_order_In in Hin as [Hx Hy].
  rewrite pixel_at_image by assumption. reflexivity.
Qed.

Lemma X26_run_image_witness :
  (3 * 3 < 2 ^ 32)%N /\ Z.of_N 3 < 2 ^ 31 /\ Z.of_N 3 <= 2 ^ 31
  /\ emitted (fst (run 3 3 main_fill tri_front))
     = "P3 3 3 255" +:+ endl
       +:+ "84 170 0" +:+ endl +:+ "0 170 85" +:+ endl +:+ "81 81 81" +:+ endl
       +:+ "169 85 0" +:+ endl +:+ "84 85 85" +:+ endl +:+ "0 85 170" +:+ endl
       +:+ "255 0 0" +:+ endl +:+ "169 0 85" +:+ endl +:+ "84 0 170" +:+ endl.
Proof.
  split; [reflexivity|]. split; [reflexivity|]. split; [discriminate|].
  destruct (X26_run_image 3 3 main_fill tri_front) as [_ Ht];
    [reflexivity | reflexivity | discriminate | |].
  - intros x y Hx Hy.
    assert (Hc : In (x, y) (pixels 3 3)) by now apply pixels_In.
    cbn in Hc. repeat (destruct Hc as [Hc|Hc]; [injection Hc as <- <-; now vm_compute|]).
    contradiction.
  - refine (eq_trans Ht _). vm_compute. reflexivity.
Defined.

(** X27: an empty frame.  When the width or the height is zero the
    raster loop does nothing at all (no division, no write) and
    [writeBuffer] emits the header line and nothing else, without reading a
    pixel; so a run on such a frame returns and its whole output is the
    header. *)
Theorem X27_empty_frame (tri : Triangle) (f : Frame) (width height : N) (fill : vec3) :
  (WIDTH f = 0%N \/ HEIGHT f = 0%N ->
   raster tri f = ([], Some (tt, f))
   /\ writeBuffer f = (header_events (WIDTH f) (HEIGHT f), Some (tt, f)))
  /\ (width = 0%N \/ height = 0%N ->
      snd (run width height fill tri) = Some (tt, Frame_new width height fill)
      /\ emitted (fst (run width height fill tri)) = ppm_header width height).
Proof.
  split.
  - intros He. split; [now apply raster_empty|now apply writeBuffer_empty].
  - intros He. unfold run. rewrite run_seq.
    rewrite raster_empty by exact He.
    rewrite writeBuffer_empty by exact He.
    split; reflexivity.
Qed.

Lemma X27_empty_frame_witness :
  (0%N = 0%N \/ 5%N = 0%N)
  /\ emitted (fst (run 0 5 main_fill main_tri)) = "P3 0 5 255" +:+ endl.
Proof.
  split; [now left|].
  destruct (X27_empty_frame main_tri (Frame_new 0 5 main_fill) 0 5 main_fill) as [_ H].
  destruct H as [_ Ht]; [now left|].
  refine (eq_trans Ht _). reflexivity.
Defined.
